(** * The RTEMS linker host tools: file cache and RAP image builder

    A shallow embedding of [rld-files.cpp] and [rld-rap.cpp] and the
    properties of the design document that concern them.

    Conventions.
    - A [std::string] or a byte buffer is a [list ascii]; [str] turns a
      literal into one.
    - An unsigned [w]-bit integer is a [Z] kept in range by [wrap32] or
      [wrap64]; [size_t] and [uint64_t] are 64 bits wide, [off_t] is a
      signed 64-bit integer, [int] a signed 32-bit one.
    - A C++ call ends in one of three ways, see [result]: it returns, it
      throws, or it does what the language leaves undefined. *)

From Stdlib Require Import ZArith Ascii String List Bool Lia.
Import ListNotations.
Local Open Scope Z_scope.

(** ** Machine integers and outcomes *)

Definition wrap32 (z : Z) : Z := z mod 2 ^ 32.
Definition wrap64 (z : Z) : Z := z mod 2 ^ 64.

Definition INT_MAX : Z := 2 ^ 31 - 1.
Definition INT_MIN : Z := - 2 ^ 31.

(** The value of an [int64_t] converted from the unsigned value [z]. *)
Definition to_signed64 (z : Z) : Z :=
  let u := wrap64 z in if u <? 2 ^ 63 then u else u - 2 ^ 64.

Definition NUL : ascii := Ascii.zero.
Definition byte_of (z : Z) : ascii := ascii_of_N (Z.to_N z).
Definition code (c : ascii) : Z := Z.of_N (N_of_ascii c).
Definition str (s : string) : list ascii := list_ascii_of_string s.
Definition size_of (s : list ascii) : Z := Z.of_nat (length s).
Definition is_empty (s : list ascii) : bool :=
  match s with [] => true | _ => false end.

(** The error kinds of the design document; each stands for the
    [rld::error] thrown with the quoted text. *)
Inductive error : Type :=
| NoFileName            (* "No file name" *)
| OpenError             (* strerror (errno), "open:" *)
| ReadError             (* strerror (errno), "reading: " *)
| WriteError            (* strerror (errno), "writing: " *)
| SeekError             (* strerror (errno), "lseek:" *)
| InputTooShort         (* "input too short" *)
| OutputTruncated       (* "output trucated" *)
| BadAlloc              (* std::bad_alloc from operator new *)
| NameInvalid           (* "name is empty", "name is not an archive: " *)
| InvalidHeader         (* "Invalid header magic numbers at " *)
| MissingExtendedNameTable (* "No GNU extended file name section found" *)
| ExtendedNameNotFound  (* "extended file name not found" *)
| NotValid              (* "Not valid: " *)
| AlignmentMismatch     (* "Alignments do not match for section '" *)
| InvalidAlignment      (* "Invalid alignment '" *)
| SectionIndexNotFound. (* "Section index not found: " *)

Inductive result (A : Type) : Type :=
| Ok (a : A)
| Throw (e : error)
| Undefined.
Arguments Ok {A} a.
Arguments Throw {A} e.
Arguments Undefined {A}.

Definition bind {A B : Type} (c : result A) (k : A -> result B) : result B :=
  match c with
  | Ok a => k a
  | Throw e => Throw e
  | Undefined => Undefined
  end.

Notation "x <- c1 ;; c2" := (bind c1 (fun x => c2))
  (at level 61, c1 at next level, right associativity).

(** [1 << n] on an [int], the count [n] being unsigned: the count must be
    below the width; [1 << 31] is the most negative [int]. *)
Definition shl_one (n : Z) : result Z :=
  if n <? 31 then Ok (2 ^ n)
  else if n =? 31 then Ok INT_MIN
  else Undefined.

(** [a - b] on [int]: signed overflow is not defined. *)
Definition int_sub (a b : Z) : result Z :=
  let d := a - b in
  if (INT_MIN <=? d) && (d <=? INT_MAX) then Ok d else Undefined.

(** ** [std::string] operations used by the sources *)

(** [s[pos]] on a [const std::string&]: the character at [pos] below
    [size ()], the null character at [pos == size ()], not defined above. *)
Definition string_at (s : list ascii) (pos : Z) : result ascii :=
  if pos <? size_of s then Ok (nth (Z.to_nat pos) s NUL)
  else if pos =? size_of s then Ok NUL
  else Undefined.

(** The C string that starts at a pointer into a string's buffer: the bytes
    up to the first null character, the terminator of the buffer at last. *)
Fixpoint c_str (s : list ascii) : list ascii :=
  match s with
  | [] => []
  | c :: t => if Ascii.eqb c NUL then [] else c :: c_str t
  end.

(** [s.find_last_of (c)]: the last position of [c], [None] for [npos]. *)
Fixpoint find_last_of (s : list ascii) (c : ascii) : option nat :=
  match s with
  | [] => None
  | x :: t =>
      match find_last_of t c with
      | Some i => Some (S i)
      | None => if Ascii.eqb x c then Some 0%nat else None
      end
  end.

Definition mem (c : ascii) (set : list ascii) : bool :=
  existsb (Ascii.eqb c) set.

(** [s.find_first_of (set)]: the first position of [s] that holds any one
    of the characters of [set]. *)
Fixpoint find_first_of (s set : list ascii) : option nat :=
  match s with
  | [] => None
  | x :: t =>
      if mem x set then Some 0%nat
      else match find_first_of t set with
           | Some i => Some (S i)
           | None => None
           end
  end.

(** [s.find (pat)]: the first position at which [pat] occurs as a whole. *)
Fixpoint is_prefix (pat s : list ascii) : bool :=
  match pat, s with
  | [], _ => true
  | _ :: _, [] => false
  | p :: pat', x :: s' => Ascii.eqb p x && is_prefix pat' s'
  end.

Fixpoint find (s pat : list ascii) : option nat :=
  if is_prefix pat s then Some 0%nat
  else match s with
       | [] => None
       | _ :: t => match find t pat with
                   | Some i => Some (S i)
                   | None => None
                   end
       end.

(** Digits of a non-negative number, as [operator<<] of an [ostream] prints
    it in base 10 or, after [std::oct], base 8. *)
Fixpoint digits_aux (fuel : nat) (base n : Z) (acc : list ascii) : list ascii :=
  match fuel with
  | O => acc
  | S fuel' =>
      let acc' := byte_of (48 + n mod base) :: acc in
      if n / base =? 0 then acc' else digits_aux fuel' base (n / base) acc'
  end.

Definition to_string (n : Z) : list ascii := digits_aux 64 10 n [].
Definition to_octal (n : Z) : list ascii := digits_aux 64 8 n [].

(** [operator<<] of a signed integer, an [off_t] for one: the sign of a
    negative number, then its digits. *)
Definition to_string_signed (n : Z) : list ascii :=
  if n <? 0 then "-"%char :: to_string (- n) else to_string n.

(** ** [rld::files] *)

Module files.

(** *** Paths *)

Section Paths.

(** [RLD_PATH_SEPARATOR] of [rld.h], which is not among the sources. *)
Variable RLD_PATH_SEPARATOR : ascii.

Definition basename (name : list ascii) : list ascii :=
  match find_last_of name RLD_PATH_SEPARATOR with
  | Some b => skipn (S b) name
  | None => name
  end.

(** One evaluation of [operator[]]: the position asked for and the size of
    the string at that moment. *)
Record access : Type := mk_access { acc_pos : Z; acc_size : Z }.

(** A computation that logs its [operator[]] evaluations. *)
Definition logged (A : Type) : Type := (list access * result A)%type.

Definition lret {A : Type} (a : A) : logged A := ([], Ok a).

Definition lbind {A B : Type} (c : logged A) (k : A -> logged B) : logged B :=
  match c with
  | (l, Ok a) => let (l', r) := k a in (l ++ l', r)
  | (l, Throw e) => (l, Throw e)
  | (l, Undefined) => (l, Undefined)
  end.

Definition index (s : list ascii) (pos : Z) : logged ascii :=
  ([mk_access pos (size_of s)], string_at s pos).

(** [a && b] and its short circuit. *)
Definition land_then (a : bool) (b : logged bool) : logged bool :=
  if a then b else lret false.

Definition path_join (path_ file_ : list ascii) : logged (list ascii) :=
  let last := wrap64 (size_of path_ - 1) in
  lbind (index path_ last) (fun p1 =>
  lbind (land_then (negb (Ascii.eqb p1 RLD_PATH_SEPARATOR))
           (lbind (index file_ 0) (fun f0 =>
            lret (negb (Ascii.eqb f0 RLD_PATH_SEPARATOR))))) (fun neither =>
  if neither then lret (path_ ++ [RLD_PATH_SEPARATOR] ++ file_)
  else
    lbind (index path_ last) (fun p2 =>
    lbind (land_then (Ascii.eqb p2 RLD_PATH_SEPARATOR)
             (lbind (index file_ 0) (fun f0 =>
              lret (Ascii.eqb f0 RLD_PATH_SEPARATOR)))) (fun both =>
    if both
    then lbind (index file_ 1) (fun _ => lret (path_ ++ c_str (skipn 1 file_)))
    else lret (path_ ++ file_))))).

(** The join the design document describes, in its own words: "join with
    exactly one separator: if both ends have one, strip one; if neither,
    insert one". *)
Definition strip_trailing (p : list ascii) : list ascii :=
  if Ascii.eqb (last p NUL) RLD_PATH_SEPARATOR then removelast p else p.

Definition strip_leading (f : list ascii) : list ascii :=
  match f with
  | c :: t => if Ascii.eqb c RLD_PATH_SEPARATOR then t else f
  | [] => []
  end.

Definition joined_once (p f : list ascii) : list ascii :=
  strip_trailing p ++ RLD_PATH_SEPARATOR :: strip_leading f.

(** "Exactly one separator" at the junction of a result [r]: [r] is the
    directory, less the separator it may end with, one separator, and the
    file, less the separator it may begin with, and what stands next to
    that separator on either side is no separator. *)
Definition ends_with_separator (p : list ascii) : Prop :=
  exists q, p = q ++ [RLD_PATH_SEPARATOR].

Definition starts_with_separator (f : list ascii) : Prop :=
  exists t, f = RLD_PATH_SEPARATOR :: t.

Definition one_separator (path_ file_ r : list ascii) : Prop :=
  exists p f,
    r = p ++ RLD_PATH_SEPARATOR :: f
    /\ (path_ = p \/ path_ = p ++ [RLD_PATH_SEPARATOR])
    /\ (file_ = f \/ file_ = RLD_PATH_SEPARATOR :: f)
    /\ ~ ends_with_separator p
    /\ ~ starts_with_separator f.

(** An access the language defines: [pos <= size ()]. *)
Definition access_defined (a : access) : Prop :=
  0 <= acc_pos a <= acc_size a.

(** An access to a character of the string proper: [pos < size ()]. *)
Definition access_inside (a : access) : Prop :=
  0 <= acc_pos a < acc_size a.

End Paths.

(** *** [file] *)

Record file : Type := mk_file {
  aname_ : list ascii;   (* the archive name, possibly empty *)
  oname_ : list ascii;   (* the object name, possibly empty *)
  offset_ : Z;           (* [off_t]: where the object starts in the archive *)
  size_ : Z              (* [size_t] *)
}.

(** [file::file ()]. *)
Definition file_default : file := mk_file [] [] 0 0.

Section FileSet.

(** [RLD_DRIVE_SEPARATOR] of [rld.h] as the comparison with a [size_t]
    sees it, and what [stat] reports as the size of a path, if anything. *)
Variable RLD_DRIVE_SEPARATOR : Z.
Variable stat_size : list ascii -> option Z.

(** [s.substr (pos, n)]: at most [n] characters, fewer at the end. *)
Definition substr (s : list ascii) (pos n : Z) : list ascii :=
  firstn (Z.to_nat (Z.min n (size_of s))) (skipn (Z.to_nat pos) s).

Definition file_set (path : list ascii) (is_object : bool) (f : file) : file :=
  if is_empty path then f
  else
    let '(f1, get_size) :=
      if is_object then
        match find_last_of path ":" with
        | Some colon =>
            if Z.of_nat colon >? RLD_DRIVE_SEPARATOR
            then (mk_file (substr path 0 (wrap64 (Z.of_nat colon - 1)))
                          (skipn (S colon) path) (offset_ f) (size_ f), false)
            else (mk_file (aname_ f) path (offset_ f) (size_ f), true)
        | None => (mk_file (aname_ f) path (offset_ f) (size_ f), true)
        end
      else (mk_file path (oname_ f) (offset_ f) (size_ f), true) in
    if get_size then
      match stat_size path with
      | Some sz => mk_file (aname_ f1) (oname_ f1) (offset_ f1) sz
      | None => f1
      end
    else f1.

(** [file::file (path, is_object)]. *)
Definition file_of_path (path : list ascii) (is_object : bool) : file :=
  file_set path is_object file_default.

End FileSet.

Definition is_archive (f : file) : bool :=
  negb (is_empty (aname_ f)) && is_empty (oname_ f).

Definition is_object (f : file) : bool := negb (is_empty (oname_ f)).

(** [!aname_.empty () || ~oname_.empty ()]: the operand of [~] is the
    [bool] promoted to [int], and the [int] that results is converted back
    to [bool], true when it is not zero. *)
Definition is_valid (f : file) : bool :=
  negb (is_empty (aname_ f))
  || negb (Z.lnot (Z.b2z (is_empty (oname_ f))) =? 0).

(** What the design document asks of [is_valid]: "at least one name is
    non-empty when valid". *)
Definition has_a_name (f : file) : bool :=
  negb (is_empty (aname_ f)) || negb (is_empty (oname_ f)).

Definition path (f : file) : list ascii :=
  if negb (is_empty (aname_ f)) then aname_ f else oname_ f.

Definition full (f : file) : list ascii :=
  let f1 := if negb (is_empty (aname_ f))
            then aname_ f ++ (if negb (is_empty (oname_ f)) then [":"%char] else [])
            else [] in
  let f2 := if negb (is_empty (oname_ f)) then f1 ++ oname_ f else f1 in
  if negb (is_empty (aname_ f)) && negb (is_empty (oname_ f))
  then f2 ++ "@"%char :: to_string_signed (offset_ f)
  else f2.

(** *** [image] *)

(** The members of an image that the operations below touch; [elf_] and
    [symbol_refs] take no part in them. *)
Record image : Type := mk_image {
  name_ : file;
  references_ : Z;   (* [int] *)
  fd_ : Z            (* [int], [-1] when closed *)
}.

(** [image::image (file& name)] and its siblings. *)
Definition image_of (name : file) : image := mk_image name 0 (-1).

(** The calls made to the operating system. *)
Inductive syscall : Type :=
| sys_open (path : list ascii) (writable : bool) (ret : Z)
| sys_close (fd : Z).

(** What a member function leaves behind: the object, the system calls it
    made, and how it ended. *)
Definition effect : Type := (image * list syscall * result unit)%type.

(** [image::open (bool writable)]; [ret] is what [::open] answers should
    it be called. *)
Definition image_open (ret : Z) (writable : bool) (img : image) : effect :=
  let path := path (name_ img) in
  if is_empty path then (img, [], Throw NoFileName)
  else
    let '(img1, calls, opened) :=
      if fd_ img <? 0 then
        (mk_image (name_ img) (references_ img) ret,
         [sys_open path writable ret], negb (ret <? 0))
      else (img, [], true) in
    if negb opened then (img1, calls, Throw OpenError)
    else if references_ img1 =? INT_MAX then (img1, calls, Undefined)
    else (mk_image (name_ img1) (references_ img1 + 1) (fd_ img1),
          calls, Ok tt).

(** [image::close ()]. *)
Definition image_close (img : image) : effect :=
  if references_ img >? 0 then
    let refs := references_ img - 1 in
    if refs =? 0
    then (mk_image (name_ img) refs (-1), [sys_close (fd_ img)], Ok tt)
    else (mk_image (name_ img) refs (fd_ img), [], Ok tt)
  else (img, [], Ok tt).

(** A sequence of calls on one image. *)
Inductive call : Type :=
| do_open (writable : bool) (ret : Z)
| do_close.

Definition step (c : call) (img : image) : effect :=
  match c with
  | do_open writable ret => image_open ret writable img
  | do_close => image_close img
  end.

Record transition : Type := mk_transition {
  before : image;
  what : call;
  after : image;
  made : list syscall;
  how : result unit
}.

(** The calls are made one after the other, a caller going on after an
    exception; nothing is known once the behaviour is not defined. *)
Fixpoint run (cs : list call) (img : image) : list transition :=
  match cs with
  | [] => []
  | c :: cs' =>
      let '(img', calls, r) := step c img in
      mk_transition img c img' calls r ::
      match r with
      | Undefined => []
      | _ => run cs' img'
      end
  end.

Definition rising (t : transition) : bool :=
  (references_ (before t) =? 0) && (references_ (after t) =? 1).

Definition falling (t : transition) : bool :=
  (references_ (before t) =? 1) && (references_ (after t) =? 0).

Definition opened_file (s : syscall) : bool :=
  match s with sys_open _ _ ret => 0 <=? ret | sys_close _ => false end.

Definition closed_file (s : syscall) : bool :=
  match s with sys_close _ => true | sys_open _ _ _ => false end.

(** *** [copy_file] *)

Definition COPY_FILE_BUFFER_SIZE : Z := 8 * 1024.

Inductive io_event : Type :=
| io_new (n : Z)               (* [new uint8_t[n]] *)
| io_delete                    (* [delete [] buffer] *)
| io_read (count ret : Z)      (* [::read (in.fd (), buffer, count)] *)
| io_write (count ret : Z).    (* [::write (out.fd (), buffer, count)] *)

(** The loop of [copy_file]. [rd i l] is the answer of the [i]-th [::read]
    asked for [l] bytes, [wr i n] that of the [i]-th [::write]. A read
    that answers more than it was asked for has overrun the buffer. *)
Fixpoint copy_loop (fuel : nat) (rd wr : nat -> Z -> Z) (i : nat) (size : Z)
  : option (list io_event * result unit) :=
  if size =? 0 then Some ([], Ok tt)
  else
    match fuel with
    | O => None
    | S fuel' =>
        let l := if size <? COPY_FILE_BUFFER_SIZE
                 then size else COPY_FILE_BUFFER_SIZE in
        let r := rd i l in
        if r <? 0 then Some ([io_read l r], Throw ReadError)
        else if r =? 0 then Some ([io_read l r], Throw InputTooShort)
        else if l <? r then Some ([io_read l r], Undefined)
        else
          let w := wr i r in
          if w <? 0 then Some ([io_read l r; io_write r w], Throw WriteError)
          else if negb (w =? r)
          then Some ([io_read l r; io_write r w], Throw OutputTruncated)
          else
            match copy_loop fuel' rd wr (S i) (size - r) with
            | Some (t, res) => Some (io_read l r :: io_write r w :: t, res)
            | None => None
            end
    end.

(** [copy_file (in, out, size)]; [new_ok] tells whether [new] finds the
    memory. [None] stands for a loop that has not ended within [size]
    rounds, which is shown below never to be the case. *)
Definition copy_file (new_ok : bool) (rd wr : nat -> Z -> Z) (size : Z)
  : option (list io_event * result unit) :=
  if new_ok then
    match copy_loop (Z.to_nat size) rd wr 0 size with
    | Some (t, Ok _) =>
        (* if (buffer) delete [] buffer; *)
        Some (io_new COPY_FILE_BUFFER_SIZE :: t ++ [io_delete], Ok tt)
    | Some (t, Throw e) =>
        (* catch (...) { delete [] buffer; throw; } *)
        Some (io_new COPY_FILE_BUFFER_SIZE :: t ++ [io_delete], Throw e)
    | Some (t, Undefined) => Some (io_new COPY_FILE_BUFFER_SIZE :: t, Undefined)
    | None => None
    end
  else
    (* [buffer] is still null in the handler *)
    Some ([], Throw BadAlloc).

Definition is_alloc (e : io_event) : bool :=
  match e with io_new _ | io_delete => true | _ => false end.

(** The bytes that the writes of a trace have moved. *)
Fixpoint written (t : list io_event) : Z :=
  match t with
  | [] => 0
  | io_write _ ret :: t' => Z.max ret 0 + written t'
  | _ :: t' => written t'
  end.

(** *** [archive] and [object] *)

Definition LF : ascii := byte_of 10.

Definition rld_archive_ident : list ascii := str "!<arch>" ++ [LF].
Definition rld_archive_ident_size : nat := 8.
Definition rld_archive_fhdr_base : Z := 8.
Definition rld_archive_fname : nat := 0.
Definition rld_archive_fname_size : nat := 16.
Definition rld_archive_mtime : nat := 16.
Definition rld_archive_mtime_size : nat := 12.
Definition rld_archive_uid : nat := 28.
Definition rld_archive_uid_size : nat := 6.
Definition rld_archive_gid : nat := 34.
Definition rld_archive_gid_size : nat := 6.
Definition rld_archive_mode : nat := 40.
Definition rld_archive_mode_size : nat := 8.
Definition rld_archive_size : nat := 48.
Definition rld_archive_size_size : nat := 10.
Definition rld_archive_magic : nat := 58.
Definition rld_archive_fhdr_size : nat := 60.
Definition rld_archive_max_file_size : nat := 1024.

(** An object of the cache: its image and, for a member of an archive,
    the archive it belongs to, named by its path. *)
Record object : Type := mk_object {
  obj_image : image;
  archive_ : option (list ascii)
}.

(** [object::object (archive&, file&)]. *)
Definition object_of_member (ar : list ascii) (name : file) : result object :=
  let img := image_of name in
  if negb (is_valid (name_ img)) then Throw NameInvalid
  else Ok (mk_object img (Some ar)).

(** [object::object (const std::string& path)], the file name already
    built by [file_of_path path true]. *)
Definition object_of_file (name : file) : result object :=
  let img := image_of name in
  if negb (is_valid (name_ img)) then Throw NameInvalid
  else Ok (mk_object img None).

(** [archive::archive (const std::string& path)], the file name already
    built by [file_of_path path false]. *)
Definition archive_of_file (name : file) : result image :=
  let img := image_of name in
  if negb (is_valid (name_ img)) then Throw NameInvalid
  else if negb (is_archive (name_ img)) then Throw NameInvalid
  else Ok img.

(** [scan_decimal (string, len)]; the value is a [uint64_t]. The loop ends
    at a space or after [len] characters, and the callers hand it a field
    of a header of sixty bytes, which holds the [len] characters: [string]
    stands for an array with a space among its first [len] characters or
    with [len] characters at least. On a shorter array the loop of the
    source reads past its end; the value given here for such a list
    stands for nothing in the source. *)
Fixpoint scan_decimal_from (value : Z) (string : list ascii) (len : nat) : Z :=
  match len, string with
  | S len', c :: t =>
      if Ascii.eqb c " " then value
      else scan_decimal_from (wrap64 (wrap64 (value * 10) + (code c - 48))) t len'
  | _, _ => value
  end.

Definition scan_decimal (string : list ascii) (len : nat) : Z :=
  scan_decimal_from 0 string len.

(** [memcpy (&buf[at], bytes, length bytes)]. *)
Definition poke (at_ : nat) (bytes buf : list ascii) : list ascii :=
  firstn at_ buf ++ bytes ++ skipn (at_ + length bytes) buf.

(** [set_number (value, header + at, len, octal)]. *)
Definition set_number (value : Z) (at_ len : nat) (octal : bool)
  (header : list ascii) : list ascii :=
  let digits := if octal then to_octal value else to_string value in
  poke at_ (firstn len digits) header.

(** The sixty bytes that [archive::write_header] writes. *)
Definition write_header (name : list ascii) (mtime uid gid mode size : Z)
  : list ascii :=
  let header := repeat " "%char rld_archive_fhdr_size in
  let header := poke rld_archive_fname (firstn rld_archive_fname_size name) header in
  let header := set_number (wrap32 mtime) rld_archive_mtime rld_archive_mtime_size false header in
  let header := set_number (wrap32 uid) rld_archive_uid rld_archive_uid_size false header in
  let header := set_number (wrap32 gid) rld_archive_gid rld_archive_gid_size false header in
  let header := set_number (wrap32 mode) rld_archive_mode rld_archive_mode_size true header in
  let header := set_number (wrap32 size) rld_archive_size rld_archive_size_size false header in
  poke rld_archive_magic [byte_of 96; byte_of 10] header.

Section Create.

Variable RLD_PATH_SEPARATOR : ascii.

(** An object handed to [archive::create]: its name and the bytes the
    operating system yields from the start of the object. *)
Definition source : Type := (file * list ascii)%type.

Definition extended_names (objects : list source) : list ascii :=
  flat_map (fun o : source =>
              let oname := basename RLD_PATH_SEPARATOR (oname_ (fst o)) in
              if (rld_archive_fname_size <? length oname)%nat
              then oname ++ [LF] else [])
           objects.

(** The name a member is stored under. *)
Definition stored_name (extended_file_names : list ascii) (o : source)
  : result (list ascii) :=
  let oname := basename RLD_PATH_SEPARATOR (oname_ (fst o)) in
  if (rld_archive_fname_size <? length oname)%nat then
    match find_first_of extended_file_names (oname ++ [LF]) with
    | None => Throw ExtendedNameNotFound
    | Some pos => Ok ("/"%char :: to_string (Z.of_nat pos))
    end
  else Ok oname.

(** One round of the second loop of [create]: the header and the bytes
    of the member. Every [open], [lseek] and [write] is taken to succeed
    and to move all the bytes asked for; an object shorter than its
    recorded size ends [copy_file] with [InputTooShort]. *)
Definition member (extended_file_names : list ascii) (o : source)
  : result (list ascii) :=
  oname <- stored_name extended_file_names o ;;
  let size := size_ (fst o) in
  if size_of (snd o) <? size then Throw InputTooShort
  else Ok (write_header oname 0 0 0 438 size
           ++ firstn (Z.to_nat size) (snd o)).

Fixpoint members (extended_file_names : list ascii) (objects : list source)
  : result (list ascii) :=
  match objects with
  | [] => Ok []
  | o :: rest =>
      m <- member extended_file_names o ;;
      ms <- members extended_file_names rest ;;
      Ok (m ++ ms)
  end.

(** The bytes of the file that [archive::create] leaves. *)
Definition create (objects : list source) : result (list ascii) :=
  let extended_file_names := extended_names objects in
  let table :=
    if is_empty extended_file_names then []
    else write_header (str "//") 0 0 0 0 (size_of extended_file_names)
         ++ extended_file_names in
  ms <- members extended_file_names objects ;;
  Ok (rld_archive_ident ++ table ++ ms).

End Create.

(** [archive::read_header (offset, header)] on an archive that holds
    [data]: [Ok None] for the short read that ends the archive. *)
Definition read_header (data : list ascii) (offset : Z)
  : result (option (list ascii)) :=
  if offset <? 0 then Throw SeekError
  else
    let header := firstn rld_archive_fhdr_size (skipn (Z.to_nat offset) data) in
    if (length header <? rld_archive_fhdr_size)%nat then Ok None
    else if negb (Ascii.eqb (nth rld_archive_magic header NUL) (byte_of 96))
            || negb (Ascii.eqb (nth (S rld_archive_magic) header NUL) (byte_of 10))
    then Throw InvalidHeader
    else Ok (Some header).

(** The scan of [archive::add_object] from [path] on: the bytes before the
    first null character or ['/'] of the array [path] points into. The scan
    knows no bound: without such a byte it leaves the array. *)
Fixpoint scan_name (buffer : list ascii) : option (list ascii) :=
  match buffer with
  | [] => None
  | c :: t =>
      if Ascii.eqb c NUL || Ascii.eqb c "/" then Some []
      else match scan_name t with
           | Some s => Some (c :: s)
           | None => None
           end
  end.

(** The map [objects] of the cache, keyed by [file::full ()]. The list
    holds the entries of the map, one for a key; the map of the source is
    walked in the order of its keys, and the order of the list stands for
    nothing in it. *)
Definition objects : Type := list (list ascii * object).

Fixpoint assign (key : list ascii) (o : object) (objs : objects) : objects :=
  match objs with
  | [] => [(key, o)]
  | (k, v) :: rest =>
      if list_eq_dec ascii_dec k key then (k, o) :: rest
      else (k, v) :: assign key o rest
  end.

(** [archive::add_object (objs, path, offset, size)] of the archive
    [ar]; [buffer] is the array [path] points into, from [path] on. *)
Definition add_object (ar : list ascii) (objs : objects) (buffer : list ascii)
  (offset size : Z) : result objects :=
  match scan_name buffer with
  | None => Undefined
  | Some s =>
      let n := mk_file ar s offset size in
      o <- object_of_member ar n ;;
      Ok (assign (full n) o objs)
  end.

(** The size of a member as [load_objects] computes it:
    [(scan_decimal (...) + 1) & ~1]. *)
Definition member_size (header : list ascii) : Z :=
  Z.land (wrap64 (scan_decimal (skipn rld_archive_size header)
                               rld_archive_size_size + 1))
         (wrap64 (Z.lnot 1)).

(** The inner loop of [load_objects] that looks for the table of extended
    file names from the header at [off] on. *)
Fixpoint find_extended (fuel : nat) (data header : list ascii) (off : Z)
  : option (result Z) :=
  match fuel with
  | O => None
  | S fuel' =>
      let off := to_signed64 (off + member_size header + 60) in
      match read_header data off with
      | Throw e => Some (Throw e)
      | Undefined => Some Undefined
      | Ok None => Some (Throw MissingExtendedNameTable)
      | Ok (Some header') =>
          if Ascii.eqb (nth 0 header' NUL) "/" && Ascii.eqb (nth 1 header' NUL) "/"
          then Some (Ok (off + 60))
          else find_extended fuel' data header' off
      end
  end.

Definition is_digit (c : ascii) : bool :=
  (48 <=? code c) && (code c <=? 57).

(** [archive::load_objects (objs)] on the archive [ar] that holds [data].
    [None] stands for a loop that has not ended within [fuel] rounds. *)
Fixpoint load_loop (fuel : nat) (ar data : list ascii)
  (extended_file_names offset : Z) (objs : objects) : option (result objects) :=
  match fuel with
  | O => None
  | S fuel' =>
      match read_header data offset with
      | Throw e => Some (Throw e)
      | Undefined => Some Undefined
      | Ok None => Some (Ok objs)
      | Ok (Some header) =>
          let size := member_size header in
          let next := to_signed64 (offset + size + 60) in
          if Ascii.eqb (nth 0 header NUL) "/" then
            let c := nth 1 header NUL in
            if Ascii.eqb c " " then
              load_loop fuel' ar data extended_file_names next objs
            else if Ascii.eqb c "/" then
              load_loop fuel' ar data (offset + 60) next objs
            else if is_digit c then
              let extended_off :=
                to_signed64 (scan_decimal (skipn 1 header) rld_archive_fname_size) in
              match (if extended_file_names =? 0
                     then find_extended fuel' data header offset
                     else Some (Ok extended_file_names)) with
              | None => None
              | Some (Throw e) => Some (Throw e)
              | Some Undefined => Some Undefined
              | Some (Ok table) =>
                  if table =? 0 then load_loop fuel' ar data table next objs
                  else if table + extended_off <? 0 then Some (Throw SeekError)
                  else
                    let cname :=
                      firstn rld_archive_max_file_size
                             (skipn (Z.to_nat (table + extended_off)) data) in
                    match add_object ar objs cname (offset + 60) size with
                    | Ok objs' => load_loop fuel' ar data table next objs'
                    | Throw e => Some (Throw e)
                    | Undefined => Some Undefined
                    end
              end
            else load_loop fuel' ar data extended_file_names next objs
          else
            match add_object ar objs (skipn rld_archive_fname header)
                             (offset + 60) size with
            | Ok objs' => load_loop fuel' ar data extended_file_names next objs'
            | Throw e => Some (Throw e)
            | Undefined => Some Undefined
            end
      end
  end.

Definition load_objects (ar data : list ascii) (objs : objects)
  : option (result objects) :=
  load_loop (S (length data)) ar data 0 rld_archive_fhdr_base objs.

End files.

(** ** [rld::rap] *)

Module rap.

(** *** What the sources take from [rld-files.h], [rld-symbols.h],
    [rld-elf.h] and [rld-compression.h] *)

Definition SHT_PROGBITS : Z := 1.
Definition SHT_SYMTAB : Z := 2.
Definition SHT_NOBITS : Z := 8.
Definition SHF_WRITE : Z := 1.
Definition SHF_ALLOC : Z := 2.
Definition SHF_EXECINSTR : Z := 4.
Definition SHF_MERGE : Z := 16.
Definition STT_OBJECT : Z := 1.
Definition STT_FUNC : Z := 2.
Definition STB_GLOBAL : Z := 1.
Definition STB_WEAK : Z := 2.

(** [files::section], a section of an ELF file. *)
Record elf_section : Type := mk_elf_section {
  sec_name : list ascii;
  sec_index : Z;
  sec_size : Z;
  sec_alignment : Z;
  sec_offset : Z;
  sec_flags : Z
}.

(** [symbols::symbol] through its accessors. *)
Record symbol : Type := mk_symbol {
  sym_name : list ascii;
  sym_type : Z;
  sym_binding : Z;
  sym_index : Z;
  sym_value : Z;
  sym_info : Z
}.

(** [files::object] as the RAP builder sees it: its name, [valid ()], the
    answers of the ELF reader to the two forms of [get_sections], and
    [external_symbols ()]. *)
Record app_object : Type := mk_app_object {
  app_name : files.file;
  app_valid : bool;
  sections_of_type : Z -> Z -> Z -> list elf_section;
  sections_named : list ascii -> list elf_section;
  external_symbols : list symbol
}.

(** Modelled from the spec: [files::sum_sizes] is not among the sources;
    "size = the sum of sec.size". *)
Definition sum_sizes (secs : list elf_section) : Z :=
  fold_right (fun sec acc => wrap64 (sec_size sec + acc)) 0 secs.

(** Modelled from the spec: [files::find] is not among the sources;
    "walks the group lists" for the section of the given index. *)
Definition find_section (secs : list elf_section) (index : Z)
  : option elf_section :=
  List.find (fun sec => sec_index sec =? index) secs.

(** The global ELF facts of [rld-elf.h]. *)
Record elf_ident : Type := mk_elf_ident {
  object_machine_type : Z;
  object_datatype : Z;
  object_class : Z
}.

(** The compressor of [rld-compression.h], which is not among the
    sources, taken as a parameter: what it appends to the stream before
    compression for an integer of 32 bits and for a range of an object
    file. The design document has it insert an integer with a fixed
    width, four bytes for a [u32], and a string as its raw bytes. *)
Class compressor : Type := mk_compressor {
  put_u32 : Z -> list ascii;
  put_u32_size : forall v, length (put_u32 v) = 4%nat;
  pull : app_object -> Z -> Z -> list ascii
}.

(** *** The sections of interest *)

Inductive sections : Type :=
| rap_text | rap_const | rap_ctor | rap_dtor | rap_data | rap_bss.

Definition rap_secs : list sections :=
  [rap_text; rap_const; rap_ctor; rap_dtor; rap_data; rap_bss].

Definition section_number (s : sections) : Z :=
  match s with
  | rap_text => 0 | rap_const => 1 | rap_ctor => 2
  | rap_dtor => 3 | rap_data => 4 | rap_bss => 5
  end.

Definition section_names (s : sections) : list ascii :=
  match s with
  | rap_text => str ".text" | rap_const => str ".const"
  | rap_ctor => str ".ctor" | rap_dtor => str ".dtor"
  | rap_data => str ".data" | rap_bss => str ".bss"
  end.

Record section : Type := mk_section {
  name : list ascii;
  size : Z;     (* [uint32_t] *)
  offset : Z;   (* [uint32_t] *)
  align : Z     (* [uint32_t] *)
}.

(** [section::section ()]. *)
Definition section_default : section := mk_section [] 0 0 0.

(** [section::operator+=]: [section_add g sec] is [g] after [g += sec]. *)
Definition section_add (g sec : section) : result section :=
  if size sec =? 0 then Ok g
  else
    align' <- (if align g =? 0 then Ok (align sec)
               else if negb (align g =? align sec) then Throw AlignmentMismatch
               else Ok (align g)) ;;
    if negb (size g =? 0) && (align' =? 0) then Throw InvalidAlignment
    else
      let size' := wrap32 (size g + size sec) in
      let offset' := wrap32 (offset sec + size sec) in
      one <- shl_one (wrap32 (align' - 1)) ;;
      m <- int_sub one 1 ;;
      let mask := wrap32 m in
      if negb (Z.land offset' mask =? 0) then
        inc <- shl_one align' ;;
        Ok (mk_section (name g) size'
              (wrap32 (Z.land offset' (wrap32 (Z.lnot mask)) + wrap32 inc))
              align')
      else Ok (mk_section (name g) size' offset' align').

(** The rounding of the design document, in its own words:
    [mask = (1 << (align-1)) - 1; if offset & mask then
     offset = (offset & ~mask) + (1 << align)]. *)
Definition round_up_documented (offset align : Z) : Z :=
  let mask := Z.shiftl 1 (align - 1) - 1 in
  if Z.land offset mask =? 0 then offset
  else Z.land offset (Z.lnot mask) + Z.shiftl 1 align.

(** [g += s1; g += s2] on a group fresh from its constructor. *)
Definition fold_two (s1 s2 : section) : result section :=
  g <- section_add section_default s1 ;;
  section_add g s2.

(** *** Externals and objects *)

Record external : Type := mk_external {
  ext_name : Z;        (* the string table's name index *)
  ext_sec : sections;
  ext_value : Z;
  ext_data : Z
}.

(** [external::rap_size]. *)
Definition rap_size : Z := 4 * 3.

(** The arrays [secs[rap_secs]], one record for each of the six groups. *)
Record secs_t : Type := mk_secs {
  s_text : section;
  s_const : section;
  s_ctor : section;
  s_dtor : section;
  s_data : section;
  s_bss : section
}.

(** [secs[s]]. *)
Definition get_sec (secs : secs_t) (s : sections) : section :=
  match s with
  | rap_text => s_text secs | rap_const => s_const secs
  | rap_ctor => s_ctor secs | rap_dtor => s_dtor secs
  | rap_data => s_data secs | rap_bss => s_bss secs
  end.

(** [secs[s] = v]. *)
Definition set_sec (secs : secs_t) (s : sections) (v : section) : secs_t :=
  match s with
  | rap_text => mk_secs v (s_const secs) (s_ctor secs) (s_dtor secs) (s_data secs) (s_bss secs)
  | rap_const => mk_secs (s_text secs) v (s_ctor secs) (s_dtor secs) (s_data secs) (s_bss secs)
  | rap_ctor => mk_secs (s_text secs) (s_const secs) v (s_dtor secs) (s_data secs) (s_bss secs)
  | rap_dtor => mk_secs (s_text secs) (s_const secs) (s_ctor secs) v (s_data secs) (s_bss secs)
  | rap_data => mk_secs (s_text secs) (s_const secs) (s_ctor secs) (s_dtor secs) v (s_bss secs)
  | rap_bss => mk_secs (s_text secs) (s_const secs) (s_ctor secs) (s_dtor secs) (s_data secs) v
  end.

(** The six records made by one rule. *)
Definition each_sec (f : sections -> section) : secs_t :=
  mk_secs (f rap_text) (f rap_const) (f rap_ctor) (f rap_dtor) (f rap_data)
          (f rap_bss).

Record object : Type := mk_rap_object {
  obj : app_object;
  text : list elf_section;
  const_ : list elf_section;
  ctor : list elf_section;
  dtor : list elf_section;
  data : list elf_section;
  bss : list elf_section;
  relocs : list elf_section;
  symtab : list elf_section;
  strtab_secs : list elf_section;
  obj_secs : secs_t;
  obj_symtab_size : Z;
  obj_strtab_size : Z;
  obj_relocs_size : Z
}.

Definition first_alignment (secs : list elf_section) : Z :=
  match secs with
  | [] => 0
  | sec :: _ => wrap32 (sec_alignment sec)
  end.

(** [object::object (files::object& obj)]. *)
Definition object_of (o : app_object) : object :=
  let text := sections_of_type o SHT_PROGBITS (Z.lor SHF_ALLOC SHF_EXECINSTR) 0 in
  let const_ := sections_of_type o SHT_PROGBITS (Z.lor SHF_ALLOC SHF_MERGE)
                                 (Z.lor SHF_WRITE SHF_EXECINSTR) in
  let ctor := sections_named o (str ".ctors") in
  let dtor := sections_named o (str ".dtors") in
  let data := sections_of_type o SHT_PROGBITS (Z.lor SHF_ALLOC SHF_WRITE) 0 in
  let bss := sections_of_type o SHT_NOBITS (Z.lor SHF_ALLOC SHF_WRITE) 0 in
  let symtab := sections_of_type o SHT_SYMTAB 0 0 in
  let strtab := sections_named o (str ".strtab") in
  let relocs :=
    flat_map (fun sec => sections_named o (str ".rel" ++ sec_name sec)
                         ++ sections_named o (str ".rela" ++ sec_name sec))
             text in
  let group (s : sections) :=
    match s with
    | rap_text => text | rap_const => const_ | rap_ctor => ctor
    | rap_dtor => dtor | rap_data => data | rap_bss => bss
    end in
  mk_rap_object o text const_ ctor dtor data bss relocs symtab strtab
    (each_sec (fun s => mk_section (section_names s)
                                   (wrap32 (sum_sizes (group s))) 0
                                   (first_alignment (group s))))
    (wrap32 (sum_sizes symtab)) (wrap32 (sum_sizes strtab))
    (wrap32 (sum_sizes relocs)).

Definition found (secs : list elf_section) (index : Z) : bool :=
  match find_section secs index with Some _ => true | None => false end.

(** [object::find (index)]. *)
Definition object_find (o : object) (index : Z) : result sections :=
  if found (text o) index then Ok rap_text
  else if found (const_ o) index then Ok rap_const
  else if found (ctor o) index then Ok rap_ctor
  else if found (dtor o) index then Ok rap_dtor
  else if found (data o) index then Ok rap_data
  else if found (bss o) index then Ok rap_bss
  else Throw SectionIndexNotFound.

(** *** The image *)

Record image : Type := mk_image {
  objs : list object;
  secs : secs_t;
  externs : list external;
  symtab_size : Z;       (* [uint32_t] *)
  strtab : list ascii;
  relocs_size : Z        (* [uint32_t] *)
}.

(** [image::image ()]. *)
Definition image_default : image :=
  mk_image [] (each_sec (fun s => mk_section (section_names s) 0 0 0))
           [] 0 [] 0.

(** The test on a symbol in [image::layout]. *)
Definition accepted (sym : symbol) : bool :=
  ((sym_type sym =? STT_OBJECT) || (sym_type sym =? STT_FUNC))
  && ((sym_binding sym =? STB_GLOBAL) || (sym_binding sym =? STB_WEAK)).

(** The loop of [image::layout] over the external symbols of one object. *)
Fixpoint collect (o : object) (esyms : list symbol) (img : image)
  : result image :=
  match esyms with
  | [] => Ok img
  | sym :: rest =>
      if accepted sym then
        sec <- object_find o (wrap32 (sym_index sym)) ;;
        collect o rest
          (mk_image (objs img) (secs img)
             (externs img
              ++ [mk_external (wrap32 (size_of (strtab img) + 2)) sec
                              (wrap32 (sym_value sym)) (wrap32 (sym_info sym))])
             (wrap32 (symtab_size img + rap_size))
             (strtab img ++ sym_name sym ++ [NUL])
             (relocs_size img))
      else collect o rest img
  end.

(** [secs[s] += obj.secs[s]] for the six groups in turn. *)
Fixpoint add_groups (todo : list sections) (o : object) (secs : secs_t)
  : result secs_t :=
  match todo with
  | [] => Ok secs
  | s :: rest =>
      g <- section_add (get_sec secs s) (get_sec (obj_secs o) s) ;;
      add_groups rest o (set_sec secs s g)
  end.

(** The second loop of [image::layout], over the objects of the image. *)
Fixpoint layout_objects (todo : list object) (img : image) : result image :=
  match todo with
  | [] => Ok img
  | o :: rest =>
      secs' <- add_groups rap_secs o (secs img) ;;
      img' <- collect o (external_symbols (obj o))
                (mk_image (objs img) secs' (externs img) 0 [] (relocs_size img)) ;;
      layout_objects rest
        (mk_image (objs img') (secs img') (externs img') (symtab_size img')
                  (strtab img')
                  (wrap32 (relocs_size img' + obj_relocs_size o)))
  end.

(** The first loop of [image::layout]. *)
Fixpoint push_objects (app_objects : list app_object) (objs : list object)
  : result (list object) :=
  match app_objects with
  | [] => Ok objs
  | app_obj :: rest =>
      if negb (app_valid app_obj) then Throw NotValid
      else push_objects rest (objs ++ [object_of app_obj])
  end.

(** [image::layout (app_objects)]. *)
Definition layout (app_objects : list app_object) (img : image) : result image :=
  objs' <- push_objects app_objects (objs img) ;;
  layout_objects objs'
    (mk_image objs'
       (each_sec (fun s => mk_section (name (get_sec (secs img) s)) 0 0 0))
       (externs img) (symtab_size img) (strtab img) (relocs_size img)).

Section Write.

Context {comp : compressor}.

(** [image::write (comp, obj, secs)]; the object is taken to open and
    its ELF session to begin and end without an error. *)
Definition write_sections (o : object) (secs : list elf_section) : list ascii :=
  flat_map (fun sec => pull (obj o) (sec_offset sec) (sec_size sec)) secs.

(** [section_writer::operator ()]. *)
Definition section_writer (sec : sections) (o : object) : list ascii :=
  match sec with
  | rap_text => write_sections o (text o)
  | rap_const => write_sections o (const_ o)
  | rap_ctor => write_sections o (ctor o)
  | rap_dtor => write_sections o (dtor o)
  | rap_data => write_sections o (data o)
  | rap_bss => []
  end.

Definition put_external (ext : external) : list ascii :=
  put_u32 (wrap32 (Z.lor (Z.shiftl (section_number (ext_sec ext)) 16)
                         (ext_data ext)))
  ++ put_u32 (ext_name ext)
  ++ put_u32 (ext_value ext).

(** [image::write (comp, init, fini)]: the image it leaves and the bytes
    it hands to the compressor, in order. *)
Definition write (elf : elf_ident) (init fini : list ascii) (img : image)
  : image * list ascii :=
  let out := put_u32 (object_machine_type elf)
             ++ put_u32 (object_datatype elf)
             ++ put_u32 (object_class elf) in
  let out := out ++ put_u32 (wrap32 (size_of (strtab img))) in
  let strtab1 := strtab img ++ init ++ [NUL] in
  let out := out ++ put_u32 (wrap32 (size_of strtab1)) in
  let strtab2 := strtab1 ++ fini ++ [NUL] in
  let out := out ++ put_u32 (symtab_size img)
             ++ put_u32 (wrap32 (size_of strtab2))
             ++ put_u32 0 in
  let out := out ++ flat_map (fun s => put_u32 (size (get_sec (secs img) s))
                                       ++ put_u32 (align (get_sec (secs img) s))
                                       ++ put_u32 (offset (get_sec (secs img) s)))
                             rap_secs in
  let out := out ++ flat_map (section_writer rap_text) (objs img)
             ++ flat_map (section_writer rap_const) (objs img)
             ++ flat_map (section_writer rap_ctor) (objs img)
             ++ flat_map (section_writer rap_dtor) (objs img)
             ++ flat_map (section_writer rap_data) (objs img) in
  let out := out ++ strtab2 in
  let out := out ++ flat_map put_external (externs img) in
  (mk_image (objs img) (secs img) (externs img) (symtab_size img) strtab2
            (relocs_size img),
   out).

(** [rap::write (app, init, fini, app_objects, symbols)] up to the flush
    of the compressor. *)
Definition write_application (elf : elf_ident) (init fini : list ascii)
  (app_objects : list app_object) : result (image * list ascii) :=
  rap <- layout app_objects image_default ;;
  Ok (write elf init fini rap).

End Write.

(** A compressor that inserts an integer with its high byte first and
    finds null bytes in every object. *)
Definition big_endian (v : Z) : list ascii :=
  [byte_of (Z.shiftr v 24 mod 256); byte_of (Z.shiftr v 16 mod 256);
   byte_of (Z.shiftr v 8 mod 256); byte_of (v mod 256)].

Definition no_bytes (o : app_object) (offset size : Z) : list ascii :=
  repeat NUL (Z.to_nat size).

Definition plain_compressor : compressor :=
  mk_compressor big_endian (fun _ => eq_refl) no_bytes.

(** The strings that a table of strings holds at an offset. *)
Definition string_in (table : list ascii) (off : Z) : list ascii :=
  c_str (skipn (Z.to_nat off) table).

(** What the design document expects of the tables after the layout:
    twelve bytes and one name, ended by a null character, for each
    accepted symbol of each object in order. *)
Definition accepted_symbols (app_objects : list app_object) : list symbol :=
  flat_map (fun o => filter accepted (external_symbols o)) app_objects.

Definition expected_symtab_size (app_objects : list app_object) : Z :=
  12 * Z.of_nat (length (accepted_symbols app_objects)).

Definition expected_strtab (app_objects : list app_object) : list ascii :=
  flat_map (fun sym => sym_name sym ++ [NUL]) (accepted_symbols app_objects).

(** *** The objects of the scenarios of the design document *)

Definition only_text (secs : list elf_section) (type flags_in flags_out : Z)
  : list elf_section :=
  if (type =? SHT_PROGBITS) && (flags_in =? Z.lor SHF_ALLOC SHF_EXECINSTR)
  then secs else [].

(** Scenario E1: a member [a.o] of [libx.a] with one [.text] of four
    bytes, alignment 2, and the global function [foo] at value 0. *)
Definition e1_foo : symbol :=
  mk_symbol (str "foo") STT_FUNC STB_GLOBAL 1 0 18.

Definition e1_object : app_object :=
  mk_app_object (files.mk_file (str "libx.a") (str "a.o") 68 4) true
    (only_text [mk_elf_section (str ".text") 1 4 2 52 6])
    (fun _ => [])
    [e1_foo].

(** A second object with [.text] of eight bytes and no external symbol
    but a local one, as in scenario E4. *)
Definition e4_local : symbol :=
  mk_symbol (str "bar") STT_FUNC 0 1 0 2.

Definition e4_object : app_object :=
  mk_app_object (files.mk_file (str "libx.a") (str "b.o") 200 8) true
    (only_text [mk_elf_section (str ".text") 1 8 2 52 6])
    (fun _ => [])
    [e4_local].

Definition sparc_elf : elf_ident := mk_elf_ident 2 2 1.

End rap.

(** ** The predicates of the properties *)

(** The invariant of an image: the count is not negative, and the file is
    open exactly when it is above zero. *)
Definition image_inv (img : files.image) : Prop :=
  0 <= files.references_ img
  /\ (0 <= files.fd_ img <-> 0 < files.references_ img).

(** What one call does at the edges of the count and away from them. *)
Definition transition_ok (t : files.transition) : Prop :=
  image_inv (files.after t)
  /\ (files.rising t = true ->
      exists writable ret,
        files.made t
        = [files.sys_open (files.path (files.name_ (files.before t))) writable ret]
        /\ 0 <= ret /\ files.fd_ (files.after t) = ret)
  /\ (files.falling t = true ->
      files.made t = [files.sys_close (files.fd_ (files.before t))]
      /\ files.fd_ (files.after t) = -1)
  /\ (files.rising t = false -> files.falling t = false ->
      filter files.opened_file (files.made t) = []
      /\ filter files.closed_file (files.made t) = [])
  /\ (files.what t = files.do_close ->
      files.references_ (files.before t) = 0 ->
      files.after t = files.before t /\ files.made t = []
      /\ files.how t = Ok tt)
  /\ (files.references_ (files.before t) < INT_MAX ->
      files.how t <> Undefined)
  /\ files.references_ (files.after t) <= files.references_ (files.before t) + 1.

(** What a run obeys as a whole. *)
Definition run_ok (ts : list files.transition) : Prop :=
  Forall transition_ok ts
  /\ length (filter files.rising ts)
     = length (filter files.opened_file (flat_map files.made ts))
  /\ length (filter files.falling ts)
     = length (filter files.closed_file (flat_map files.made ts)).

(** What a trace of the loop of [copy_file] and its outcome obey. *)
Definition copy_trace_ok (size : Z) (t : list files.io_event)
  (res : result unit) : Prop :=
  res <> Undefined
  /\ forallb (fun e => negb (files.is_alloc e)) t = true
  /\ (forall l, In (files.io_read l 0) t -> res = Throw InputTooShort)
  /\ (forall n w, In (files.io_write n w) t -> 0 <= w < n ->
      res = Throw OutputTruncated)
  /\ (forall l r, In (files.io_read l r) t ->
      0 < l <= files.COPY_FILE_BUFFER_SIZE)
  /\ (forall n w, In (files.io_write n w) t ->
      0 < n <= files.COPY_FILE_BUFFER_SIZE)
  /\ (res = Ok tt -> files.written t = size).

(** The names of some symbols, each ended by a null character. *)
Definition names_of (syms : list rap.symbol) : list ascii :=
  flat_map (fun sym => rap.sym_name sym ++ [NUL]) syms.

(** A field of an archive header as the format has it: the first [n]
    characters of [s], then spaces up to [n]. *)
Definition pad (n : nat) (s : list ascii) : list ascii :=
  firstn n s ++ repeat " "%char (n - length (firstn n s)).

(** ** Objects that share the image of their archive *)

Module shared.

(** [object::open ()]: an object that belongs to an archive opens the
    image of the archive, any other its own. [ar] is the image of the
    archive [archive_] points to. *)
Definition object_open (ret : Z) (o : files.object) (ar : files.image)
  : files.object * files.image * list files.syscall * result unit :=
  match files.archive_ o with
  | Some _ =>
      let '(ar', calls, r) := files.image_open ret false ar in
      (o, ar', calls, r)
  | None =>
      let '(img', calls, r) := files.image_open ret false (files.obj_image o) in
      (files.mk_object img' None, ar, calls, r)
  end.

(** [object::close ()]. *)
Definition object_close (o : files.object) (ar : files.image)
  : files.object * files.image * list files.syscall * result unit :=
  match files.archive_ o with
  | Some _ =>
      let '(ar', calls, r) := files.image_close ar in
      (o, ar', calls, r)
  | None =>
      let '(img', calls, r) := files.image_close (files.obj_image o) in
      (files.mk_object img' None, ar, calls, r)
  end.

(** The image a run leaves. *)
Definition last_image (ts : list files.transition) (img : files.image)
  : files.image :=
  last (map files.after ts) img.

End shared.

(** ** Searching for files and libraries *)

Module search.

Section Search.

(** [RLD_PATH_SEPARATOR], and [check_file], the answer of [stat] on
    whether a path is a regular file. *)
Variable RLD_PATH_SEPARATOR : ascii.
Variable check_file : list ascii -> bool.

(** [find_file (path, name, search_paths)]: the [path] it leaves. *)
Fixpoint find_file (name : list ascii) (search_paths : list (list ascii))
  : result (list ascii) :=
  match search_paths with
  | [] => Ok []
  | pi :: rest =>
      path <- snd (files.path_join RLD_PATH_SEPARATOR pi name) ;;
      if check_file path then Ok path else find_file name rest
  end.

(** How [find_libraries] ends: with the libraries it found, with the
    [rld::error ("Not found", lib)] for the library it did not find, or
    in a join that is not defined. *)
Inductive found : Type :=
| Libraries (libraries : list (list ascii))
| NotFound (lib : list ascii)
| UndefinedJoin.

(** The inner loop of [find_libraries] over the library paths. *)
Fixpoint find_library (lib : list ascii) (libpaths : list (list ascii))
  : result (option (list ascii)) :=
  match libpaths with
  | [] => Ok None
  | p :: rest =>
      plib <- snd (files.path_join RLD_PATH_SEPARATOR p lib) ;;
      if check_file plib then Ok (Some plib) else find_library lib rest
  end.

(** The name of the library file: ["lib" + libs[l] + ".a"]. *)
Definition library_file (l : list ascii) : list ascii :=
  str "lib" ++ l ++ str ".a".

(** The outer loop, [libraries] being what was found so far. *)
Fixpoint find_libraries_from (libraries : list (list ascii))
  (libpaths libs : list (list ascii)) : found :=
  match libs with
  | [] => Libraries libraries
  | l :: rest =>
      match find_library (library_file l) libpaths with
      | Ok (Some plib) => find_libraries_from (libraries ++ [plib]) libpaths rest
      | Ok None => NotFound (library_file l)
      | _ => UndefinedJoin
      end
  end.

(** [find_libraries (libraries, libpaths, libs)]. *)
Definition find_libraries (libpaths libs : list (list ascii)) : found :=
  find_libraries_from [] libpaths libs.

(** A library is at a place: the join of a library path and the file
    name of the library, and a regular file. *)
Definition library_at (libpaths : list (list ascii)) (l plib : list ascii)
  : Prop :=
  exists before p after,
    libpaths = before ++ p :: after
    /\ snd (files.path_join RLD_PATH_SEPARATOR p (library_file l)) = Ok plib
    /\ check_file plib = true
    /\ Forall (fun q => exists j,
                 snd (files.path_join RLD_PATH_SEPARATOR q (library_file l))
                 = Ok j /\ check_file j = false) before.

(** A library is nowhere: no join with a library path is a regular
    file. *)
Definition library_nowhere (libpaths : list (list ascii)) (l : list ascii)
  : Prop :=
  Forall (fun q => exists j,
            snd (files.path_join RLD_PATH_SEPARATOR q (library_file l)) = Ok j
            /\ check_file j = false) libpaths.

End Search.

End search.

(** ** More of the RAP image *)

Module rap_more.

(** The list of sections that stands behind a group of an object. *)
Definition group (o : rap.object) (s : rap.sections) : list rap.elf_section :=
  match s with
  | rap.rap_text => rap.text o | rap.rap_const => rap.const_ o
  | rap.rap_ctor => rap.ctor o | rap.rap_dtor => rap.dtor o
  | rap.rap_data => rap.data o | rap.rap_bss => rap.bss o
  end.

(** The groups looked at before [s] by [object::find]. *)
Definition earlier (s : rap.sections) : list rap.sections :=
  firstn (Z.to_nat (rap.section_number s)) rap.rap_secs.

(** The sum of some numbers. *)
Definition zsum (l : list Z) : Z := fold_right Z.add 0 l.

(** The first word of an external in the stream:
    [(uint32_t) ((ext.sec << 16) | ext.data)]. *)
Definition packed (ext : rap.external) : Z :=
  wrap32 (Z.lor (Z.shiftl (rap.section_number (rap.ext_sec ext)) 16)
                (rap.ext_data ext)).

(** The bytes of one group in the stream: object after object, and for
    each object section after section of the list [g] of the group, what
    the compressor finds in the file of the object at the offset of the
    section, for the size of the section. *)
Definition group_bytes {comp : rap.compressor}
  (g : rap.object -> list rap.elf_section) (objs : list rap.object)
  : list ascii :=
  flat_map (fun o =>
              flat_map (fun sec => rap.pull (rap.obj o) (rap.sec_offset sec)
                                            (rap.sec_size sec))
                       (g o))
           objs.

(** The sizes of the sections of one group, summed over the objects. *)
Definition group_length (g : rap.object -> list rap.elf_section)
  (objs : list rap.object) : nat :=
  list_sum (map (fun o => list_sum (map (fun sec => Z.to_nat (rap.sec_size sec))
                                        (g o)))
                objs).

End rap_more.

(** ** The members of a well-formed archive *)

Module members.

(** A member with a plain name as it lies in an archive: the name, the
    character that ends the name, the rest of the header, the bytes
    between this header and the next, and the number in the size field. *)
Record member : Type := mk_member {
  m_name : list ascii;
  m_stop : ascii;
  m_fields : list ascii;
  m_data : list ascii;
  m_size : Z
}.

Definition header (m : member) : list ascii :=
  m_name m ++ m_stop m :: m_fields m.

(** The member is well formed: a header of sixty bytes with the magic at
    its end; a name that is not empty and holds neither a null character
    nor a ['/'], ended by one of the two; a size field of ten characters
    that holds the size in decimal, padded with spaces; and after the
    header the bytes of the member, padded to an even number. *)
Definition plain (m : member) : Prop :=
  length (header m) = 60%nat
  /\ nth 58 (header m) NUL = byte_of 96
  /\ nth 59 (header m) NUL = byte_of 10
  /\ m_name m <> []
  /\ ~ In NUL (m_name m)
  /\ ~ In "/"%char (m_name m)
  /\ (m_stop m = NUL \/ m_stop m = "/"%char)
  /\ 0 <= m_size m < 2 ^ 32
  /\ firstn 10 (skipn 48 (header m)) = pad 10 (to_string (m_size m))
  /\ Z.of_nat (length (m_data m)) = m_size m + m_size m mod 2.

(** The bytes of the members, one after the other. *)
Definition bytes_of (ms : list member) : list ascii :=
  flat_map (fun m => header m ++ m_data m) ms.

(** The entries that the members stand for, [offset] being where the
    first header lies: the key [archive:name@offset], and an object of
    the archive with that name, the offset of the bytes after the header
    and the size of the member rounded up to an even number. *)
Fixpoint expected (ar : list ascii) (ms : list member) (offset : Z)
  : files.objects :=
  match ms with
  | [] => []
  | m :: rest =>
      let size := m_size m + m_size m mod 2 in
      (ar ++ ":"%char :: m_name m ++ "@"%char :: to_string (offset + 60),
       files.mk_object
         (files.image_of (files.mk_file ar (m_name m) (offset + 60) size))
         (Some ar))
      :: expected ar rest (offset + 60 + size)
  end.

(** The object that a map holds for a key. *)
Fixpoint lookup (key : list ascii) (objs : files.objects)
  : option files.object :=
  match objs with
  | [] => None
  | (k, v) :: rest =>
      if list_eq_dec ascii_dec k key then Some v else lookup key rest
  end.

(** The entries assigned to a map one after the other. *)
Fixpoint enter (entries objs : files.objects) : files.objects :=
  match entries with
  | [] => objs
  | (k, o) :: rest => enter rest (files.assign k o objs)
  end.

(** A map after some entries went into it: it holds the entry for a key
    that is among them, and for any other key what it held before. *)
Definition updated (entries before after : files.objects) : Prop :=
  forall key,
    lookup key after
    = match lookup key entries with
      | Some o => Some o
      | None => lookup key before
      end.

(** What [archive::create] writes in all, header for header. *)
Definition created_length (table : list ascii) (objects : list files.source)
  : nat :=
  (8 + (if is_empty table then 0 else 60 + length table)
   + fold_right (fun o acc => 60 + Z.to_nat (files.size_ (fst o)) + acc)
                0 objects)%nat.

End members.

(** An object handed to [archive::create] holds the bytes of its
    recorded size. *)
Definition fits (o : files.source) : Prop :=
  files.size_ (fst o) <= size_of (snd o).

(** The sizes of the six groups are those of [uint32_t]. *)
Definition sizes_in_range (secs : rap.secs_t) : Prop :=
  forall s, 0 <= rap.size (rap.get_sec secs s) < 2 ^ 32.

(** * Properties *)

Example path_join_plain :
  files.path_join "/" (str "lib") (str "libc.a")
  = ([files.mk_access 2 3; files.mk_access 0 6], Ok (str "lib/libc.a")).
Proof. reflexivity. Qed.

Example path_join_both :
  snd (files.path_join "/" (str "lib/") (str "/libc.a")) = Ok (str "lib/libc.a").
Proof. reflexivity. Qed.

Example path_join_empty_file :
  files.path_join "/" (str "lib") []
  = ([files.mk_access 2 3; files.mk_access 0 0], Ok (str "lib/")).
Proof. reflexivity. Qed.

Example path_join_empty_dir :
  files.path_join "/" [] (str "a")
  = ([files.mk_access (2 ^ 64 - 1) 0], Undefined).
Proof. reflexivity. Qed.

(** ** Path joining *)

Lemma c_str_no_nul (s : list ascii) : ~ In NUL s -> c_str s = s.
Proof.
  induction s as [|c t IH]; simpl; intros H; [reflexivity|].
  destruct (Ascii.eqb_spec c NUL) as [->|_].
  - exfalso; apply H; now left.
  - f_equal; apply IH; intros Hin; apply H; now right.
Qed.

Lemma string_at_inside (s : list ascii) (pos : Z) :
  0 <= pos < size_of s -> string_at s pos = Ok (nth (Z.to_nat pos) s NUL).
Proof.
  intros H; unfold string_at.
  destruct (Z.ltb_spec pos (size_of s)); [reflexivity | lia].
Qed.

Lemma string_at_end (s : list ascii) : string_at s (size_of s) = Ok NUL.
Proof.
  unfold string_at; rewrite Z.ltb_irrefl, Z.eqb_refl; reflexivity.
Qed.

Lemma size_of_snoc (q : list ascii) (a : ascii) :
  size_of (q ++ [a]) = size_of q + 1.
Proof. unfold size_of; rewrite length_app; simpl; lia. Qed.

Lemma size_of_nonneg (s : list ascii) : 0 <= size_of s.
Proof. unfold size_of; lia. Qed.

Lemma string_at_last (q : list ascii) (a : ascii) :
  size_of (q ++ [a]) < 2 ^ 64 ->
  wrap64 (size_of (q ++ [a]) - 1) = size_of q /\
  string_at (q ++ [a]) (size_of q) = Ok a.
Proof.
  intros H; pose proof (size_of_nonneg q) as Hq; rewrite size_of_snoc in H.
  split.
  - unfold wrap64; rewrite size_of_snoc, Z.mod_small; lia.
  - rewrite string_at_inside by (rewrite size_of_snoc; lia).
    unfold size_of; rewrite Nat2Z.id, nth_middle; reflexivity.
Qed.

Lemma string_at_first (c : ascii) (t : list ascii) : string_at (c :: t) 0 = Ok c.
Proof.
  rewrite string_at_inside; [reflexivity|].
  unfold size_of; simpl length; lia.
Qed.

Lemma string_at_second (c : ascii) (t : list ascii) :
  exists x, string_at (c :: t) 1 = Ok x.
Proof.
  destruct t as [|d t].
  - exists NUL; apply (string_at_end [c]).
  - exists d; rewrite string_at_inside; [reflexivity|].
    unfold size_of; simpl length; lia.
Qed.

Lemma strip_trailing_snoc (sep a : ascii) (q : list ascii) :
  files.strip_trailing sep (q ++ [a])
  = if Ascii.eqb a sep then q else q ++ [a].
Proof.
  unfold files.strip_trailing; rewrite last_last, removelast_last; reflexivity.
Qed.

Ltac access_facts :=
  repeat match goal with
         | |- Forall _ (_ :: _) => constructor
         | |- Forall _ [] => constructor
         | |- files.access_defined _ =>
             unfold files.access_defined;
             cbn [files.acc_pos files.acc_size];
             change (size_of []) with 0; lia
         | |- files.access_inside _ =>
             unfold files.access_inside;
             cbn [files.acc_pos files.acc_size];
             change (size_of []) with 0; lia
         end.

(** What is left of a directory and of a file once the separator at the
    junction is taken off has no separator there, unless there were two. *)
Lemma strip_trailing_clean (sep : ascii) (p : list ascii) :
  p <> [] -> (forall q, p <> q ++ [sep; sep]) ->
  (p = files.strip_trailing sep p \/ p = files.strip_trailing sep p ++ [sep])
  /\ ~ files.ends_with_separator sep (files.strip_trailing sep p).
Proof.
  intros Hp Hdouble.
  destruct (exists_last Hp) as [q [a ->]].
  rewrite strip_trailing_snoc.
  destruct (Ascii.eqb_spec a sep) as [->|Ha].
  - split; [now right|].
    intros [q' ->]; apply (Hdouble q').
    rewrite <- app_assoc; reflexivity.
  - split; [now left|].
    intros [q' Hq']; apply app_inj_tail in Hq'.
    destruct Hq' as [_ Hq']; contradiction.
Qed.

Lemma strip_leading_clean (sep : ascii) (f : list ascii) :
  (forall t, f <> sep :: sep :: t) ->
  (f = files.strip_leading sep f \/ f = sep :: files.strip_leading sep f)
  /\ ~ files.starts_with_separator sep (files.strip_leading sep f).
Proof.
  intros Hdouble; destruct f as [|c t]; cbn [files.strip_leading].
  - split; [now left|]. intros [t' Ht']; discriminate.
  - destruct (Ascii.eqb_spec c sep) as [->|Hc].
    + split; [now right|].
      intros [t' ->]; apply (Hdouble t'); reflexivity.
    + split; [now left|].
      intros [t' Ht']; injection Ht' as Hc' _; contradiction.
Qed.

(** C10 (amended). [path_join] reads the last character of the directory
    on every call, so a non-empty directory is its precondition: on an
    empty one the position [size () - 1] wraps to the largest [size_t] and
    the read is out of bounds. An empty file argument is read at position
    [0 = size ()], where a constant string yields the null character: with
    a non-empty directory the call is defined. On a non-empty directory
    every position read is one the string defines, the last character of
    the directory and the first of the file are read, both inside their
    strings when the file is not empty, and the result, for a file free of
    null characters, is the directory less one separator at its end, one
    separator, and the file less one separator at its start. That is
    exactly one separator at the junction when the directory does not end
    with two separators and the file does not begin with two. *)
Theorem path_join_contract (sep : ascii) (path_ file_ : list ascii) :
  size_of path_ < 2 ^ 64 ->
  (path_ = [] ->
   files.path_join sep path_ file_
   = ([files.mk_access (2 ^ 64 - 1) 0], Undefined)
   /\ ~ files.access_defined (files.mk_access (2 ^ 64 - 1) 0))
  /\ (path_ <> [] -> file_ <> [] \/ sep <> NUL ->
      exists log r,
        files.path_join sep path_ file_ = (log, Ok r)
        /\ Forall files.access_defined log
        /\ In (files.mk_access (size_of path_ - 1) (size_of path_)) log
        /\ In (files.mk_access 0 (size_of file_)) log
        /\ (file_ <> [] ->
            files.access_inside
              (files.mk_access (size_of path_ - 1) (size_of path_))
            /\ files.access_inside (files.mk_access 0 (size_of file_)))
        /\ (~ In NUL file_ ->
            r = files.joined_once sep path_ file_
            /\ ((forall q, path_ <> q ++ [sep; sep]) ->
                (forall t, file_ <> sep :: sep :: t) ->
                files.one_separator sep path_ file_ r))).
Proof.
  intros Hsz; split.
  - intros ->; split; [reflexivity|].
    unfold files.access_defined; simpl; lia.
  - intros Hp Hf.
    assert (Hjunction :
              forall r, r = files.joined_once sep path_ file_ ->
                        r = files.joined_once sep path_ file_
                        /\ ((forall q, path_ <> q ++ [sep; sep]) ->
                            (forall t, file_ <> sep :: sep :: t) ->
                            files.one_separator sep path_ file_ r)).
    { intros r ->; split; [reflexivity|]; intros Hd1 Hd2.
      destruct (strip_trailing_clean sep path_ Hp Hd1) as [Hp1 Hp2].
      destruct (strip_leading_clean sep file_ Hd2) as [Hf1 Hf2].
      exists (files.strip_trailing sep path_), (files.strip_leading sep file_).
      split; [reflexivity|]. split; [exact Hp1|]. split; [exact Hf1|].
      split; [exact Hp2 | exact Hf2]. }
    destruct (exists_last Hp) as [q [a ->]].
    destruct (string_at_last q a Hsz) as [Hw Hl].
    pose proof (size_of_nonneg q) as Hq.
    pose proof (size_of_snoc q a) as Hs.
    unfold files.path_join, files.index.
    rewrite Hw, Hl.
    replace (size_of (q ++ [a]) - 1) with (size_of q) by lia.
    destruct file_ as [|c t].
    + destruct Hf as [Hf|Hf]; [contradiction|].
      assert (Hn : Ascii.eqb NUL sep = false)
        by (apply Ascii.eqb_neq; congruence).
      change (string_at [] 0) with (@Ok ascii NUL).
      cbn -[Ascii.eqb size_of]; rewrite ?Hn;
        destruct (Ascii.eqb a sep) eqn:Ea; cbn -[Ascii.eqb size_of];
        (eexists; eexists; split; [reflexivity|]);
        (split; [access_facts|]);
        (split; [cbn [In]; auto 6|]); (split; [cbn [In]; auto 6|]);
        (split; [congruence|]); intros _; apply Hjunction;
        unfold files.joined_once; rewrite strip_trailing_snoc, Ea.
      * apply Ascii.eqb_eq in Ea; subst a.
        cbn [files.strip_leading]; rewrite app_nil_r; reflexivity.
      * cbn [files.strip_leading]; rewrite <- !app_assoc; reflexivity.
    + assert (Hc : 1 <= size_of (c :: t))
        by (unfold size_of; simpl length; lia).
      rewrite string_at_first.
      destruct (string_at_second c t) as [x Hx].
      cbn -[Ascii.eqb size_of string_at c_str skipn];
        destruct (Ascii.eqb a sep) eqn:Ea;
        destruct (Ascii.eqb c sep) eqn:Ec;
        cbn -[Ascii.eqb size_of string_at c_str skipn];
        rewrite ?Hx; cbn -[Ascii.eqb size_of string_at c_str skipn];
        (eexists; eexists; split; [reflexivity|]);
        (split; [access_facts|]);
        (split; [cbn [In]; auto 6|]); (split; [cbn [In]; auto 6|]);
        (split; [intros _; split; access_facts|]); intros Hnul;
        apply Hjunction;
        unfold files.joined_once; cbn [files.strip_leading];
        rewrite strip_trailing_snoc, Ea, Ec.
      all: try (apply Ascii.eqb_eq in Ea; subst a).
      all: try (apply Ascii.eqb_eq in Ec; subst c).
      all: cbn [skipn];
        rewrite ?c_str_no_nul by (intros Hin; apply Hnul; now right).
      all: cbn [files.strip_leading]; rewrite ?Ec, <- ?app_assoc; reflexivity.
Qed.

(** The calls of [find_file] and [find_libraries]: a search directory and
    a library file name. *)
Lemma path_join_contract_witness :
  exists log,
    files.path_join "/" (str "lib/") (str "/libc.a") = (log, Ok (str "lib/libc.a"))
    /\ Forall files.access_defined log
    /\ files.one_separator "/" (str "lib/") (str "/libc.a") (str "lib/libc.a").
Proof.
  destruct (path_join_contract "/" (str "lib/") (str "/libc.a")) as [_ H];
    [vm_compute; reflexivity|].
  destruct H as (log & r & Hrun & Hlog & _ & _ & _ & Hr);
    [discriminate | left; discriminate |].
  destruct Hr as [Hr Hone].
  { simpl; intros H; repeat destruct H as [H|H]; try discriminate; exact H. }
  exists log; split; [rewrite Hrun, Hr; reflexivity|].
  split; [exact Hlog|].
  rewrite Hr in Hone; apply Hone.
  - intros q Hq; apply (f_equal (@rev ascii)) in Hq.
    rewrite rev_app_distr in Hq; discriminate.
  - intros t Ht; discriminate.
Defined.

(** C10 as stated fails in three places. An empty file argument under a
    non-empty directory is no out-of-bounds read: position [0] is
    [size ()], the call is defined and returns the directory with one
    separator. The branch that strips a separator appends the C string
    at [&file_[1]], which stops at a null character of the file. And of
    two separators at the end of the directory none is taken off when
    the file begins with none: two stand at the junction. *)
Lemma path_join_counterexample :
  files.path_join "/" (str "lib") []
  = ([files.mk_access 2 3; files.mk_access 0 0], Ok (str "lib/"))
  /\ Forall files.access_defined [files.mk_access 2 3; files.mk_access 0 0]
  /\ snd (files.path_join "/" (str "lib/") ("/" :: "a" :: NUL :: "b" :: nil)%char)
     = Ok (str "lib/a")
  /\ files.joined_once "/" (str "lib/") ("/" :: "a" :: NUL :: "b" :: nil)%char
     <> str "lib/a"
  /\ snd (files.path_join "/" (str "lib//") (str "x")) = Ok (str "lib//x")
  /\ ~ files.one_separator "/" (str "lib//") (str "x") (str "lib//x").
Proof.
  split; [reflexivity|].
  split; [access_facts|].
  split; [reflexivity|].
  split; [vm_compute; discriminate|].
  split; [reflexivity|].
  intros (p & f & _ & [Hp|Hp] & _ & Hend & _); apply Hend.
  - exists (str "lib/"); rewrite <- Hp; reflexivity.
  - exists (str "lib").
    change (str "lib//") with (str "lib/" ++ ["/"%char]) in Hp.
    apply app_inj_tail in Hp; destruct Hp as [<- _]; reflexivity.
Qed.

(** ** File names *)

Lemma is_valid_always (f : files.file) : files.is_valid f = true.
Proof.
  unfold files.is_valid.
  destruct (is_empty (files.aname_ f)), (is_empty (files.oname_ f)); reflexivity.
Qed.

Lemma archive_of_nameless_file :
  files.archive_of_file files.file_default = Throw NameInvalid.
Proof. reflexivity. Qed.

(** C7 (the code departs from it). A [file] with both names empty is
    valid for [file::is_valid], which is true of every [file], although
    it has no name; an object is then built from it, as a member of an
    archive and on its own, and no [NameInvalid] is thrown. *)
Theorem is_valid_nameless_file :
  files.is_valid files.file_default = true
  /\ files.has_a_name files.file_default = false
  /\ files.object_of_member (str "libx.a") files.file_default
     = Ok (files.mk_object (files.image_of files.file_default)
                           (Some (str "libx.a")))
  /\ files.object_of_file files.file_default
     = Ok (files.mk_object (files.image_of files.file_default) None).
Proof. repeat split. Qed.

(** ** The reference count of an image *)

Ltac split_cond :=
  match goal with
  | |- context [Z.ltb ?a ?b] => destruct (Z.ltb_spec a b)
  | |- context [Z.gtb ?a ?b] =>
      rewrite (Z.gtb_ltb a b); destruct (Z.ltb_spec b a)
  | |- context [Z.eqb ?a ?b] => destruct (Z.eqb_spec a b)
  | |- context [Z.leb ?a ?b] => destruct (Z.leb_spec a b)
  end.

Lemma step_ok (c : files.call) (img : files.image) :
  image_inv img ->
  let '(img', calls, r) := files.step c img in
  transition_ok (files.mk_transition img c img' calls r).
Proof.
  intros [Hr Hfd].
  destruct img as [name refs fd]; cbn [files.references_ files.fd_] in *.
  destruct c as [writable ret|]; cbn [files.step].
  - unfold files.image_open; cbn [files.name_ files.references_ files.fd_].
    destruct (is_empty (files.path name)).
    + unfold transition_ok, image_inv, files.rising, files.falling;
        cbn [files.after files.before files.made files.what files.how
             files.references_ files.fd_ files.name_].
      repeat split; try lia; try tauto; try discriminate;
        intros H; apply andb_true_iff in H; destruct H as [H1 H2];
        apply Z.eqb_eq in H1, H2; lia.
    + destruct (Z.ltb_spec fd 0) as [Hneg|Hpos].
      * assert (refs = 0) by lia; subst refs.
        destruct (Z.ltb_spec ret 0) as [Hfail|Hsucc]; cbn [negb].
        -- unfold transition_ok, image_inv, files.rising, files.falling;
             cbn [files.after files.before files.made files.what files.how
                  files.references_ files.fd_ files.name_ filter
                  files.opened_file files.closed_file].
           destruct (Z.leb_spec 0 ret); [lia|].
           repeat split; try lia; try discriminate.
        -- cbn [files.references_ files.fd_ files.name_].
           change (0 =? INT_MAX) with false; cbv iota.
           unfold transition_ok, image_inv, files.rising, files.falling;
             cbn [files.after files.before files.made files.what files.how
                  files.references_ files.fd_ files.name_ filter
                  files.opened_file files.closed_file].
           repeat split; try lia; try discriminate.
           exists writable, ret; repeat split; lia.
      * cbn [negb files.references_ files.fd_ files.name_].
        destruct (Z.eqb_spec refs INT_MAX) as [Hmax|Hmax].
        -- unfold transition_ok, image_inv, files.rising, files.falling;
             cbn [files.after files.before files.made files.what files.how
                  files.references_ files.fd_ files.name_ filter].
           subst refs.
           repeat split; try lia; try discriminate.
        -- unfold transition_ok, image_inv, files.rising, files.falling;
             cbn [files.after files.before files.made files.what files.how
                  files.references_ files.fd_ files.name_ filter].
           repeat split; try lia; try discriminate;
             intros H; apply andb_true_iff in H; destruct H as [H1 H2];
             apply Z.eqb_eq in H1, H2; lia.
  - unfold files.image_close; cbn [files.name_ files.references_ files.fd_].
    rewrite Z.gtb_ltb.
    destruct (Z.ltb_spec 0 refs) as [Hopen|Hclosed].
    + destruct (Z.eqb_spec (refs - 1) 0) as [Hone|Hmore].
      * unfold transition_ok, image_inv, files.rising, files.falling;
          cbn [files.after files.before files.made files.what files.how
               files.references_ files.fd_ files.name_ filter
               files.opened_file files.closed_file].
        repeat split; try lia; try discriminate;
          intros H; apply andb_true_iff in H; destruct H as [H1 H2];
          apply Z.eqb_eq in H1, H2; lia.
      * unfold transition_ok, image_inv, files.rising, files.falling;
          cbn [files.after files.before files.made files.what files.how
               files.references_ files.fd_ files.name_ filter].
        repeat split; try lia; try discriminate;
          intros H; apply andb_true_iff in H; destruct H as [H1 H2];
          apply Z.eqb_eq in H1, H2; lia.
    + unfold transition_ok, image_inv, files.rising, files.falling;
        cbn [files.after files.before files.made files.what files.how
             files.references_ files.fd_ files.name_ filter].
      repeat split; try lia; try tauto; try discriminate;
        intros H; apply andb_true_iff in H; destruct H as [H1 H2];
        apply Z.eqb_eq in H1, H2; lia.
Qed.

Lemma edge_counts (t : files.transition) :
  transition_ok t ->
  length (filter files.opened_file (files.made t))
  = (if files.rising t then 1 else 0)%nat
  /\ length (filter files.closed_file (files.made t))
     = (if files.falling t then 1 else 0)%nat.
Proof.
  intros (_ & Hup & Hdown & Hflat & _).
  destruct (files.rising t) eqn:Er.
  - destruct (Hup eq_refl) as (w & ret & -> & Hret & _).
    assert (files.falling t = false) as ->.
    { unfold files.rising, files.falling in *; lia. }
    cbn [filter files.opened_file files.closed_file].
    destruct (Z.leb_spec 0 ret); [split; reflexivity | lia].
  - destruct (files.falling t) eqn:Ef.
    + destruct (Hdown eq_refl) as [-> _]; split; reflexivity.
    + destruct (Hflat eq_refl eq_refl) as [-> ->]; split; reflexivity.
Qed.

Lemma run_cons (c : files.call) (cs : list files.call) (img : files.image) :
  files.run (c :: cs) img
  = let '(img', calls, r) := files.step c img in
    files.mk_transition img c img' calls r
    :: match r with Undefined => [] | _ => files.run cs img' end.
Proof. reflexivity. Qed.

(** Every run keeps the invariant and counts its edges. *)
Lemma run_from (cs : list files.call) :
  forall img : files.image, image_inv img -> run_ok (files.run cs img).
Proof.
  induction cs as [|c cs IH]; intros img Hinv.
  - repeat split; constructor.
  - rewrite run_cons.
    pose proof (step_ok c img Hinv) as Hstep.
    destruct (files.step c img) as [[img' calls] r].
    pose proof (edge_counts _ Hstep) as [Hopen Hclose].
    pose proof Hstep as (Hinv' & _).
    cbn [files.after files.made] in Hinv', Hopen, Hclose.
    assert (Htail : run_ok (match r with
                            | Undefined => []
                            | _ => files.run cs img'
                            end)).
    { destruct r; [apply IH; assumption | apply IH; assumption |].
      repeat split; constructor. }
    destruct Htail as (Hall & Hups & Hdowns).
    unfold run_ok.
    cbn [flat_map filter length files.made].
    rewrite !filter_app, !length_app, <- Hups, <- Hdowns, Hopen, Hclose.
    split; [constructor; assumption|].
    split.
    + destruct (files.rising _); reflexivity.
    + destruct (files.falling _); reflexivity.
Qed.

(** A run is cut short only by the overflow of the count. *)
Lemma run_complete (cs : list files.call) :
  forall img : files.image,
    image_inv img ->
    files.references_ img + Z.of_nat (length cs) <= INT_MAX ->
    length (files.run cs img) = length cs
    /\ Forall (fun t => files.how t <> Undefined) (files.run cs img).
Proof.
  induction cs as [|c cs IH]; intros img Hinv Hlen.
  - split; [reflexivity | constructor].
  - rewrite run_cons.
    pose proof (step_ok c img Hinv) as Hstep.
    destruct (files.step c img) as [[img' calls] r].
    destruct Hstep as (Hinv' & _ & _ & _ & _ & Hdef & Hgrow).
    cbn [files.after files.before files.how length] in Hinv', Hdef, Hgrow, Hlen.
    assert (Hr : r <> Undefined) by (apply Hdef; lia).
    destruct (IH img' Hinv') as [Hn Hall]; [lia|].
    replace (match r with Undefined => [] | _ => files.run cs img' end)
      with (files.run cs img') by (destruct r; congruence).
    split; [cbn [length]; congruence | constructor; assumption].
Qed.

Lemma run_keeps_name (name : files.file) (cs : list files.call) :
  forall img : files.image,
    files.name_ img = name ->
    Forall (fun t => files.name_ (files.before t) = name) (files.run cs img).
Proof.
  induction cs as [|c cs IH]; intros img Himg; [constructor|].
  rewrite run_cons.
  destruct (files.step c img) as [[img' calls] r] eqn:Es.
  constructor; [exact Himg|].
  assert (files.name_ img' = name).
  { destruct c; cbn [files.step] in Es;
      unfold files.image_open, files.image_close in Es;
      repeat match type of Es with
             | context [if ?b then _ else _] => destruct b
             end; inversion Es; subst img'; exact Himg. }
  destruct r; [apply IH; assumption | apply IH; assumption | constructor].
Qed.

(** C5. On an image fresh from its constructor, after every call of
    every sequence of [open] and [close], [fd_ >= 0] exactly when the
    count of references is above zero. The call that takes the count
    from 0 to 1 makes one [::open] and nothing else, the call that takes
    it from 1 to 0 one [::close] of the descriptor and nothing else, and
    over the sequence there are as many opened files as steps from 0 to 1
    and as many [::close] as steps from 1 to 0. A [close] at count 0
    changes nothing and calls nothing. A sequence of fewer than [2^31]
    calls, which cannot overflow the count, runs to its end. *)
Theorem image_open_close_refcount (name : files.file) (cs : list files.call) :
  let ts := files.run cs (files.image_of name) in
  Forall (fun t => 0 <= files.fd_ (files.after t)
                   <-> 0 < files.references_ (files.after t)) ts
  /\ Forall (fun t =>
               files.rising t = true ->
               exists writable ret,
                 files.made t
                 = [files.sys_open (files.path name) writable ret]
                 /\ 0 <= ret /\ files.fd_ (files.after t) = ret) ts
  /\ Forall (fun t =>
               files.falling t = true ->
               files.made t = [files.sys_close (files.fd_ (files.before t))]
               /\ files.fd_ (files.after t) = -1) ts
  /\ length (filter files.rising ts)
     = length (filter files.opened_file (flat_map files.made ts))
  /\ length (filter files.falling ts)
     = length (filter files.closed_file (flat_map files.made ts))
  /\ Forall (fun t =>
               files.what t = files.do_close ->
               files.references_ (files.before t) = 0 ->
               files.after t = files.before t /\ files.made t = []) ts
  /\ (Z.of_nat (length cs) <= INT_MAX ->
      length ts = length cs
      /\ Forall (fun t => files.how t <> Undefined) ts).
Proof.
  intros ts.
  assert (Hinv : image_inv (files.image_of name))
    by (unfold image_inv; cbn; lia).
  destruct (run_from cs (files.image_of name) Hinv) as (Hall & Hup & Hdown).
  pose proof (run_keeps_name name cs (files.image_of name) eq_refl) as Hname.
  fold ts in Hall, Hup, Hdown, Hname.
  repeat match goal with |- _ /\ _ => split end; try assumption.
  - eapply Forall_impl; [|exact Hall]; intros t Ht; apply Ht.
  - rewrite Forall_forall in *; intros t Hin Hr.
    destruct (Hall t Hin) as (_ & H & _).
    rewrite (Hname t Hin) in H; exact (H Hr).
  - eapply Forall_impl; [|exact Hall]; intros t Ht; apply Ht.
  - eapply Forall_impl; [|exact Hall]; intros t Ht Hc Hz.
    destruct Ht as (_ & _ & _ & _ & H & _).
    destruct (H Hc Hz) as (Ha & Hm & _); split; assumption.
  - intros Hlen; apply run_complete; [exact Hinv|].
    cbn [files.image_of files.references_]; lia.
Qed.

(** Two users of one archive: the file is opened once and closed once. *)
Lemma image_open_close_refcount_witness :
  let ts := files.run [files.do_open false 3; files.do_open false 4;
                       files.do_close; files.do_close; files.do_close]
                      (files.image_of (files.mk_file (str "libx.a") [] 0 0)) in
  length ts = 5%nat
  /\ flat_map files.made ts
     = [files.sys_open (str "libx.a") false 3; files.sys_close 3]
  /\ length (filter files.rising ts) = 1%nat
  /\ length (filter files.falling ts) = 1%nat.
Proof.
  pose proof (image_open_close_refcount
                (files.mk_file (str "libx.a") [] 0 0)
                [files.do_open false 3; files.do_open false 4;
                 files.do_close; files.do_close; files.do_close]) as H.
  cbv zeta in *.
  destruct H as (_ & _ & _ & Hup & Hdown & _ & Hend).
  destruct Hend as [Hn _]; [vm_compute; discriminate|].
  split; [exact Hn|].
  split; [reflexivity|].
  split; [rewrite Hup; reflexivity | rewrite Hdown; reflexivity].
Defined.

(** ** Copying a file *)

Ltac trace_case :=
  unfold copy_trace_ok;
  cbn [forallb files.is_alloc negb andb In files.written];
  repeat match goal with |- _ /\ _ => split end;
  try discriminate; try reflexivity;
  intros;
  repeat match goal with
         | H : _ \/ _ |- _ => destruct H
         | H : False |- _ => destruct H
         | H : files.io_read _ _ = files.io_read _ _ |- _ =>
             inversion H; clear H
         | H : files.io_write _ _ = files.io_write _ _ |- _ =>
             inversion H; clear H
         | H : files.io_read _ _ = files.io_write _ _ |- _ => discriminate H
         | H : files.io_write _ _ = files.io_read _ _ |- _ => discriminate H
         end;
  subst; try reflexivity; try lia; try (exfalso; lia); try discriminate.

Lemma copy_loop_ok (rd wr : nat -> Z -> Z) :
  (forall i l, 0 < l -> rd i l <= l) ->
  forall (fuel i : nat) (size : Z),
    0 <= size <= Z.of_nat fuel ->
    exists t res,
      files.copy_loop fuel rd wr i size = Some (t, res)
      /\ copy_trace_ok size t res.
Proof.
  intros Hrd fuel; induction fuel as [|fuel IH]; intros i size Hsize.
  - assert (size = 0) by lia; subst size.
    exists [], (Ok tt); split; [reflexivity | trace_case].
  - cbn [files.copy_loop].
    destruct (Z.eqb_spec size 0) as [->|Hnz].
    { exists [], (Ok tt); split; [reflexivity | trace_case]. }
    set (l := if size <? files.COPY_FILE_BUFFER_SIZE
              then size else files.COPY_FILE_BUFFER_SIZE).
    assert (Hl : 0 < l <= files.COPY_FILE_BUFFER_SIZE /\ l <= size).
    { subst l; unfold files.COPY_FILE_BUFFER_SIZE.
      destruct (Z.ltb_spec size (8 * 1024)); lia. }
    assert (Hr : rd i l <= l) by (apply Hrd; lia).
    destruct (Z.ltb_spec (rd i l) 0) as [Hneg|Hpos].
    { exists [files.io_read l (rd i l)], (Throw ReadError);
        split; [reflexivity | trace_case]. }
    destruct (Z.eqb_spec (rd i l) 0) as [Hzero|Hsome].
    { exists [files.io_read l (rd i l)], (Throw InputTooShort);
        split; [reflexivity | trace_case]. }
    destruct (Z.ltb_spec l (rd i l)) as [Hover|Hfits]; [lia|].
    set (r := rd i l) in *.
    destruct (Z.ltb_spec (wr i r) 0) as [Hwneg|Hwpos].
    { exists [files.io_read l r; files.io_write r (wr i r)], (Throw WriteError);
        split; [reflexivity | trace_case]. }
    destruct (Z.eqb_spec (wr i r) r) as [Hfull|Hshort]; cbn [negb].
    + destruct (IH (S i) (size - r)) as (t & res & Hrun & Hok); [lia|].
      rewrite Hrun.
      exists (files.io_read l r :: files.io_write r (wr i r) :: t), res;
        split; [reflexivity|].
      destruct Hok as (Hdef & Hnoalloc & Heof & Htrunc & Hreads & Hwrites & Hsum).
      unfold copy_trace_ok;
        cbn [forallb files.is_alloc negb andb In files.written].
      split; [exact Hdef|].
      split; [exact Hnoalloc|].
      split; [intros l0 [H|[H|H]]; [inversion H; lia | discriminate | eauto]|].
      split; [intros n w [H|[H|H]] Hw;
              [discriminate | inversion H; subst; lia | eauto]|].
      split; [intros l0 r0 [H|[H|H]];
              [inversion H; subst; lia | discriminate | eauto]|].
      split; [intros n w [H|[H|H]];
              [discriminate | inversion H; subst; lia | eauto]|].
      intros Hres; rewrite (Hsum Hres); lia.
    + exists [files.io_read l r; files.io_write r (wr i r)], (Throw OutputTruncated);
        split; [reflexivity | trace_case].
Qed.

(** C8. [copy_file] ends for every size and every behaviour of the two
    files. It takes one buffer of 8 KiB, asks each [::read] for no more
    than that, and gives the buffer back as its last act whether it
    returns or throws. A [::read] that answers 0, which the loop only
    issues while bytes are still owed, ends it with [InputTooShort]; a
    [::write] that moves fewer bytes than were read ends it with
    [OutputTruncated]; when it returns, [size] bytes were written. *)
Theorem copy_file_contract (rd wr : nat -> Z -> Z) (size : Z) :
  0 <= size ->
  (forall i l, 0 < l -> rd i l <= l) ->
  exists body res,
    files.copy_file true rd wr size
    = Some (files.io_new (8 * 1024) :: body ++ [files.io_delete], res)
    /\ res <> Undefined
    /\ forallb (fun e => negb (files.is_alloc e)) body = true
    /\ (forall l, In (files.io_read l 0) body -> res = Throw InputTooShort)
    /\ (forall n w, In (files.io_write n w) body -> 0 <= w < n ->
        res = Throw OutputTruncated)
    /\ (forall l r, In (files.io_read l r) body -> 0 < l <= 8 * 1024)
    /\ (res = Ok tt -> files.written body = size).
Proof.
  intros Hsize Hrd.
  destruct (copy_loop_ok rd wr Hrd (Z.to_nat size) 0%nat size)
    as (t & res & Hrun & Hok); [lia|].
  destruct Hok as (Hdef & Hnoalloc & Heof & Htrunc & Hreads & _ & Hsum).
  exists t, res; unfold files.copy_file; rewrite Hrun.
  split; [destruct res as [[]| |]; [reflexivity | reflexivity | congruence]|].
  repeat match goal with |- _ /\ _ => split end; assumption.
Qed.

(** Scenario E6: 10000 bytes are asked for, the input ends after 8192. *)
Lemma copy_file_contract_witness :
  files.copy_file true (fun i l => if (i =? 0)%nat then l else 0)
                  (fun _ n => n) 10000
  = Some ([files.io_new 8192; files.io_read 8192 8192;
           files.io_write 8192 8192; files.io_read 1808 0; files.io_delete],
          Throw InputTooShort).
Proof.
  destruct (copy_file_contract
              (fun i l => if (i =? 0)%nat then l else 0) (fun _ n => n) 10000)
    as (body & res & Hrun & _ & _ & Heof & _).
  - lia.
  - intros i l Hl; destruct (i =? 0)%nat; lia.
  - vm_compute; reflexivity.
Defined.

(** ** Archives *)

Example write_header_short_name :
  files.write_header (str "a.o") 0 0 0 438 4
  = str "a.o             0           0     0     666     4         `"
    ++ [files.LF].
Proof. reflexivity. Qed.

(** C6 (the code departs from it). Two members with names of 19
    characters: the table of extended names holds both, each ended by a
    newline, the second from byte 20 on; [create] stores the second member
    under ["/17"], the place of the first character of the table that
    occurs anywhere in the name, not under ["/20"]. *)
Theorem create_second_extended_name :
  let n1 := str "aaaaaaaaaaaaaaaaa.o" in
  let n2 := str "bbbbbbbbbbbbbbbbb.o" in
  let objects := [(files.mk_file [] n1 0 4, str "ELF1");
                  (files.mk_file [] n2 0 4, str "ELF2")] in
  let table := files.extended_names "/" objects in
  table = n1 ++ [files.LF] ++ n2 ++ [files.LF]
  /\ find table (n2 ++ [files.LF]) = Some 20%nat
  /\ find_first_of table (n2 ++ [files.LF]) = Some 17%nat
  /\ files.stored_name "/" table (files.mk_file [] n2 0 4, str "ELF2")
     = Ok (str "/17")
  /\ exists archive,
      files.create "/" objects = Ok archive
      /\ firstn 40 (skipn (8 + 60) archive) = table
      /\ firstn 16 (skipn (8 + 60 + 40) archive) = str "/0              "
      /\ firstn 16 (skipn (8 + 60 + 40 + 60 + 4) archive)
         = str "/17             ".
Proof.
  cbv zeta.
  split; [reflexivity|].
  split; [reflexivity|].
  split; [reflexivity|].
  split; [reflexivity|].
  eexists; split; [vm_compute; reflexivity|].
  split; [reflexivity|].
  split; reflexivity.
Qed.

(** C9 (the code departs from it). The header that [create] writes for
    the member [a.o] has neither a ['/'] nor a null character: the scan of
    [add_object] runs through the sixty bytes and off the array, and
    [load_objects] has no defined outcome on that archive. With a ['/'] in
    the second byte of the modification time the scan stops there, and
    the member is registered under a name of seventeen bytes, the
    sixteen of the name field and the first of the field after it. *)
Theorem load_objects_name_leaves_field :
  let header := files.write_header (str "a.o") 0 0 0 438 4 in
  let crafted := files.poke 17 (str "/") header in
  length header = 60%nat
  /\ files.scan_name header = None
  /\ (exists archive,
        files.create "/" [(files.mk_file [] (str "a.o") 0 4, str "ELF1")]
        = Ok archive
        /\ archive = files.rld_archive_ident ++ header ++ str "ELF1"
        /\ files.load_objects (str "libx.a") archive [] = Some Undefined)
  /\ nth 58 crafted NUL = byte_of 96
  /\ nth 59 crafted NUL = byte_of 10
  /\ files.scan_name crafted = Some (str "a.o             0")
  /\ files.load_objects (str "libx.a")
       (files.rld_archive_ident ++ crafted ++ str "ELF1") []
     = Some (Ok [(str "libx.a:a.o             0@68",
                  files.mk_object
                    (files.image_of
                       (files.mk_file (str "libx.a")
                                      (str "a.o             0") 68 4))
                    (Some (str "libx.a")))]).
Proof.
  cbv zeta.
  split; [reflexivity|].
  split; [reflexivity|].
  split.
  { eexists; split; [vm_compute; reflexivity|].
    split; [reflexivity | vm_compute; reflexivity]. }
  split; [reflexivity|].
  split; [reflexivity|].
  split; [reflexivity|].
  vm_compute; reflexivity.
Qed.

(** ** Folding section records *)

Lemma wrap32_range (z : Z) : 0 <= wrap32 z < 2 ^ 32.
Proof. unfold wrap32; apply Z.mod_pos_bound; lia. Qed.

Lemma wrap32_small (z : Z) : 0 <= z < 2 ^ 32 -> wrap32 z = z.
Proof. intros H; unfold wrap32; apply Z.mod_small; exact H. Qed.

Lemma wrap32_idem (z : Z) : wrap32 (wrap32 z) = wrap32 z.
Proof. apply wrap32_small, wrap32_range. Qed.

Lemma wrap32_add_l (a b : Z) : wrap32 (wrap32 a + b) = wrap32 (a + b).
Proof. unfold wrap32; apply Zplus_mod_idemp_l. Qed.

Lemma wrap32_add_r (a b : Z) : wrap32 (a + wrap32 b) = wrap32 (a + b).
Proof. unfold wrap32; apply Zplus_mod_idemp_r. Qed.

Lemma land_wrap32_r (o n : Z) :
  0 <= o < 2 ^ 32 -> Z.land o (wrap32 n) = Z.land o n.
Proof.
  intros Ho; unfold wrap32.
  rewrite <- (Z.land_ones n 32) by lia.
  transitivity (Z.land n (Z.land o (Z.ones 32))).
  - rewrite (Z.land_comm n (Z.ones 32)), Z.land_assoc.
    apply Z.land_comm.
  - rewrite (Z.land_ones o 32) by lia.
    rewrite (Z.mod_small o) by exact Ho.
    apply Z.land_comm.
Qed.

Lemma pow2_bounds (a : Z) : 0 <= a <= 30 -> 1 <= 2 ^ a <= 2 ^ 30.
Proof.
  intros H; split.
  - change 1 with (2 ^ 0); apply Z.pow_le_mono_r; lia.
  - apply Z.pow_le_mono_r; lia.
Qed.

(** The mask of [operator+=] for an alignment the shifts are defined
    for. *)
Lemma mask_defined (a : Z) :
  1 <= a <= 31 ->
  (one <- shl_one (wrap32 (a - 1)) ;; int_sub one 1)
  = Ok (Z.shiftl 1 (a - 1) - 1)
  /\ 0 <= Z.shiftl 1 (a - 1) - 1 < 2 ^ 32.
Proof.
  intros Ha.
  rewrite Z.shiftl_1_l.
  pose proof (pow2_bounds (a - 1) ltac:(lia)) as Hp.
  rewrite wrap32_small by lia.
  unfold shl_one.
  destruct (Z.ltb_spec (a - 1) 31); [|lia].
  cbn [bind]; unfold int_sub, INT_MIN, INT_MAX.
  destruct (Z.leb_spec (- 2 ^ 31) (2 ^ (a - 1) - 1));
    destruct (Z.leb_spec (2 ^ (a - 1) - 1) (2 ^ 31 - 1)); cbn [andb];
    try lia.
  split; [reflexivity | lia].
Qed.

Lemma increment_defined (a : Z) :
  1 <= a <= 31 ->
  exists inc, shl_one a = Ok inc /\ wrap32 inc = Z.shiftl 1 a.
Proof.
  intros Ha; rewrite Z.shiftl_1_l; unfold shl_one.
  destruct (Z.ltb_spec a 31).
  - exists (2 ^ a); split; [reflexivity|].
    pose proof (pow2_bounds a ltac:(lia)); apply wrap32_small; lia.
  - assert (a = 31) by lia; subst a.
    exists INT_MIN; split; reflexivity.
Qed.

Lemma section_add_defined (g sec : rap.section) :
  rap.size sec <> 0 ->
  1 <= rap.align sec <= 31 ->
  rap.align g = 0 \/ rap.align g = rap.align sec ->
  rap.section_add g sec
  = Ok (rap.mk_section (rap.name g)
          (wrap32 (rap.size g + rap.size sec))
          (wrap32 (rap.round_up_documented
                     (wrap32 (rap.offset sec + rap.size sec)) (rap.align sec)))
          (rap.align sec)).
Proof.
  intros Hsize Ha Hg.
  unfold rap.section_add.
  destruct (Z.eqb_spec (rap.size sec) 0) as [|_]; [contradiction|].
  assert (Halign :
            (if rap.align g =? 0 then Ok (rap.align sec)
             else if negb (rap.align g =? rap.align sec)
                  then Throw AlignmentMismatch else Ok (rap.align g))
            = Ok (rap.align sec)).
  { destruct Hg as [Hg|Hg]; rewrite Hg.
    - reflexivity.
    - destruct (Z.eqb_spec (rap.align sec) 0); [reflexivity|].
      rewrite Z.eqb_refl; reflexivity. }
  rewrite Halign; cbn [bind].
  destruct (Z.eqb_spec (rap.align sec) 0) as [|_]; [lia|].
  rewrite andb_false_r.
  destruct (mask_defined (rap.align sec) Ha) as [Hmask Hrange].
  set (o := wrap32 (rap.offset sec + rap.size sec)).
  pose proof (wrap32_range (rap.offset sec + rap.size sec)) as Ho; fold o in Ho.
  destruct (shl_one (wrap32 (rap.align sec - 1))) as [one| |];
    cbn [bind] in Hmask |- *; try discriminate.
  rewrite Hmask; cbn [bind].
  rewrite (wrap32_small _ Hrange).
  unfold rap.round_up_documented.
  destruct (Z.eqb_spec (Z.land o (Z.shiftl 1 (rap.align sec - 1) - 1)) 0);
    cbn [negb].
  - rewrite (wrap32_small o Ho); reflexivity.
  - destruct (increment_defined (rap.align sec) Ha) as (inc & -> & Hinc).
    cbn [bind]; rewrite Hinc, (land_wrap32_r o _ Ho); reflexivity.
Qed.

(** C4 (amended). Two section records of the same alignment, one the
    shifts are defined for, the second record not empty: folded into a
    group fresh from its constructor they give the sum of the two sizes
    and the end of the second record rounded up by the documented
    formula, all in [uint32_t] arithmetic. Two records that are not
    empty and differ in alignment, the first of them one the shifts are
    defined for, end the fold with [AlignmentMismatch]. An empty second
    record is passed over: the group stays as the first record left it. *)
Theorem section_fold_two (s1 s2 : rap.section) :
  (rap.align s1 = rap.align s2 ->
   1 <= rap.align s2 <= 31 ->
   rap.size s2 <> 0 ->
   exists g,
     rap.fold_two s1 s2 = Ok g
     /\ rap.size g = wrap32 (rap.size s1 + rap.size s2)
     /\ rap.offset g
        = wrap32 (rap.round_up_documented
                    (wrap32 (rap.offset s2 + rap.size s2)) (rap.align s2))
     /\ rap.align g = rap.align s2)
  /\ (rap.size s1 <> 0 -> rap.size s2 <> 0 ->
      rap.align s1 <> rap.align s2 ->
      1 <= rap.align s1 <= 31 ->
      rap.fold_two s1 s2 = Throw AlignmentMismatch)
  /\ (rap.size s2 = 0 ->
      rap.fold_two s1 s2 = rap.section_add rap.section_default s1).
Proof.
  split; [|split].
  - intros Heq Ha Hsize; unfold rap.fold_two.
    destruct (Z.eq_dec (rap.size s1) 0) as [Hz|Hnz].
    + unfold rap.section_add at 1; rewrite Hz; cbn [Z.eqb bind].
      rewrite section_add_defined by (auto; left; reflexivity).
      eexists; split; [reflexivity|].
      cbn [rap.size rap.offset rap.align rap.section_default].
      repeat split; reflexivity.
    + rewrite (section_add_defined rap.section_default s1)
        by (auto; try lia; left; reflexivity).
      cbn [bind].
      rewrite section_add_defined
        by (auto; right; cbn [rap.align]; exact Heq).
      eexists; split; [reflexivity|].
      cbn [rap.size rap.offset rap.align rap.section_default].
      rewrite wrap32_add_l; repeat split; reflexivity.
  - intros H1 H2 Hne Ha; unfold rap.fold_two.
    rewrite (section_add_defined rap.section_default s1)
      by (auto; left; reflexivity).
    cbn [bind]; unfold rap.section_add; cbn [rap.align rap.size].
    destruct (Z.eqb_spec (rap.size s2) 0); [contradiction|].
    destruct (Z.eqb_spec (rap.align s1) 0); [lia|].
    destruct (Z.eqb_spec (rap.align s1) (rap.align s2)); [contradiction|].
    reflexivity.
  - intros Hz; unfold rap.fold_two.
    destruct (rap.section_add rap.section_default s1) as [g| |];
      cbn [bind]; try reflexivity.
    unfold rap.section_add; rewrite Hz; reflexivity.
Qed.

(** Scenario E2: [.ctors] of size 8 and alignment 2 in each of two
    objects; and a text section of alignment 2 against data of
    alignment 3. *)
Lemma section_fold_two_witness :
  (exists g,
     rap.fold_two (rap.mk_section (str ".ctor") 8 0 2)
                  (rap.mk_section (str ".ctor") 8 0 2) = Ok g
     /\ rap.size g = 16 /\ rap.offset g = 8 /\ rap.align g = 2)
  /\ rap.fold_two (rap.mk_section (str ".text") 4 0 2)
                  (rap.mk_section (str ".text") 4 0 3)
     = Throw AlignmentMismatch.
Proof.
  destruct (section_fold_two (rap.mk_section (str ".ctor") 8 0 2)
                             (rap.mk_section (str ".ctor") 8 0 2))
    as [Hsame _].
  destruct (section_fold_two (rap.mk_section (str ".text") 4 0 2)
                             (rap.mk_section (str ".text") 4 0 3))
    as [_ [Hdiff _]].
  split.
  - destruct Hsame as (g & Hg & Hs & Ho & Ha);
      [reflexivity | cbn; lia | cbn; lia |].
    exists g; repeat split; assumption.
  - apply Hdiff; cbn; lia.
Defined.

(** C4 as stated fails when the second record is empty: [operator+=]
    leaves the group as the first record made it, with the offset at the
    end of the first record, 4, where the formula applied to the second
    record gives 0. *)
Lemma section_fold_two_counterexample :
  let s1 := rap.mk_section (str ".text") 4 0 2 in
  let s2 := rap.mk_section (str ".text") 0 0 2 in
  rap.align s1 = rap.align s2
  /\ rap.fold_two s1 s2 = Ok (rap.mk_section [] 4 4 2)
  /\ wrap32 (rap.round_up_documented
               (wrap32 (rap.offset s2 + rap.size s2)) (rap.align s2)) = 0.
Proof. repeat split. Qed.

(** ** The RAP stream *)

Lemma firstn_word (a b : list ascii) (n : nat) :
  length a = 4%nat -> firstn (4 + n) (a ++ b) = a ++ firstn n b.
Proof.
  intros Ha; rewrite firstn_app, Ha.
  replace (4 + n - 4)%nat with n by lia.
  rewrite firstn_all2 by lia; reflexivity.
Qed.

Lemma skipn_length_app (a b : list ascii) : skipn (length a) (a ++ b) = b.
Proof.
  rewrite skipn_app, Nat.sub_diag, skipn_all; reflexivity.
Qed.

Lemma firstn_length_app (a b : list ascii) : firstn (length a) (a ++ b) = a.
Proof.
  rewrite firstn_app, Nat.sub_diag, firstn_all, app_nil_r; reflexivity.
Qed.

(** C3. Whatever the compressor, the image and the two labels, the
    first 32 bytes that [image::write] hands over are eight integers of
    32 bits: the machine type, the data encoding and the class of the ELF
    objects, the size of the string table before the label [init] was
    appended, its size before [fini] was appended, [symtab_size], the
    size of the string table as it is then emitted, and zero. The emitted
    table holds [init] and [fini], each ended by a null character, at the
    two offsets. *)
Theorem write_first_32_bytes {comp : rap.compressor} (elf : rap.elf_ident)
  (init fini : list ascii) (img : rap.image) :
  let init_off := size_of (rap.strtab img) in
  let fini_off := size_of (rap.strtab img ++ init ++ [NUL]) in
  let emitted := rap.strtab (fst (rap.write elf init fini img)) in
  firstn 32 (snd (rap.write elf init fini img))
  = rap.put_u32 (rap.object_machine_type elf)
    ++ rap.put_u32 (rap.object_datatype elf)
    ++ rap.put_u32 (rap.object_class elf)
    ++ rap.put_u32 (wrap32 init_off)
    ++ rap.put_u32 (wrap32 fini_off)
    ++ rap.put_u32 (rap.symtab_size img)
    ++ rap.put_u32 (wrap32 (size_of emitted))
    ++ rap.put_u32 0
  /\ firstn (length init + 1) (skipn (Z.to_nat init_off) emitted)
     = init ++ [NUL]
  /\ firstn (length fini + 1) (skipn (Z.to_nat fini_off) emitted)
     = fini ++ [NUL].
Proof.
  cbv zeta; unfold rap.write; cbn [fst snd rap.strtab].
  split; [|split].
  - rewrite <- !app_assoc.
    change 32%nat with (4 + (4 + (4 + (4 + (4 + (4 + (4 + (4 + 0))))))))%nat.
    rewrite !firstn_word by apply rap.put_u32_size.
    rewrite firstn_O, app_nil_r; reflexivity.
  - unfold size_of; rewrite Nat2Z.id.
    rewrite <- !app_assoc, skipn_length_app.
    replace (length init + 1)%nat with (length (init ++ [NUL]))
      by (rewrite length_app; reflexivity).
    rewrite (app_assoc init [NUL]), firstn_length_app; reflexivity.
  - unfold size_of; rewrite Nat2Z.id.
    rewrite skipn_length_app.
    apply firstn_all2; rewrite length_app; cbn [length]; lia.
Qed.

Lemma write_first_32_bytes_witness :
  firstn 32 (snd (@rap.write rap.plain_compressor rap.sparc_elf
                             (str "init") (str "fini") rap.image_default))
  = rap.big_endian 2 ++ rap.big_endian 2 ++ rap.big_endian 1
    ++ rap.big_endian 0 ++ rap.big_endian 5 ++ rap.big_endian 0
    ++ rap.big_endian 10 ++ rap.big_endian 0.
Proof.
  destruct (@write_first_32_bytes rap.plain_compressor rap.sparc_elf
              (str "init") (str "fini") rap.image_default) as [H _].
  rewrite H; vm_compute; reflexivity.
Defined.

Example write_e1_header :
  (let comp := rap.plain_compressor in
   firstn 32 (snd (rap.write rap.sparc_elf (str "init") (str "fini")
                             rap.image_default)))
  = rap.big_endian 2 ++ rap.big_endian 2 ++ rap.big_endian 1
    ++ rap.big_endian 0 ++ rap.big_endian 5 ++ rap.big_endian 0
    ++ rap.big_endian 10 ++ rap.big_endian 0.
Proof. vm_compute; reflexivity. Qed.

(** C1 (the code departs from it). Scenario E1: the one symbol [foo]
    is a global function and becomes the one external of the image, with
    the name index 2. The string table that is emitted is
    [foo\0init\0fini\0]: at index 2 it holds the string [o], not [foo],
    which is at index 0. *)
Theorem write_e1_name_index :
  let comp := rap.plain_compressor in
  exists img out,
    rap.write_application rap.sparc_elf (str "init") (str "fini")
                          [rap.e1_object] = Ok (img, out)
    /\ rap.externs img = [rap.mk_external 2 rap.rap_text 0 18]
    /\ rap.strtab img
       = str "foo" ++ [NUL] ++ str "init" ++ [NUL] ++ str "fini" ++ [NUL]
    /\ length out = (32 + 6 * 12 + 4 + 14 + 12)%nat
    /\ firstn 14 (skipn (32 + 6 * 12 + 4) out) = rap.strtab img
    /\ skipn (32 + 6 * 12 + 4 + 14) out
       = rap.big_endian 18 ++ rap.big_endian 2 ++ rap.big_endian 0
    /\ rap.string_in (rap.strtab img) 2 = str "o"
    /\ rap.string_in (rap.strtab img) 0 = rap.sym_name rap.e1_foo.
Proof.
  cbv zeta; eexists; eexists.
  split; [vm_compute; reflexivity|].
  repeat (split; [vm_compute; reflexivity|]).
  vm_compute; reflexivity.
Qed.

(** C2 (the code departs from it). Two objects, the first with the
    accepted symbol [foo], the second with none: after the layout the
    image has the external of [foo], yet [symtab_size] is 0 and the
    string table is empty, where twelve bytes and [foo\0] are due; the
    two are set anew for every object. *)
Theorem layout_resets_tables :
  exists img,
    rap.layout [rap.e1_object; rap.e4_object] rap.image_default = Ok img
    /\ rap.externs img = [rap.mk_external 2 rap.rap_text 0 18]
    /\ rap.symtab_size img = 0
    /\ rap.strtab img = []
    /\ rap.expected_symtab_size [rap.e1_object; rap.e4_object] = 12
    /\ rap.expected_strtab [rap.e1_object; rap.e4_object] = str "foo" ++ [NUL].
Proof.
  eexists; split; [vm_compute; reflexivity|].
  repeat (split; [vm_compute; reflexivity|]).
  vm_compute; reflexivity.
Qed.

(** ** What the layout does with the symbols *)

Lemma collect_tables (o : rap.object) (esyms : list rap.symbol) :
  forall img img',
    rap.collect o esyms img = Ok img' ->
    rap.strtab img' = rap.strtab img ++ names_of (filter rap.accepted esyms)
    /\ rap.symtab_size img'
       = match filter rap.accepted esyms with
         | [] => rap.symtab_size img
         | _ :: _ =>
             wrap32 (rap.symtab_size img
                     + 12 * Z.of_nat (length (filter rap.accepted esyms)))
         end
    /\ map rap.ext_data (rap.externs img')
       = map rap.ext_data (rap.externs img)
         ++ map (fun sym => wrap32 (rap.sym_info sym))
                (filter rap.accepted esyms)
    /\ rap.objs img' = rap.objs img
    /\ rap.secs img' = rap.secs img
    /\ rap.relocs_size img' = rap.relocs_size img.
Proof.
  induction esyms as [|sym rest IH]; intros img img' Hrun; cbn [rap.collect] in Hrun.
  - inversion Hrun; subst; cbn [filter names_of flat_map map].
    rewrite !app_nil_r; repeat split.
  - cbn [filter]; destruct (rap.accepted sym).
    + destruct (rap.object_find o (wrap32 (rap.sym_index sym))) as [sec| |];
        cbn [bind] in Hrun; try discriminate.
      destruct (IH _ _ Hrun) as (Hs & Hn & He & Ho & Hg & Hr).
      cbn [rap.strtab rap.symtab_size rap.externs rap.objs rap.secs
           rap.relocs_size] in *.
      rewrite Hs, He, Ho, Hg, Hr, Hn.
      cbn [names_of flat_map map length].
      rewrite map_app, <- !app_assoc; cbn [map app].
      repeat split.
      destruct (filter rap.accepted rest) as [|x l].
      * unfold rap.rap_size; f_equal; cbn; lia.
      * rewrite wrap32_add_l; unfold rap.rap_size; f_equal.
        cbn [length]; lia.
    + apply IH; exact Hrun.
Qed.

Lemma last_cons_default (A : Type) (l : list A) (a d : A) :
  last (a :: l) d = last l a.
Proof.
  revert a d; induction l as [|b l IH]; intros a d; [reflexivity|].
  change (last (a :: b :: l) d) with (last (b :: l) d).
  rewrite !IH; reflexivity.
Qed.

Lemma push_objects_all (apps : list rap.app_object) :
  forall objs objs',
    rap.push_objects apps objs = Ok objs' ->
    objs' = objs ++ map rap.object_of apps.
Proof.
  induction apps as [|a rest IH]; intros objs objs' H; cbn [rap.push_objects] in H.
  - inversion H; rewrite app_nil_r; reflexivity.
  - destruct (rap.app_valid a); cbn [negb] in H; [|discriminate].
    rewrite (IH _ _ H), <- app_assoc; reflexivity.
Qed.

Lemma layout_objects_cons (o : rap.object) (rest : list rap.object)
  (img : rap.image) :
  rap.layout_objects (o :: rest) img
  = (secs' <- rap.add_groups rap.rap_secs o (rap.secs img) ;;
     img' <- rap.collect o (rap.external_symbols (rap.obj o))
               (rap.mk_image (rap.objs img) secs' (rap.externs img) 0 []
                             (rap.relocs_size img)) ;;
     rap.layout_objects rest
       (rap.mk_image (rap.objs img') (rap.secs img') (rap.externs img')
                     (rap.symtab_size img') (rap.strtab img')
                     (wrap32 (rap.relocs_size img' + rap.obj_relocs_size o)))).
Proof. reflexivity. Qed.

(** The externals come from the accepted symbols alone, in order; the
    two tables are those of the last object. *)
Lemma layout_objects_tables (o : rap.object) (rest : list rap.object) :
  forall img img',
    rap.layout_objects (o :: rest) img = Ok img' ->
    let last_syms :=
      filter rap.accepted (rap.external_symbols (rap.obj (last rest o))) in
    rap.strtab img' = names_of last_syms
    /\ rap.symtab_size img' = wrap32 (12 * Z.of_nat (length last_syms))
    /\ map rap.ext_data (rap.externs img')
       = map rap.ext_data (rap.externs img)
         ++ map (fun sym => wrap32 (rap.sym_info sym))
                (flat_map (fun o => filter rap.accepted
                                      (rap.external_symbols (rap.obj o)))
                          (o :: rest)).
Proof.
  revert o; induction rest as [|o' rest IH]; intros o img img' Hrun;
    rewrite layout_objects_cons in Hrun.
  - destruct (rap.add_groups rap.rap_secs o (rap.secs img)) as [secs'| |];
      cbn [bind] in Hrun; try discriminate.
    destruct (rap.collect o _ _) as [img1| |] eqn:Hc;
      cbn [bind] in Hrun; try discriminate.
    cbn [rap.layout_objects] in Hrun.
    inversion Hrun; subst img'; clear Hrun.
    destruct (collect_tables _ _ _ _ Hc) as (Hs & Hn & He & _).
    cbn [rap.strtab rap.symtab_size rap.externs last flat_map] in *.
    rewrite Hs, He, Hn, app_nil_r; cbn [app].
    repeat split.
    destruct (filter rap.accepted _); reflexivity.
  - destruct (rap.add_groups rap.rap_secs o (rap.secs img)) as [secs'| |];
      cbn [bind] in Hrun; try discriminate.
    destruct (rap.collect o _ _) as [img1| |] eqn:Hc;
      cbn [bind] in Hrun; try discriminate.
    destruct (collect_tables _ _ _ _ Hc) as (_ & _ & He & _).
    destruct (IH o' _ _ Hrun) as (Hs' & Hn' & He').
    cbn [rap.externs] in He, He'.
    rewrite last_cons_default.
    split; [exact Hs'|]. split; [exact Hn'|].
    rewrite He', He; cbn [flat_map].
    rewrite !map_app, <- !app_assoc; reflexivity.
Qed.

(** X21. On an image fresh from its constructor: one external for each
    accepted symbol of each object, and for no other symbol. *)
Lemma layout_externs_accepted (apps : list rap.app_object) (img : rap.image) :
  rap.layout apps rap.image_default = Ok img ->
  map rap.ext_data (rap.externs img)
  = map (fun sym => wrap32 (rap.sym_info sym)) (rap.accepted_symbols apps).
Proof.
  unfold rap.layout; intros H.
  destruct (rap.push_objects apps _) as [objs'| |] eqn:Hp;
    cbn [bind] in H; try discriminate.
  apply push_objects_all in Hp; cbn [rap.objs rap.image_default app] in Hp.
  subst objs'.
  destruct apps as [|a rest].
  - inversion H; reflexivity.
  - cbn [map] in H.
    destruct (layout_objects_tables _ _ _ _ H) as (_ & _ & He).
    rewrite He; cbn [rap.externs rap.image_default app map].
    unfold rap.accepted_symbols.
    f_equal.
    change (rap.object_of a :: map rap.object_of rest)
      with (map rap.object_of (a :: rest)).
    rewrite flat_map_concat_map, map_map, <- flat_map_concat_map.
    reflexivity.
Qed.

(** * Further properties of the sources *)

(** ** Base names *)

Lemma find_last_of_spec (c : ascii) (s : list ascii) :
  match find_last_of s c with
  | Some i => exists dir, s = dir ++ c :: skipn (S i) s
                          /\ length dir = i /\ ~ In c (skipn (S i) s)
  | None => ~ In c s
  end.
Proof.
  induction s as [|x t IH]; cbn [find_last_of]; [intros []|].
  destruct (find_last_of t c) as [i|].
  - destruct IH as (dir & Ht & Hlen & Hno).
    exists (x :: dir).
    change (skipn (S (S i)) (x :: t)) with (skipn (S i) t).
    cbn [length app]; rewrite <- Ht.
    split; [reflexivity|]. split; [congruence | exact Hno].
  - destruct (Ascii.eqb_spec x c) as [->|Hx].
    + exists []; repeat split; exact IH.
    + intros [H|H]; [contradiction | exact (IH H)].
Qed.

(** X1. [basename]: the result holds no separator; a name without separator
    is returned whole, any other name is its directory part, one
    separator, and the result. *)
Theorem basename_is_last_component (sep : ascii) (name : list ascii) :
  ~ In sep (files.basename sep name)
  /\ (~ In sep name -> files.basename sep name = name)
  /\ (In sep name ->
      exists dir, name = dir ++ sep :: files.basename sep name).
Proof.
  unfold files.basename.
  pose proof (find_last_of_spec sep name) as H.
  destruct (find_last_of name sep) as [i|].
  - destruct H as (dir & Hname & _ & Hno).
    split; [exact Hno|]. split.
    + intros Hnot; exfalso; apply Hnot.
      rewrite Hname; apply in_or_app; right; now left.
    + intros _; exists dir; exact Hname.
  - split; [exact H|]. split; [reflexivity | contradiction].
Qed.

(** ** Decimal numbers *)

Lemma digit_char (r : Z) :
  0 <= r < 10 ->
  Ascii.eqb (byte_of (48 + r)) " " = false
  /\ code (byte_of (48 + r)) = 48 + r.
Proof.
  intros H.
  assert (r = 0 \/ r = 1 \/ r = 2 \/ r = 3 \/ r = 4 \/ r = 5 \/ r = 6
          \/ r = 7 \/ r = 8 \/ r = 9) as Hr by lia.
  repeat (destruct Hr as [->|Hr]; [split; reflexivity|]).
  subst r; split; reflexivity.
Qed.

Lemma scan_digit (v r : Z) (rest : list ascii) (len : nat) :
  0 <= r < 10 -> 0 <= v -> v * 10 + r < 2 ^ 64 ->
  files.scan_decimal_from v (byte_of (48 + r) :: rest) (S len)
  = files.scan_decimal_from (v * 10 + r) rest len.
Proof.
  intros Hr Hv Hfit; cbn [files.scan_decimal_from].
  destruct (digit_char r Hr) as [-> ->].
  f_equal; unfold wrap64.
  rewrite (Z.mod_small (v * 10)) by lia.
  replace (v * 10 + (48 + r - 48)) with (v * 10 + r) by lia.
  apply Z.mod_small; lia.
Qed.

(** The digits that [digits_aux] puts before [acc], and what a scan
    makes of them. *)
Lemma digits_aux_scan (fuel : nat) :
  forall (n : Z) (acc : list ascii),
    0 <= n < 10 ^ Z.of_nat (S fuel) ->
    exists ds,
      digits_aux (S fuel) 10 n acc = ds ++ acc
      /\ (1 <= length ds)%nat
      /\ (forall m : nat, n < 10 ^ Z.of_nat m -> (1 <= m)%nat ->
                          (length ds <= m)%nat)
      /\ (forall v rest len,
             (length ds <= len)%nat -> 0 <= v ->
             v * 10 ^ Z.of_nat (length ds) + n < 2 ^ 64 ->
             files.scan_decimal_from v (ds ++ rest) len
             = files.scan_decimal_from (v * 10 ^ Z.of_nat (length ds) + n)
                 rest (len - length ds)).
Proof.
  induction fuel as [|fuel IH]; intros n acc Hn;
    (assert (Hr : 0 <= n mod 10 < 10) by (apply Z.mod_pos_bound; lia));
    (assert (Hq : n = 10 * (n / 10) + n mod 10) by (apply Z.div_mod; lia));
    (assert (Hq0 : 0 <= n / 10) by (apply Z.div_pos; lia));
    change (digits_aux (S ?f) 10 n acc)
      with (let acc' := byte_of (48 + n mod 10) :: acc in
            if n / 10 =? 0 then acc' else digits_aux f 10 (n / 10) acc');
    cbv zeta;
    (destruct (Z.eqb_spec (n / 10) 0) as [Hz|Hnz];
     [ exists [byte_of (48 + n mod 10)]; split; [reflexivity|];
       split; [cbn [length]; lia|];
       split; [intros; cbn [length]; lia|];
       intros v rest len Hlen Hv Hfit; cbn [length app] in *;
       change (10 ^ Z.of_nat 1) with 10 in *;
       destruct len as [|len]; [lia|];
       rewrite scan_digit by lia;
       replace (S len - 1)%nat with len by lia;
       f_equal; lia
     | ]).
  - change (10 ^ Z.of_nat 1) with 10 in Hn; lia.
  - assert (Hsmall : n / 10 < 10 ^ Z.of_nat (S fuel)).
    { apply Z.div_lt_upper_bound; [lia|].
      rewrite (Nat2Z.inj_succ (S fuel)), Z.pow_succ_r in Hn by lia; lia. }
    destruct (IH (n / 10) (byte_of (48 + n mod 10) :: acc))
      as (ds & Hds & Hlen & Hmin & Hscan); [lia|].
    exists (ds ++ [byte_of (48 + n mod 10)]).
    rewrite Hds, <- app_assoc; split; [reflexivity|].
    rewrite length_app; cbn [length].
    split; [lia|]. split.
    + intros m Hm Hm1.
      destruct m as [|m]; [lia|].
      destruct m as [|m].
      { change (10 ^ Z.of_nat 1) with 10 in Hm; lia. }
      assert (length ds <= S m)%nat; [|lia].
      apply Hmin; [|lia].
      apply Z.div_lt_upper_bound; [lia|].
      rewrite (Nat2Z.inj_succ (S m)), Z.pow_succ_r in Hm by lia; lia.
    + intros v rest len Hl Hv Hfit.
      replace (Z.of_nat (length ds + 1)) with (Z.succ (Z.of_nat (length ds)))
        in * by lia.
      rewrite Z.pow_succ_r in * by lia.
      assert (Hp : 0 < 10 ^ Z.of_nat (length ds))
        by (apply Z.pow_pos_nonneg; lia).
      rewrite <- app_assoc; cbn [app].
      rewrite Hscan by nia.
      destruct (len - length ds)%nat as [|k] eqn:Hk; [lia|].
      rewrite scan_digit by nia.
      replace (len - (length ds + 1))%nat with k by lia.
      f_equal; nia.
Qed.

Lemma pow10_64 : 2 ^ 64 < 10 ^ Z.of_nat 64.
Proof. vm_compute; reflexivity. Qed.

Lemma scan_decimal_digits (n : Z) (rest : list ascii) (len : nat) :
  0 <= n < 2 ^ 64 ->
  (length (to_string n) <= len)%nat ->
  len = length (to_string n) \/ (exists t, rest = " "%char :: t) ->
  files.scan_decimal (to_string n ++ rest) len = n.
Proof.
  intros Hn Hlen Hrest; unfold files.scan_decimal, to_string in *.
  destruct (digits_aux_scan 63 n []) as (ds & Hds & _ & _ & Hscan);
    [pose proof pow10_64; lia|].
  rewrite app_nil_r in Hds; rewrite Hds in *.
  rewrite Hscan by (try assumption; lia).
  cbn [Z.mul Z.add].
  destruct Hrest as [->|[t ->]].
  - rewrite Nat.sub_diag; destruct rest; reflexivity.
  - destruct (len - length ds)%nat; reflexivity.
Qed.

(** X2. [scan_decimal] reads back what [operator<<] printed: a number below
    [2^64], printed in decimal, scans to itself when a space follows the
    digits within the [len] characters scanned or when the digits are
    all of the [len] characters. In both cases the scan ends inside the
    characters handed to it. *)
Theorem scan_decimal_to_string (n : Z) (rest : list ascii) (len : nat) :
  0 <= n < 2 ^ 64 ->
  (length (to_string n) <= len)%nat ->
  len = length (to_string n) \/ (exists t, rest = " "%char :: t) ->
  files.scan_decimal (to_string n ++ rest) len = n.
Proof. apply scan_decimal_digits. Qed.

Lemma scan_decimal_to_string_witness :
  files.scan_decimal (to_string 1234 ++ str "      `") 10 = 1234.
Proof.
  apply scan_decimal_to_string.
  - lia.
  - vm_compute; lia.
  - right; eexists; reflexivity.
Defined.

(** ** Archive headers *)

Lemma length_pad (n : nat) (s : list ascii) : length (pad n s) = n.
Proof.
  unfold pad; rewrite length_app, repeat_length.
  pose proof (firstn_le_length n s); lia.
Qed.

Lemma poke_exact (a bytes : list ascii) (at_ r : nat) :
  length a = at_ ->
  files.poke at_ bytes (a ++ repeat " "%char (length bytes + r))
  = (a ++ bytes) ++ repeat " "%char r.
Proof.
  intros <-; unfold files.poke.
  rewrite firstn_app, Nat.sub_diag, firstn_all, firstn_O, app_nil_r.
  rewrite skipn_app, skipn_all2 by lia.
  replace (length a + length bytes - length a)%nat with (length bytes) by lia.
  rewrite repeat_app, skipn_app, repeat_length, Nat.sub_diag, skipn_O.
  rewrite skipn_all2 by (rewrite repeat_length; lia).
  rewrite <- app_assoc; reflexivity.
Qed.

Lemma poke_pad (a s : list ascii) (at_ k r : nat) :
  length a = at_ ->
  files.poke at_ (firstn k s) (a ++ repeat " "%char (k + r))
  = (a ++ pad k s) ++ repeat " "%char r.
Proof.
  intros Ha; unfold pad.
  pose proof (firstn_le_length k s) as Hk.
  replace (k + r)%nat
    with (length (firstn k s) + ((k - length (firstn k s)) + r))%nat by lia.
  rewrite (poke_exact a (firstn k s) at_ _ Ha), repeat_app.
  rewrite <- !app_assoc; reflexivity.
Qed.

Lemma write_header_fields (name : list ascii) (mtime uid gid mode size : Z) :
  files.write_header name mtime uid gid mode size
  = pad 16 name
    ++ pad 12 (to_string (wrap32 mtime))
    ++ pad 6 (to_string (wrap32 uid))
    ++ pad 6 (to_string (wrap32 gid))
    ++ pad 8 (to_octal (wrap32 mode))
    ++ pad 10 (to_string (wrap32 size))
    ++ [byte_of 96; byte_of 10].
Proof.
  unfold files.write_header, files.set_number.
  unfold files.rld_archive_fhdr_size, files.rld_archive_fname,
    files.rld_archive_fname_size, files.rld_archive_mtime,
    files.rld_archive_mtime_size, files.rld_archive_uid,
    files.rld_archive_uid_size, files.rld_archive_gid,
    files.rld_archive_gid_size, files.rld_archive_mode,
    files.rld_archive_mode_size, files.rld_archive_size,
    files.rld_archive_size_size, files.rld_archive_magic.
  change (repeat " "%char 60) with ([] ++ repeat " "%char (16 + 44)).
  rewrite (poke_pad [] name 0 16 44 eq_refl).
  change 44%nat with (12 + 32)%nat.
  rewrite (poke_pad _ _ 16 12 32)
    by (rewrite !length_app, !length_pad; reflexivity).
  change 32%nat with (6 + 26)%nat.
  rewrite (poke_pad _ _ 28 6 26)
    by (rewrite !length_app, !length_pad; reflexivity).
  change 26%nat with (6 + 20)%nat.
  rewrite (poke_pad _ _ 34 6 20)
    by (rewrite !length_app, !length_pad; reflexivity).
  change 20%nat with (8 + 12)%nat.
  rewrite (poke_pad _ _ 40 8 12)
    by (rewrite !length_app, !length_pad; reflexivity).
  change (repeat " "%char 12) with (repeat " "%char (10 + 2)).
  rewrite (poke_pad _ _ 48 10 2)
    by (rewrite !length_app, !length_pad; reflexivity).
  change (repeat " "%char 2)
    with (repeat " "%char (length [byte_of 96; byte_of 10] + 0)).
  rewrite (poke_exact _ [byte_of 96; byte_of 10] 58 0)
    by (rewrite !length_app, !length_pad; reflexivity).
  cbn [repeat app]; rewrite app_nil_r, <- !app_assoc; reflexivity.
Qed.

(** X3. [write_header] lays the sixty bytes out as the [ar] format has them:
    the name in 16 bytes, the time in 12, the two owners in 6 each, the
    mode in octal in 8, the size in 10, every field cut to its width and
    filled with spaces, and the two bytes of the magic. *)
Theorem write_header_layout (name : list ascii) (mtime uid gid mode size : Z) :
  files.write_header name mtime uid gid mode size
  = pad 16 name
    ++ pad 12 (to_string (wrap32 mtime))
    ++ pad 6 (to_string (wrap32 uid))
    ++ pad 6 (to_string (wrap32 gid))
    ++ pad 8 (to_octal (wrap32 mode))
    ++ pad 10 (to_string (wrap32 size))
    ++ [byte_of 96; byte_of 10].
Proof. apply write_header_fields. Qed.

Lemma length_write_header (name : list ascii) (mtime uid gid mode size : Z) :
  length (files.write_header name mtime uid gid mode size) = 60%nat.
Proof. rewrite write_header_fields, !length_app, !length_pad; reflexivity. Qed.

Lemma to_string_length (n : Z) (m : nat) :
  0 <= n < 2 ^ 64 -> n < 10 ^ Z.of_nat m -> (1 <= m)%nat ->
  (1 <= length (to_string n) <= m)%nat.
Proof.
  intros Hn Hm Hm1; unfold to_string.
  destruct (digits_aux_scan 63 n []) as (ds & Hds & Hlen & Hmin & _);
    [pose proof pow10_64; lia|].
  rewrite app_nil_r in Hds; rewrite Hds.
  split; [exact Hlen | apply Hmin; assumption].
Qed.

Lemma land_wrap64_r (o n : Z) :
  0 <= o < 2 ^ 64 -> Z.land o (wrap64 n) = Z.land o n.
Proof.
  intros Ho; unfold wrap64.
  rewrite <- (Z.land_ones n 64) by lia.
  transitivity (Z.land n (Z.land o (Z.ones 64))).
  - rewrite (Z.land_comm n (Z.ones 64)), Z.land_assoc.
    apply Z.land_comm.
  - rewrite (Z.land_ones o 64) by lia.
    rewrite (Z.mod_small o) by exact Ho.
    apply Z.land_comm.
Qed.

(** [(x + 1) & ~1] rounds [x] up to an even number. *)
Lemma round_to_even (x : Z) :
  0 <= x < 2 ^ 32 ->
  Z.land (wrap64 (x + 1)) (wrap64 (Z.lnot 1)) = x + x mod 2.
Proof.
  intros Hx.
  assert (Hw : wrap64 (x + 1) = x + 1) by (apply Z.mod_small; lia).
  rewrite Hw, land_wrap64_r by lia.
  rewrite <- Z.ldiff_land.
  change 1 with (Z.ones 1) at 2.
  rewrite Z.ldiff_ones_r, Z.shiftr_div_pow2, Z.shiftl_mul_pow2 by lia.
  change (2 ^ 1) with 2.
  pose proof (Z.div_mod (x + 1) 2 ltac:(lia)) as H1.
  pose proof (Z.mod_pos_bound (x + 1) 2 ltac:(lia)) as H2.
  pose proof (Z.div_mod x 2 ltac:(lia)) as H3.
  pose proof (Z.mod_pos_bound x 2 ltac:(lia)) as H4.
  lia.
Qed.

(** X4. A header that [write_header] wrote is read back by [read_header]
    wherever it lies in a file, and its size field gives [load_objects]
    the size it was written with, rounded up to an even number. *)
Theorem write_header_read_back (name pre post : list ascii)
  (mtime uid gid mode size : Z) :
  let header := files.write_header name mtime uid gid mode size in
  length header = 60%nat
  /\ files.read_header (pre ++ header ++ post) (Z.of_nat (length pre))
     = Ok (Some header)
  /\ files.member_size header = wrap32 size + wrap32 size mod 2.
Proof.
  cbv zeta.
  assert (Hlen : length (files.write_header name mtime uid gid mode size) = 60%nat).
  { rewrite write_header_fields, !length_app, !length_pad; reflexivity. }
  split; [exact Hlen|]. split.
  - unfold files.read_header.
    destruct (Z.ltb_spec (Z.of_nat (length pre)) 0); [lia|].
    rewrite Nat2Z.id, skipn_app, Nat.sub_diag, skipn_all, skipn_O.
    cbn [app].
    assert (Hf : firstn 60 (files.write_header name mtime uid gid mode size
                            ++ post)
                 = files.write_header name mtime uid gid mode size).
    { rewrite <- Hlen at 1; apply firstn_length_app. }
    unfold files.rld_archive_fhdr_size; rewrite Hf, Hlen.
    change (60 <? 60)%nat with false; cbv iota.
    rewrite write_header_fields, !app_assoc.
    unfold files.rld_archive_magic.
    rewrite !app_nth2 by (rewrite !length_app, !length_pad; cbn; lia).
    rewrite !length_app, !length_pad; reflexivity.
  - unfold files.member_size, files.rld_archive_size,
      files.rld_archive_size_size.
    rewrite write_header_fields, !app_assoc.
    rewrite <- (app_assoc _ (pad 10 _)).
    rewrite skipn_app, skipn_all2
      by (rewrite !length_app, !length_pad; cbn; lia).
    rewrite !length_app, !length_pad; cbn [Nat.add Nat.sub skipn app].
    pose proof (wrap32_range size) as Hs.
    destruct (to_string_length (wrap32 size) 10) as [Hk1 Hk10];
      [lia | change (10 ^ Z.of_nat 10) with 10000000000; lia | lia |].
    unfold pad; rewrite firstn_all2 by exact Hk10.
    rewrite <- app_assoc, scan_decimal_digits; [|lia|exact Hk10|].
    + apply round_to_even; exact Hs.
    + destruct (10 - length (to_string (wrap32 size)))%nat eqn:Hd.
      * left; lia.
      * right; eexists; reflexivity.
Qed.

(** ** The names of files *)

Lemma to_string_injective (a b : Z) :
  0 <= a < 2 ^ 64 -> 0 <= b < 2 ^ 64 -> to_string a = to_string b -> a = b.
Proof.
  intros Ha Hb Heq.
  rewrite <- (scan_decimal_digits a [] (length (to_string a)) Ha)
    by (auto; lia).
  rewrite <- (scan_decimal_digits b [] (length (to_string b)) Hb)
    by (auto; lia).
  rewrite Heq; reflexivity.
Qed.

Lemma to_string_signed_nonneg (n : Z) :
  0 <= n -> to_string_signed n = to_string n.
Proof.
  intros H; unfold to_string_signed.
  destruct (Z.ltb_spec n 0); [lia | reflexivity].
Qed.

(** The key of a member of an archive. *)
Lemma full_member (ar name : list ascii) (off size : Z) :
  ar <> [] -> name <> [] ->
  files.full (files.mk_file ar name off size)
  = ar ++ ":"%char :: name ++ "@"%char :: to_string_signed off.
Proof.
  intros Har Hname; unfold files.full.
  cbn [files.aname_ files.oname_ files.offset_].
  destruct ar as [|a ar]; [contradiction|].
  destruct name as [|n name]; [contradiction|].
  cbn [is_empty negb andb].
  rewrite <- !app_assoc; reflexivity.
Qed.

(** X5. The key of a member in the map of objects, [file::full ()], tells
    apart two members of one archive that have the same name: with
    different offsets the keys differ. *)
Theorem full_tells_offsets_apart (ar name : list ascii) (off off' size size' : Z) :
  ar <> [] -> name <> [] ->
  0 <= off < 2 ^ 64 -> 0 <= off' < 2 ^ 64 ->
  off <> off' ->
  files.full (files.mk_file ar name off size)
  <> files.full (files.mk_file ar name off' size').
Proof.
  intros Har Hname Hoff Hoff' Hne Heq; apply Hne.
  rewrite !full_member, !to_string_signed_nonneg in Heq by (assumption || lia).
  apply app_inv_head in Heq.
  injection Heq as Heq.
  apply app_inv_head in Heq.
  injection Heq as Heq.
  apply to_string_injective; assumption.
Qed.

Lemma full_tells_offsets_apart_witness :
  68 <> 200
  /\ files.full (files.mk_file (str "libx.a") (str "a.o") 68 4)
     <> files.full (files.mk_file (str "libx.a") (str "a.o") 200 4).
Proof.
  split; [lia|].
  apply full_tells_offsets_apart; [discriminate | discriminate | lia | lia | lia].
Defined.

Lemma find_last_of_none (c : ascii) (s : list ascii) :
  ~ In c s -> find_last_of s c = None.
Proof.
  intros H; pose proof (find_last_of_spec c s) as Hs.
  destruct (find_last_of s c) as [i|]; [|reflexivity].
  destruct Hs as (dir & Hd & _); exfalso; apply H.
  rewrite Hd; apply in_or_app; right; now left.
Qed.

Lemma find_last_of_app (c : ascii) (pre t : list ascii) :
  ~ In c t -> find_last_of (pre ++ c :: t) c = Some (length pre).
Proof.
  intros H; induction pre as [|x pre IH]; cbn [app find_last_of length].
  - rewrite (find_last_of_none c t H), Ascii.eqb_refl; reflexivity.
  - rewrite IH; reflexivity.
Qed.

(** X6. [file::set]: an empty path leaves the file as it is. A path that is
    no object names an archive and takes its size from [stat]. The path
    of an object without a colon (or with the last colon not beyond the
    drive separator) is the object's name. Otherwise the object's name is
    what follows the last colon, the size is not looked up, and the
    archive's name is the path up to the colon less its last character:
    [substr (0, colon - 1)] takes [colon - 1] characters. *)
Theorem file_set_parses (drive : Z) (stat_size : list ascii -> option Z)
  (path : list ascii) :
  (path = [] ->
   forall is_object f, files.file_set drive stat_size path is_object f = f)
  /\ (path <> [] ->
      files.file_of_path drive stat_size path false
      = files.mk_file path [] 0 (match stat_size path with
                                 | Some sz => sz
                                 | None => 0
                                 end))
  /\ (path <> [] -> ~ In ":"%char path ->
      files.file_of_path drive stat_size path true
      = files.mk_file [] path 0 (match stat_size path with
                                 | Some sz => sz
                                 | None => 0
                                 end))
  /\ (forall a c o,
         path = a ++ c :: ":"%char :: o -> ~ In ":"%char o ->
         size_of path < 2 ^ 64 ->
         drive < Z.of_nat (length a + 1) ->
         files.file_of_path drive stat_size path true
         = files.mk_file a o 0 0).
Proof.
  split; [intros -> is_object f; reflexivity|].
  split; [|split].
  - intros Hp; unfold files.file_of_path, files.file_set.
    destruct path; [contradiction|]; cbn [is_empty].
    destruct (stat_size _); reflexivity.
  - intros Hp Hno; unfold files.file_of_path, files.file_set.
    rewrite (find_last_of_none _ _ Hno).
    destruct path; [contradiction|]; cbn [is_empty].
    destruct (stat_size _); reflexivity.
  - intros a c o -> Hno Hsize Hdrive.
    unfold files.file_of_path, files.file_set.
    replace (a ++ c :: ":"%char :: o) with ((a ++ [c]) ++ ":"%char :: o)
      in * by (rewrite <- app_assoc; reflexivity).
    rewrite (find_last_of_app _ _ _ Hno).
    assert (Hne : is_empty ((a ++ [c]) ++ ":"%char :: o) = false)
      by (destruct a; reflexivity).
    rewrite Hne, length_app; cbn [length].
    rewrite Z.gtb_ltb.
    destruct (Z.ltb_spec drive (Z.of_nat (length a + 1))); [|lia].
    cbn [files.aname_ files.oname_ files.offset_ files.size_ files.file_default].
    f_equal.
    + unfold files.substr, wrap64.
      unfold size_of in *; rewrite !length_app in *; cbn [length] in *.
      rewrite Z.mod_small by lia.
      rewrite Z.min_l by lia.
      replace (Z.to_nat (Z.of_nat (length a + 1) - 1)) with (length a) by lia.
      cbn [Z.to_nat skipn].
      rewrite <- !app_assoc.
      apply firstn_length_app.
    + replace (S (length a + 1)) with (length ((a ++ [c]) ++ [":"%char]))
        by (rewrite !length_app; cbn [length]; lia).
      replace ((a ++ [c]) ++ ":"%char :: o)
        with (((a ++ [c]) ++ [":"%char]) ++ o)
        by (rewrite <- !app_assoc; reflexivity).
      apply skipn_length_app.
Qed.

Lemma file_set_parses_witness :
  files.file_of_path 1 (fun _ => Some 100) (str "libx.a:a.o") true
  = files.mk_file (str "libx.") (str "a.o") 0 0.
Proof.
  destruct (file_set_parses 1 (fun _ => Some 100) (str "libx.a:a.o"))
    as (_ & _ & _ & H).
  apply (H (str "libx.") "a"%char (str "a.o")).
  - reflexivity.
  - intros Hin; repeat destruct Hin as [Hin|Hin]; try discriminate; exact Hin.
  - vm_compute; reflexivity.
  - vm_compute; reflexivity.
Defined.

(** ** Objects of one archive *)

Lemma run_open_again (writable : bool) (ret : Z) (rest : list files.call)
  (img : files.image) :
  files.path (files.name_ img) <> [] ->
  0 <= files.fd_ img ->
  files.references_ img < INT_MAX ->
  files.run (files.do_open writable ret :: rest) img
  = files.mk_transition img (files.do_open writable ret)
      (files.mk_image (files.name_ img) (files.references_ img + 1)
                      (files.fd_ img))
      [] (Ok tt)
    :: files.run rest
         (files.mk_image (files.name_ img) (files.references_ img + 1)
                         (files.fd_ img)).
Proof.
  intros Hp Hfd Hr; rewrite run_cons; cbn [files.step].
  unfold files.image_open.
  destruct (files.path (files.name_ img)); [contradiction|]; cbn [is_empty].
  destruct (Z.ltb_spec (files.fd_ img) 0); [lia|]; cbn [negb].
  destruct (Z.eqb_spec (files.references_ img) INT_MAX); [lia|].
  reflexivity.
Qed.

Lemma run_first_open (writable : bool) (ret : Z) (rest : list files.call)
  (name : files.file) :
  files.path name <> [] -> 0 <= ret ->
  files.run (files.do_open writable ret :: rest) (files.image_of name)
  = files.mk_transition (files.image_of name) (files.do_open writable ret)
      (files.mk_image name 1 ret)
      [files.sys_open (files.path name) writable ret] (Ok tt)
    :: files.run rest (files.mk_image name 1 ret).
Proof.
  intros Hp Hret; rewrite run_cons; cbn [files.step].
  unfold files.image_open, files.image_of;
    cbn [files.name_ files.fd_ files.references_].
  destruct (files.path name); [contradiction|]; cbn [is_empty].
  change (-1 <? 0) with true; cbv iota.
  destruct (Z.ltb_spec ret 0); [lia|]; reflexivity.
Qed.

Lemma run_close_one_of_many (rest : list files.call) (img : files.image) :
  2 <= files.references_ img ->
  files.run (files.do_close :: rest) img
  = files.mk_transition img files.do_close
      (files.mk_image (files.name_ img) (files.references_ img - 1)
                      (files.fd_ img))
      [] (Ok tt)
    :: files.run rest
         (files.mk_image (files.name_ img) (files.references_ img - 1)
                         (files.fd_ img)).
Proof.
  intros Hr; rewrite run_cons; cbn [files.step]; unfold files.image_close.
  rewrite Z.gtb_ltb.
  destruct (Z.ltb_spec 0 (files.references_ img)); [|lia].
  destruct (Z.eqb_spec (files.references_ img - 1) 0); [lia|].
  reflexivity.
Qed.

Lemma run_close_last (rest : list files.call) (img : files.image) :
  files.references_ img = 1 ->
  files.run (files.do_close :: rest) img
  = files.mk_transition img files.do_close
      (files.mk_image (files.name_ img) 0 (-1))
      [files.sys_close (files.fd_ img)] (Ok tt)
    :: files.run rest (files.mk_image (files.name_ img) 0 (-1)).
Proof.
  intros Hr; rewrite run_cons; cbn [files.step]; unfold files.image_close.
  rewrite Hr; reflexivity.
Qed.

Lemma last_image_cons (t : files.transition) (ts : list files.transition)
  (img : files.image) :
  shared.last_image (t :: ts) img = shared.last_image ts (files.after t).
Proof.
  unfold shared.last_image; cbn [map]; apply last_cons_default.
Qed.

Lemma closes_run (n : nat) :
  forall (name : files.file) (fd : Z),
    let ts := files.run (repeat files.do_close (S n))
                        (files.mk_image name (Z.of_nat (S n)) fd) in
    flat_map files.made ts = [files.sys_close fd]
    /\ Forall (fun t => files.how t = Ok tt) ts
    /\ shared.last_image ts (files.mk_image name (Z.of_nat (S n)) fd)
       = files.image_of name.
Proof.
  induction n as [|n IH]; intros name fd; cbv zeta.
  - cbn [repeat]; rewrite run_close_last by reflexivity.
    cbn [files.run flat_map files.made app files.fd_ files.name_].
    repeat split; repeat constructor.
  - change (repeat files.do_close (S (S n)))
      with (files.do_close :: repeat files.do_close (S n)).
    rewrite run_close_one_of_many by (cbn [files.references_]; lia).
    cbn [files.name_ files.references_ files.fd_].
    replace (Z.of_nat (S (S n)) - 1) with (Z.of_nat (S n)) by lia.
    destruct (IH name fd) as (Hm & Hok & Hlast).
    cbn [flat_map files.made app]; rewrite last_image_cons; cbn [files.after].
    split; [exact Hm|]. split; [constructor; [reflexivity | exact Hok]|].
    exact Hlast.
Qed.

Lemma opens_then (opens : list (bool * Z)) :
  forall (rest : list files.call) (img : files.image),
    files.path (files.name_ img) <> [] ->
    0 <= files.fd_ img ->
    files.references_ img + Z.of_nat (length opens) <= INT_MAX ->
    let img' := files.mk_image (files.name_ img)
                  (files.references_ img + Z.of_nat (length opens))
                  (files.fd_ img) in
    let ts := files.run (map (fun o => files.do_open (fst o) (snd o)) opens
                         ++ rest) img in
    flat_map files.made ts = flat_map files.made (files.run rest img')
    /\ (Forall (fun t => files.how t = Ok tt) (files.run rest img') ->
        Forall (fun t => files.how t = Ok tt) ts)
    /\ (rest <> [] ->
        shared.last_image ts img = shared.last_image (files.run rest img') img').
Proof.
  induction opens as [|[w r] opens IH]; intros rest img Hp Hfd Hlen; cbv zeta.
  - cbn [map app length]; rewrite Z.add_0_r.
    destruct img as [name refs fd]; cbn [files.name_ files.references_ files.fd_].
    repeat split; auto.
  - cbn [map app fst snd length] in *.
    rewrite run_open_again by (auto; lia).
    cbn [flat_map files.made app]; rewrite last_image_cons; cbn [files.after].
    destruct (IH rest (files.mk_image (files.name_ img)
                         (files.references_ img + 1) (files.fd_ img)))
      as (Hm & Hok & Hlast);
      cbn [files.name_ files.references_ files.fd_]; auto; try lia.
    cbn [files.name_ files.references_ files.fd_] in *.
    replace (files.references_ img + 1 + Z.of_nat (length opens))
      with (files.references_ img + Z.of_nat (S (length opens))) in * by lia.
    split; [exact Hm|]. split.
    + intros H; constructor; [reflexivity | exact (Hok H)].
    + exact Hlast.
Qed.

(** X7. One archive, any number of users: when the first [open] is answered
    with a descriptor, any further [open] of the image, each for one
    more member object, calls nothing; the same number of [close] then
    calls [::close] once, at the last, and leaves the image as it was
    before the first [open]. *)
Theorem archive_opened_once (name : files.file) (writable : bool) (ret : Z)
  (others : list (bool * Z)) :
  files.path name <> [] ->
  0 <= ret ->
  Z.of_nat (S (length others)) <= INT_MAX ->
  let cs := files.do_open writable ret
            :: map (fun o => files.do_open (fst o) (snd o)) others
            ++ repeat files.do_close (S (length others)) in
  let ts := files.run cs (files.image_of name) in
  flat_map files.made ts
  = [files.sys_open (files.path name) writable ret; files.sys_close ret]
  /\ Forall (fun t => files.how t = Ok tt) ts
  /\ shared.last_image ts (files.image_of name) = files.image_of name.
Proof.
  intros Hp Hret Hlen; cbv zeta.
  rewrite run_first_open by assumption.
  cbn [flat_map files.made app]; rewrite last_image_cons; cbn [files.after].
  destruct (opens_then others (repeat files.do_close (S (length others)))
              (files.mk_image name 1 ret))
    as (Hm & Hok & Hlast);
    cbn [files.name_ files.references_ files.fd_]; auto; try lia.
  cbn [files.name_ files.references_ files.fd_] in *.
  replace (1 + Z.of_nat (length others)) with (Z.of_nat (S (length others)))
    in * by lia.
  destruct (closes_run (length others) name ret) as (Hcm & Hcok & Hclast).
  rewrite Hm, Hcm, Hlast, Hclast by discriminate.
  split; [reflexivity|]. split; [|reflexivity].
  constructor; [reflexivity | exact (Hok Hcok)].
Qed.

Lemma archive_opened_once_witness :
  let cs := [files.do_open false 3; files.do_open false 4; files.do_open false 5;
             files.do_close; files.do_close; files.do_close] in
  flat_map files.made
    (files.run cs (files.image_of (files.mk_file (str "libx.a") [] 0 0)))
  = [files.sys_open (str "libx.a") false 3; files.sys_close 3].
Proof.
  cbv zeta.
  apply (archive_opened_once (files.mk_file (str "libx.a") [] 0 0) false 3
           [(false, 4); (false, 5)]).
  - discriminate.
  - lia.
  - vm_compute; discriminate.
Defined.

(** An object that belongs to an archive opens and closes the image of
    the archive, as [image::open] and [image::close] do, and leaves its
    own image alone. *)
Lemma member_uses_archive_image (ret : Z) (o : files.object)
  (path : list ascii) (ar : files.image) :
  files.archive_ o = Some path ->
  shared.object_open ret o ar
  = (let '(ar', calls, r) := files.step (files.do_open false ret) ar in
     (o, ar', calls, r))
  /\ shared.object_close o ar
     = (let '(ar', calls, r) := files.step files.do_close ar in
        (o, ar', calls, r)).
Proof.
  intros H; unfold shared.object_open, shared.object_close; rewrite H.
  split; reflexivity.
Qed.

(** ** Searching for libraries *)

Lemma path_join_defined (sep : ascii) (p f : list ascii) :
  p <> [] -> f <> [] -> size_of p < 2 ^ 64 ->
  exists r, snd (files.path_join sep p f) = Ok r.
Proof.
  intros Hp Hf Hsz.
  destruct (exists_last Hp) as [q [a ->]].
  destruct (string_at_last q a Hsz) as [Hw Hl].
  destruct f as [|c t]; [contradiction|].
  destruct (string_at_second c t) as [x Hx].
  unfold files.path_join, files.index; rewrite Hw, Hl, string_at_first.
  cbn -[Ascii.eqb size_of string_at c_str skipn].
  destruct (Ascii.eqb a sep), (Ascii.eqb c sep);
    cbn -[Ascii.eqb size_of string_at c_str skipn];
    rewrite ?Hx; cbn -[Ascii.eqb size_of string_at c_str skipn];
    eexists; reflexivity.
Qed.

Lemma path_join_empty_directory (sep : ascii) (f : list ascii) :
  snd (files.path_join sep [] f) = Undefined.
Proof. reflexivity. Qed.

Lemma library_file_not_empty (l : list ascii) : search.library_file l <> [].
Proof. discriminate. Qed.

Lemma find_library_spec (sep : ascii) (check_file : list ascii -> bool)
  (lib : list ascii) (libpaths : list (list ascii)) :
  lib <> [] ->
  Forall (fun p => size_of p < 2 ^ 64) libpaths ->
  match search.find_library sep check_file lib libpaths with
  | Ok (Some plib) =>
      exists before p after,
        libpaths = before ++ p :: after
        /\ snd (files.path_join sep p lib) = Ok plib
        /\ check_file plib = true
        /\ Forall (fun q => exists j,
                     snd (files.path_join sep q lib) = Ok j
                     /\ check_file j = false) before
  | Ok None =>
      Forall (fun q => exists j,
                snd (files.path_join sep q lib) = Ok j
                /\ check_file j = false) libpaths
  | Throw _ => False
  | Undefined => In [] libpaths
  end.
Proof.
  intros Hlib Hsz; induction libpaths as [|p rest IH];
    cbn [search.find_library]; [constructor|].
  inversion Hsz as [|? ? Hp Hrest]; subst.
  destruct p as [|c p].
  - rewrite path_join_empty_directory; cbn [bind]; now left.
  - destruct (path_join_defined sep (c :: p) lib) as [j Hj];
      [discriminate | assumption | assumption |].
    rewrite Hj; cbn [bind].
    destruct (check_file j) eqn:Hc.
    + exists [], (c :: p), rest; repeat split; auto.
    + specialize (IH Hrest).
      destruct (search.find_library sep check_file lib rest) as [[plib|]| |].
      * destruct IH as (before & q & after & -> & Hq & Hcq & Hb).
        exists ((c :: p) :: before), q, after; repeat split; auto.
        constructor; [exists j; split; assumption | exact Hb].
      * constructor; [exists j; split; assumption | exact IH].
      * exact IH.
      * now right.
Qed.

Lemma find_libraries_from_spec (sep : ascii) (check_file : list ascii -> bool)
  (libpaths : list (list ascii)) :
  Forall (fun p => size_of p < 2 ^ 64) libpaths ->
  forall libs acc,
    match search.find_libraries_from sep check_file acc libpaths libs with
    | search.Libraries libraries =>
        exists new, libraries = acc ++ new
                    /\ Forall2 (search.library_at sep check_file libpaths)
                               libs new
    | search.NotFound lib =>
        exists before l after,
          libs = before ++ l :: after
          /\ lib = search.library_file l
          /\ search.library_nowhere sep check_file libpaths l
          /\ Forall (fun l' => exists plib,
                       search.library_at sep check_file libpaths l' plib)
                    before
    | search.UndefinedJoin => In [] libpaths
    end.
Proof.
  intros Hsz libs; induction libs as [|l rest IH]; intros acc;
    cbn [search.find_libraries_from].
  - exists []; rewrite app_nil_r; split; [reflexivity | constructor].
  - pose proof (find_library_spec sep check_file (search.library_file l)
                  libpaths (library_file_not_empty l) Hsz) as Hl.
    destruct (search.find_library sep check_file (search.library_file l)
                libpaths) as [[plib|]| |].
    + specialize (IH (acc ++ [plib])).
      destruct (search.find_libraries_from sep check_file (acc ++ [plib])
                  libpaths rest) as [libraries|lib|].
      * destruct IH as (new & -> & Hnew).
        exists (plib :: new); rewrite <- app_assoc; split; [reflexivity|].
        constructor; [exact Hl | exact Hnew].
      * destruct IH as (before & l' & after & -> & Hlib & Hno & Hb).
        exists (l :: before), l', after; repeat split; auto.
        constructor; [exists plib; exact Hl | exact Hb].
      * exact IH.
    + exists [], l, rest; repeat split; auto.
    + destruct Hl.
    + exact Hl.
Qed.

(** X8. [find_libraries]: when it returns, it has found for every library,
    in order, the first library path whose join with [lib<name>.a] is a
    regular file; when it throws, it names the first library that is in
    none of the paths; and the joins are all defined unless a library
    path is empty. *)
Theorem find_libraries_finds_first (sep : ascii)
  (check_file : list ascii -> bool) (libpaths libs : list (list ascii)) :
  Forall (fun p => size_of p < 2 ^ 64) libpaths ->
  match search.find_libraries sep check_file libpaths libs with
  | search.Libraries libraries =>
      Forall2 (search.library_at sep check_file libpaths) libs libraries
  | search.NotFound lib =>
      exists before l after,
        libs = before ++ l :: after
        /\ lib = search.library_file l
        /\ search.library_nowhere sep check_file libpaths l
        /\ Forall (fun l' => exists plib,
                     search.library_at sep check_file libpaths l' plib)
                  before
  | search.UndefinedJoin => In [] libpaths
  end.
Proof.
  intros Hsz; unfold search.find_libraries.
  pose proof (find_libraries_from_spec sep check_file libpaths Hsz libs []) as H.
  destruct (search.find_libraries_from sep check_file [] libpaths libs);
    [|exact H|exact H].
  destruct H as (new & -> & Hnew); exact Hnew.
Qed.

Lemma find_libraries_finds_first_witness :
  Forall2
    (search.library_at "/"
       (fun p => if list_eq_dec ascii_dec p (str "/usr/lib/libc.a")
                 then true else false)
       [str "/opt/lib"; str "/usr/lib/"])
    [str "c"] [str "/usr/lib/libc.a"].
Proof.
  pose proof (find_libraries_finds_first "/"
                (fun p => if list_eq_dec ascii_dec p (str "/usr/lib/libc.a")
                          then true else false)
                [str "/opt/lib"; str "/usr/lib/"] [str "c"]) as H.
  assert (E : search.find_libraries "/"
                (fun p => if list_eq_dec ascii_dec p (str "/usr/lib/libc.a")
                          then true else false)
                [str "/opt/lib"; str "/usr/lib/"] [str "c"]
              = search.Libraries [str "/usr/lib/libc.a"])
    by (vm_compute; reflexivity).
  rewrite E in H; apply H.
  repeat constructor.
Defined.

Lemma find_file_as_find_library (sep : ascii) (check_file : list ascii -> bool)
  (name : list ascii) (paths : list (list ascii)) :
  search.find_file sep check_file name paths
  = (found <- search.find_library sep check_file name paths ;;
     Ok (match found with Some path => path | None => [] end)).
Proof.
  induction paths as [|p rest IH]; cbn [search.find_file search.find_library];
    [reflexivity|].
  destruct (snd (files.path_join sep p name)) as [j| |]; cbn [bind];
    try reflexivity.
  destruct (check_file j); [reflexivity | exact IH].
Qed.

(** X9. [find_file]: the path it leaves is the first join of a search path
    with the name that is a regular file, or empty when there is none. *)
Theorem find_file_finds_first (sep : ascii) (check_file : list ascii -> bool)
  (name : list ascii) (paths : list (list ascii)) :
  name <> [] ->
  Forall (fun p => size_of p < 2 ^ 64) paths ->
  match search.find_file sep check_file name paths with
  | Ok path =>
      (path = []
       /\ Forall (fun q => exists j, snd (files.path_join sep q name) = Ok j
                                     /\ check_file j = false) paths)
      \/ (exists before p after,
             paths = before ++ p :: after
             /\ snd (files.path_join sep p name) = Ok path
             /\ check_file path = true
             /\ Forall (fun q => exists j,
                          snd (files.path_join sep q name) = Ok j
                          /\ check_file j = false) before)
  | Throw _ => False
  | Undefined => In [] paths
  end.
Proof.
  intros Hname Hsz; rewrite find_file_as_find_library.
  pose proof (find_library_spec sep check_file name paths Hname Hsz) as H.
  destruct (search.find_library sep check_file name paths) as [[path|]| |];
    cbn [bind]; auto.
Qed.

Lemma find_file_finds_first_witness :
  search.find_file "/" (fun _ => false) (str "libc.a")
                   [str "/opt/lib"; str "/usr/lib/"] = Ok [].
Proof.
  pose proof (find_file_finds_first "/" (fun _ => false) (str "libc.a")
                [str "/opt/lib"; str "/usr/lib/"]) as H.
  destruct (search.find_file _ _ _ _) as [path| |] eqn:E.
  - destruct H as [[-> _]|(before & p & after & _ & _ & Hc & _)];
      [discriminate | repeat constructor | reflexivity | discriminate Hc].
  - vm_compute in E; discriminate E.
  - vm_compute in E; discriminate E.
Defined.

(** ** More on folding section records *)

Lemma round_up_multiple (o a : Z) :
  0 <= o < 2 ^ 32 -> 1 <= a <= 31 ->
  wrap32 (rap.round_up_documented o a) mod 2 ^ (a - 1) = 0.
Proof.
  intros Ho Ha; unfold rap.round_up_documented.
  assert (Hk : 0 < 2 ^ (a - 1)) by (apply Z.pow_pos_nonneg; lia).
  assert (Hdiv : (2 ^ (a - 1) | 2 ^ 32)).
  { exists (2 ^ (32 - (a - 1))).
    rewrite <- Z.pow_add_r by lia; f_equal; lia. }
  unfold wrap32.
  rewrite Z.mod_mod_divide by exact Hdiv.
  rewrite Z.shiftl_1_l.
  replace (2 ^ (a - 1) - 1) with (Z.ones (a - 1))
    by (rewrite Z.ones_equiv; lia).
  rewrite Z.land_ones by lia.
  destruct (Z.eqb_spec (o mod 2 ^ (a - 1)) 0) as [Hz|Hnz]; [exact Hz|].
  rewrite <- Z.ldiff_land, Z.ldiff_ones_r by lia.
  rewrite Z.shiftl_mul_pow2, Z.shiftl_1_l by lia.
  replace (2 ^ a) with (2 * 2 ^ (a - 1))
    by (rewrite <- Z.pow_succ_r by lia; f_equal; lia).
  rewrite <- Z.mul_add_distr_r.
  apply Z.mod_mul; lia.
Qed.

(** X10. A [+=] of a record that is not empty and that returns: the group
    had no alignment yet or the alignment of the record, that alignment
    is between 1 and 31, the size of the record is added, and the offset
    of the group is a multiple of [2^(align - 1)]. *)
Theorem section_add_success (g sec g' : rap.section) :
  rap.section_add g sec = Ok g' ->
  rap.size sec <> 0 ->
  0 <= rap.align g < 2 ^ 32 ->
  0 <= rap.align sec < 2 ^ 32 ->
  (rap.align g = 0 \/ rap.align g = rap.align sec)
  /\ 1 <= rap.align sec <= 31
  /\ rap.align g' = rap.align sec
  /\ rap.name g' = rap.name g
  /\ rap.size g' = wrap32 (rap.size g + rap.size sec)
  /\ rap.offset g' mod 2 ^ (rap.align sec - 1) = 0.
Proof.
  intros Hadd Hsize Hg Hs.
  assert (Hstart : rap.align g = 0 \/ rap.align g = rap.align sec).
  { unfold rap.section_add in Hadd.
    destruct (Z.eqb_spec (rap.size sec) 0); [contradiction|].
    destruct (Z.eqb_spec (rap.align g) 0); [now left|].
    destruct (Z.eqb_spec (rap.align g) (rap.align sec)); [now right|].
    discriminate Hadd. }
  assert (Hrange : 1 <= rap.align sec <= 31).
  { unfold rap.section_add in Hadd.
    destruct (Z.eqb_spec (rap.size sec) 0); [contradiction|].
    assert (Ha : (if rap.align g =? 0 then Ok (rap.align sec)
                  else if negb (rap.align g =? rap.align sec)
                       then Throw AlignmentMismatch else Ok (rap.align g))
                 = Ok (rap.align sec)).
    { destruct Hstart as [->| ->]; [reflexivity|].
      destruct (Z.eqb_spec (rap.align sec) 0); [reflexivity|].
      rewrite Z.eqb_refl; reflexivity. }
    rewrite Ha in Hadd; cbn [bind] in Hadd.
    destruct (negb (rap.size g =? 0) && (rap.align sec =? 0));
      [discriminate|].
    unfold shl_one, int_sub in Hadd.
    destruct (Z.eq_dec (rap.align sec) 0) as [Hz|Hnz].
    - rewrite Hz in Hadd; vm_compute in Hadd; discriminate.
    - rewrite (wrap32_small (rap.align sec - 1)) in Hadd by lia.
      destruct (Z.ltb_spec (rap.align sec - 1) 31); [lia|].
      destruct (Z.eqb_spec (rap.align sec - 1) 31) as [E|E].
      + cbn [bind] in Hadd; vm_compute in Hadd; discriminate.
      + discriminate. }
  rewrite (section_add_defined g sec Hsize Hrange Hstart) in Hadd.
  inversion Hadd; subst g'; cbn [rap.align rap.name rap.size rap.offset].
  repeat split; auto; try lia.
  apply round_up_multiple; [apply wrap32_range | exact Hrange].
Qed.

Lemma section_add_success_witness :
  rap.offset (rap.mk_section (str ".text") 5 8 2) mod 2 ^ (2 - 1) = 0.
Proof.
  apply (section_add_success (rap.mk_section (str ".text") 0 0 0)
                             (rap.mk_section (str ".text") 5 0 2)
                             (rap.mk_section (str ".text") 5 8 2)).
  - reflexivity.
  - cbn; lia.
  - cbn; lia.
  - cbn; lia.
Defined.

(** ** The sizes of the groups of an image *)

Lemma section_add_size (g sec g' : rap.section) :
  rap.section_add g sec = Ok g' ->
  0 <= rap.size g < 2 ^ 32 ->
  rap.size g' = wrap32 (rap.size g + rap.size sec)
  /\ rap.name g' = rap.name g.
Proof.
  unfold rap.section_add; intros H Hg.
  destruct (Z.eqb_spec (rap.size sec) 0) as [Hz|Hnz].
  - inversion H; subst g'; rewrite Hz, Z.add_0_r, wrap32_small by exact Hg.
    split; reflexivity.
  - destruct (if rap.align g =? 0 then Ok (rap.align sec)
              else if negb (rap.align g =? rap.align sec)
                   then Throw AlignmentMismatch else Ok (rap.align g))
      as [a| |]; cbn [bind] in H; try discriminate.
    destruct (negb (rap.size g =? 0) && (a =? 0)); [discriminate|].
    destruct (shl_one (wrap32 (a - 1))) as [one| |];
      cbn [bind] in H; try discriminate.
    destruct (int_sub one 1) as [m| |]; cbn [bind] in H; try discriminate.
    destruct (negb (Z.land (wrap32 (rap.offset sec + rap.size sec)) (wrap32 m)
                    =? 0)).
    + destruct (shl_one a) as [inc| |]; cbn [bind] in H; try discriminate.
      inversion H; split; reflexivity.
    + inversion H; split; reflexivity.
Qed.

Lemma add_groups_each (o : rap.object) (secs secs' : rap.secs_t) :
  rap.add_groups rap.rap_secs o secs = Ok secs' ->
  forall s,
    rap.section_add (rap.get_sec secs s) (rap.get_sec (rap.obj_secs o) s)
    = Ok (rap.get_sec secs' s).
Proof.
  unfold rap.rap_secs; cbn [rap.add_groups]; intros H.
  repeat match type of H with
         | bind ?c _ = _ =>
             let g := fresh "g" in
             let E := fresh "E" in
             destruct c as [g| |] eqn:E; cbn [bind] in H; try discriminate H
         end.
  inversion H; subst secs'; clear H.
  cbn [rap.get_sec rap.set_sec rap.s_text rap.s_const rap.s_ctor rap.s_dtor
       rap.s_data rap.s_bss] in *.
  intros s; destruct s; cbn [rap.get_sec rap.s_text rap.s_const rap.s_ctor
                             rap.s_dtor rap.s_data rap.s_bss]; assumption.
Qed.

Lemma layout_objects_sizes (todo : list rap.object) :
  forall img img',
    rap.layout_objects todo img = Ok img' ->
    sizes_in_range (rap.secs img) ->
    0 <= rap.relocs_size img < 2 ^ 32 ->
    (forall s,
        rap.size (rap.get_sec (rap.secs img') s)
        = wrap32 (rap.size (rap.get_sec (rap.secs img) s)
                  + rap_more.zsum
                      (map (fun o => rap.size (rap.get_sec (rap.obj_secs o) s))
                           todo))
        /\ rap.name (rap.get_sec (rap.secs img') s)
           = rap.name (rap.get_sec (rap.secs img) s))
    /\ rap.relocs_size img'
       = wrap32 (rap.relocs_size img
                 + rap_more.zsum (map rap.obj_relocs_size todo))
    /\ rap.objs img' = rap.objs img.
Proof.
  induction todo as [|o rest IH]; intros img img' Hrun Hsecs Hrel.
  - inversion Hrun; subst img'; cbn [map rap_more.zsum fold_right].
    split; [|split; [rewrite Z.add_0_r, wrap32_small by exact Hrel|]; reflexivity].
    intros s; rewrite Z.add_0_r, wrap32_small by apply Hsecs.
    split; reflexivity.
  - rewrite layout_objects_cons in Hrun.
    destruct (rap.add_groups rap.rap_secs o (rap.secs img)) as [secs'| |] eqn:Ea;
      cbn [bind] in Hrun; try discriminate.
    destruct (rap.collect o _ _) as [img1| |] eqn:Hc;
      cbn [bind] in Hrun; try discriminate.
    destruct (collect_tables _ _ _ _ Hc) as (_ & _ & _ & Ho1 & Hs1 & Hr1).
    cbn [rap.objs rap.secs rap.relocs_size] in Ho1, Hs1, Hr1.
    pose proof (add_groups_each o _ _ Ea) as Heach.
    assert (Hstep : forall s,
               rap.size (rap.get_sec secs' s)
               = wrap32 (rap.size (rap.get_sec (rap.secs img) s)
                         + rap.size (rap.get_sec (rap.obj_secs o) s))
               /\ rap.name (rap.get_sec secs' s)
                  = rap.name (rap.get_sec (rap.secs img) s)).
    { intros s; apply section_add_size; [apply Heach | apply Hsecs]. }
    destruct (IH _ _ Hrun) as (Hsz & Hrl & Hob);
      cbn [rap.secs rap.relocs_size rap.objs].
    { intros s; rewrite Hs1; destruct (Hstep s) as [-> _]; apply wrap32_range. }
    { apply wrap32_range. }
    cbn [rap.secs rap.relocs_size rap.objs] in Hsz, Hrl, Hob.
    split; [|split].
    + intros s; destruct (Hsz s) as [Hsize Hname].
      rewrite Hs1 in Hsize, Hname; destruct (Hstep s) as [Hs Hn].
      rewrite Hsize, Hname, Hs, Hn, wrap32_add_l.
      cbn [map rap_more.zsum fold_right].
      split; [f_equal; unfold rap_more.zsum; lia | reflexivity].
    + rewrite Hrl, Hr1, wrap32_add_l.
      cbn [map rap_more.zsum fold_right]; f_equal; unfold rap_more.zsum; lia.
    + rewrite Hob, Ho1; reflexivity.
Qed.

(** X11. [image::layout], when it returns on a fresh image: the image holds
    one object for each input object; the size of each of the six groups
    is the sum, in [uint32_t], of the sizes of that group in the objects,
    the group keeps its name, and [relocs_size] is the sum of the sizes
    of the relocation sections of the objects. *)
Theorem layout_sums_groups (apps : list rap.app_object) (img : rap.image) :
  rap.layout apps rap.image_default = Ok img ->
  rap.objs img = map rap.object_of apps
  /\ (forall s,
         rap.size (rap.get_sec (rap.secs img) s)
         = wrap32 (rap_more.zsum
                     (map (fun a => rap.size
                                      (rap.get_sec
                                         (rap.obj_secs (rap.object_of a)) s))
                          apps))
         /\ rap.name (rap.get_sec (rap.secs img) s) = rap.section_names s)
  /\ rap.relocs_size img
     = wrap32 (rap_more.zsum
                 (map (fun a => rap.obj_relocs_size (rap.object_of a)) apps)).
Proof.
  unfold rap.layout; intros H.
  destruct (rap.push_objects apps _) as [objs'| |] eqn:Hp;
    cbn [bind] in H; try discriminate.
  apply push_objects_all in Hp; cbn [rap.objs rap.image_default app] in Hp.
  subst objs'.
  destruct (layout_objects_sizes _ _ _ H) as (Hsz & Hrl & Hob).
  { intros s; destruct s; cbn; lia. }
  { cbn; lia. }
  cbn [rap.objs rap.secs rap.relocs_size rap.image_default] in Hsz, Hrl, Hob.
  split; [exact Hob|]. split.
  - intros s; destruct (Hsz s) as [Hsize Hname].
    rewrite Hsize, Hname, map_map.
    split; [destruct s; reflexivity | destruct s; reflexivity].
  - rewrite Hrl, map_map; reflexivity.
Qed.

Lemma layout_sums_groups_witness :
  exists img,
    rap.layout [rap.e1_object; rap.e4_object] rap.image_default = Ok img
    /\ rap.size (rap.get_sec (rap.secs img) rap.rap_text) = 12.
Proof.
  destruct (rap.layout [rap.e1_object; rap.e4_object] rap.image_default)
    as [img| |] eqn:E; try (vm_compute in E; discriminate E).
  exists img; split; [reflexivity|].
  destruct (layout_sums_groups _ _ E) as (_ & Hs & _).
  destruct (Hs rap.rap_text) as [-> _]; reflexivity.
Defined.

(** X12. [image::layout] throws [NotValid] as soon as one object of the list
    is not valid, whatever the others are; the image is not laid out. *)
Theorem layout_rejects_invalid (apps : list rap.app_object) (img : rap.image) :
  existsb (fun a => negb (rap.app_valid a)) apps = true ->
  rap.layout apps img = Throw NotValid.
Proof.
  intros H; unfold rap.layout.
  assert (G : forall objs, rap.push_objects apps objs = Throw NotValid).
  { induction apps as [|a rest IH]; intros objs; [discriminate|].
    cbn [existsb rap.push_objects] in *.
    destruct (rap.app_valid a); cbn [negb orb] in *; [|reflexivity].
    apply IH; exact H. }
  rewrite G; reflexivity.
Qed.

Lemma layout_rejects_invalid_witness :
  rap.layout [rap.e1_object;
              rap.mk_app_object (files.mk_file [] (str "b.o") 0 0) false
                                (fun _ _ _ => []) (fun _ => []) []]
             rap.image_default
  = Throw NotValid.
Proof. apply layout_rejects_invalid; reflexivity. Defined.

(** ** The whole stream *)

Lemma length_put_externals {comp : rap.compressor} (exts : list rap.external) :
  length (flat_map rap.put_external exts) = (12 * length exts)%nat.
Proof.
  induction exts as [|e rest IH]; [reflexivity|].
  cbn [flat_map length]; unfold rap.put_external at 1.
  rewrite !length_app, !rap.put_u32_size, IH; lia.
Qed.

Lemma length_group_bytes {comp : rap.compressor}
  (g : rap.object -> list rap.elf_section) (objs : list rap.object) :
  (forall o off sz, length (rap.pull o off sz) = Z.to_nat sz) ->
  length (rap_more.group_bytes g objs) = rap_more.group_length g objs.
Proof.
  intros Hpull; unfold rap_more.group_bytes, rap_more.group_length.
  assert (Hsecs : forall (o : rap.object) (secs : list rap.elf_section),
             length (flat_map (fun sec => rap.pull (rap.obj o)
                                            (rap.sec_offset sec)
                                            (rap.sec_size sec)) secs)
             = list_sum (map (fun sec => Z.to_nat (rap.sec_size sec)) secs)).
  { intros o secs; induction secs as [|sec secs IHs]; [reflexivity|].
    cbn [flat_map map list_sum]; rewrite length_app, Hpull, IHs; reflexivity. }
  induction objs as [|o rest IH]; [reflexivity|].
  cbn [flat_map map list_sum]; rewrite length_app, IH, Hsecs; reflexivity.
Qed.

(** X13. The stream that [image::write] hands to the compressor, in order:
    the eight words of the header; size, alignment and offset of each of
    the six groups; for [.text], then [.const], [.ctor], [.dtor] and
    [.data], the sections of the group in all the objects, object after
    object, each section as the range of the file of its object from its
    offset for its size, and nothing for [.bss]; the string table with
    the two labels; and three words for each external. With a compressor
    that finds as many bytes as it is asked for, the length of the stream
    is 104, the sizes of the sections of the five groups, the length of
    the string table and twelve for each external. *)
Theorem write_stream_layout {comp : rap.compressor} (elf : rap.elf_ident)
  (init fini : list ascii) (img : rap.image) :
  let out := snd (rap.write elf init fini img) in
  let table := rap.strtab img ++ init ++ [NUL] ++ fini ++ [NUL] in
  let header :=
    rap.put_u32 (rap.object_machine_type elf)
    ++ rap.put_u32 (rap.object_datatype elf)
    ++ rap.put_u32 (rap.object_class elf)
    ++ rap.put_u32 (wrap32 (size_of (rap.strtab img)))
    ++ rap.put_u32 (wrap32 (size_of (rap.strtab img ++ init ++ [NUL])))
    ++ rap.put_u32 (rap.symtab_size img)
    ++ rap.put_u32 (wrap32 (size_of table))
    ++ rap.put_u32 0 in
  let groups :=
    flat_map (fun s => rap.put_u32 (rap.size (rap.get_sec (rap.secs img) s))
                       ++ rap.put_u32 (rap.align (rap.get_sec (rap.secs img) s))
                       ++ rap.put_u32 (rap.offset (rap.get_sec (rap.secs img) s)))
             [rap.rap_text; rap.rap_const; rap.rap_ctor; rap.rap_dtor;
              rap.rap_data; rap.rap_bss] in
  let externals :=
    flat_map (fun ext => rap.put_u32 (rap_more.packed ext)
                         ++ rap.put_u32 (rap.ext_name ext)
                         ++ rap.put_u32 (rap.ext_value ext))
             (rap.externs img) in
  out = header ++ groups
        ++ rap_more.group_bytes rap.text (rap.objs img)
        ++ rap_more.group_bytes rap.const_ (rap.objs img)
        ++ rap_more.group_bytes rap.ctor (rap.objs img)
        ++ rap_more.group_bytes rap.dtor (rap.objs img)
        ++ rap_more.group_bytes rap.data (rap.objs img)
        ++ table ++ externals
  /\ length header = 32%nat
  /\ length groups = 72%nat
  /\ length externals = (12 * length (rap.externs img))%nat
  /\ ((forall o off sz, length (rap.pull o off sz) = Z.to_nat sz) ->
      length out
      = (32 + 72
         + (rap_more.group_length rap.text (rap.objs img)
            + rap_more.group_length rap.const_ (rap.objs img)
            + rap_more.group_length rap.ctor (rap.objs img)
            + rap_more.group_length rap.dtor (rap.objs img)
            + rap_more.group_length rap.data (rap.objs img))
         + (length (rap.strtab img) + length init + 1 + length fini + 1)
         + 12 * length (rap.externs img))%nat).
Proof.
  cbv zeta.
  match goal with
  | |- ?out = ?h ++ ?g ++ ?t ++ ?c ++ ?ct ++ ?dt ++ ?d ++ ?tb ++ ?e /\ _ =>
      assert (Hout : out = h ++ g ++ t ++ c ++ ct ++ dt ++ d ++ tb ++ e);
      [| assert (Hh : length h = 32%nat);
         [| assert (Hg : length g = 72%nat);
            [| assert (He : length e = (12 * length (rap.externs img))%nat)]]]
  end.
  - unfold rap.write, rap_more.group_bytes, rap.section_writer,
      rap.write_sections, rap.rap_secs; cbn [snd].
    rewrite <- !app_assoc; reflexivity.
  - rewrite !length_app, !rap.put_u32_size; reflexivity.
  - cbn [flat_map]; rewrite !length_app, !rap.put_u32_size; reflexivity.
  - apply length_put_externals.
  - split; [exact Hout|]. split; [exact Hh|]. split; [exact Hg|].
    split; [exact He|]. intros Hpull.
    rewrite Hout, length_app, Hh, length_app, Hg, !length_app, He.
    rewrite !(length_group_bytes _ _ Hpull).
    cbn [length]; lia.
Qed.

(** The image of scenario E1 of the design document: one object with a
    [.text] of four bytes and the external [foo]. *)
Lemma write_stream_layout_witness :
  length (snd (@rap.write rap.plain_compressor rap.sparc_elf (str "init")
                 (str "fini")
                 (rap.mk_image [rap.object_of rap.e1_object]
                    (rap.secs rap.image_default)
                    [rap.mk_external 2 rap.rap_text 0 18] 12
                    (str "foo" ++ [NUL]) 0)))
  = (32 + 72 + 4 + 14 + 12)%nat.
Proof.
  destruct (@write_stream_layout rap.plain_compressor rap.sparc_elf
              (str "init") (str "fini")
              (rap.mk_image [rap.object_of rap.e1_object]
                 (rap.secs rap.image_default)
                 [rap.mk_external 2 rap.rap_text 0 18] 12
                 (str "foo" ++ [NUL]) 0)) as (_ & _ & _ & _ & H).
  rewrite H; [reflexivity|].
  intros o off sz; apply repeat_length.
Defined.

(** X14. The first word of an external holds the group in its high half and
    the [st_info] of the symbol, which ELF keeps in one byte, in its low
    half: both are read back from the word. *)
Theorem external_word_unpacks {comp : rap.compressor} (ext : rap.external) :
  0 <= rap.ext_data ext < 2 ^ 16 ->
  rap.put_external ext
  = rap.put_u32 (rap_more.packed ext) ++ rap.put_u32 (rap.ext_name ext)
    ++ rap.put_u32 (rap.ext_value ext)
  /\ Z.shiftr (rap_more.packed ext) 16 = rap.section_number (rap.ext_sec ext)
  /\ Z.land (rap_more.packed ext) (Z.ones 16) = rap.ext_data ext.
Proof.
  intros Hd; split; [reflexivity|].
  unfold rap_more.packed, wrap32.
  rewrite <- Z.land_ones by lia.
  assert (Hk : 0 <= rap.section_number (rap.ext_sec ext) < 2 ^ 16)
    by (destruct (rap.ext_sec ext); cbn; lia).
  split.
  - rewrite Z.shiftr_land, Z.shiftr_lor, Z.shiftr_shiftl_l by lia.
    rewrite Z.sub_diag, Z.shiftl_0_r.
    rewrite (Z.shiftr_div_pow2 (rap.ext_data ext)), Z.div_small by lia.
    rewrite Z.lor_0_r.
    change (Z.shiftr (Z.ones 32) 16) with (Z.ones 16).
    rewrite Z.land_ones by lia.
    apply Z.mod_small; exact Hk.
  - rewrite <- Z.land_assoc.
    change (Z.land (Z.ones 32) (Z.ones 16)) with (Z.ones 16).
    rewrite Z.land_lor_distr_l, !Z.land_ones by lia.
    rewrite Z.shiftl_mul_pow2, Z.mod_mul by lia.
    rewrite Z.lor_0_l; apply Z.mod_small; exact Hd.
Qed.

Lemma external_word_unpacks_witness :
  Z.shiftr (rap_more.packed (rap.mk_external 2 rap.rap_data 0 18)) 16 = 4
  /\ Z.land (rap_more.packed (rap.mk_external 2 rap.rap_data 0 18)) (Z.ones 16)
     = 18.
Proof.
  destruct (@external_word_unpacks rap.plain_compressor
              (rap.mk_external 2 rap.rap_data 0 18)) as (_ & H1 & H2).
  - cbn; lia.
  - split; [exact H1 | exact H2].
Defined.

(** ** Finding the group of a section *)

(** X15. [object::find]: it returns the first of the six groups, in the
    order text, const, ctor, dtor, data, bss, that holds a section of the
    index, and throws [SectionIndexNotFound] exactly when none does. *)
Theorem object_find_first_group (o : rap.object) (index : Z) :
  (forall s,
      rap.object_find o index = Ok s <->
      rap.found (rap_more.group o s) index = true
      /\ Forall (fun s' => rap.found (rap_more.group o s') index = false)
                (rap_more.earlier s))
  /\ (rap.object_find o index = Throw SectionIndexNotFound <->
      Forall (fun s => rap.found (rap_more.group o s) index = false)
             rap.rap_secs)
  /\ rap.object_find o index <> Undefined.
Proof.
  split; [|split].
  - intros s; unfold rap.object_find.
    destruct s;
      cbv [rap_more.earlier rap.section_number rap.rap_secs Z.to_nat
           Pos.to_nat Pos.iter_op Nat.add firstn rap_more.group];
      rewrite ?Forall_cons_iff, ?Forall_nil_iff;
      destruct (rap.found (rap.text o) index),
               (rap.found (rap.const_ o) index),
               (rap.found (rap.ctor o) index),
               (rap.found (rap.dtor o) index),
               (rap.found (rap.data o) index),
               (rap.found (rap.bss o) index);
      intuition (try discriminate; try congruence).
  - unfold rap.object_find;
      cbv [rap.rap_secs rap_more.group];
      rewrite ?Forall_cons_iff, ?Forall_nil_iff;
      destruct (rap.found (rap.text o) index),
               (rap.found (rap.const_ o) index),
               (rap.found (rap.ctor o) index),
               (rap.found (rap.dtor o) index),
               (rap.found (rap.data o) index),
               (rap.found (rap.bss o) index);
      intuition (try discriminate; try congruence).
  - unfold rap.object_find.
    destruct (rap.found (rap.text o) index),
             (rap.found (rap.const_ o) index),
             (rap.found (rap.ctor o) index),
             (rap.found (rap.dtor o) index),
             (rap.found (rap.data o) index),
             (rap.found (rap.bss o) index); discriminate.
Qed.

(** ** Reading a well-formed archive *)

Lemma to_signed64_small (z : Z) : 0 <= z < 2 ^ 63 -> to_signed64 z = z.
Proof.
  intros H; unfold to_signed64, wrap64.
  rewrite Z.mod_small by lia.
  destruct (Z.ltb_spec z (2 ^ 63)); lia.
Qed.

Lemma read_header_at (pre h rest : list ascii) :
  length h = 60%nat ->
  nth 58 h NUL = byte_of 96 -> nth 59 h NUL = byte_of 10 ->
  files.read_header (pre ++ h ++ rest) (Z.of_nat (length pre)) = Ok (Some h).
Proof.
  intros Hlen H58 H59; unfold files.read_header.
  destruct (Z.ltb_spec (Z.of_nat (length pre)) 0); [lia|].
  rewrite Nat2Z.id, skipn_length_app.
  unfold files.rld_archive_fhdr_size, files.rld_archive_magic.
  assert (Hf : firstn 60 (h ++ rest) = h)
    by (rewrite <- Hlen; apply firstn_length_app).
  rewrite Hf, Hlen, H58, H59; reflexivity.
Qed.

Lemma read_header_at_end (pre : list ascii) :
  files.read_header pre (Z.of_nat (length pre)) = Ok None.
Proof.
  unfold files.read_header.
  destruct (Z.ltb_spec (Z.of_nat (length pre)) 0); [lia|].
  rewrite Nat2Z.id, skipn_all; reflexivity.
Qed.

(** ** Writing an archive *)

Lemma find_first_of_some (s set : list ascii) (c : ascii) :
  In c s -> mem c set = true -> find_first_of s set <> None.
Proof.
  induction s as [|x t IH]; intros Hin Hmem; [destruct Hin|].
  cbn [find_first_of].
  destruct (mem x set) eqn:Hx; [discriminate|].
  destruct Hin as [->|Hin]; [congruence|].
  specialize (IH Hin Hmem).
  destruct (find_first_of t set); [discriminate | contradiction].
Qed.

Lemma mem_last (name : list ascii) (c : ascii) : mem c (name ++ [c]) = true.
Proof.
  unfold mem; rewrite existsb_app; cbn [existsb].
  rewrite Ascii.eqb_refl, orb_true_r; reflexivity.
Qed.

Lemma stored_name_defined (sep : ascii) (objects : list files.source)
  (o : files.source) :
  In o objects ->
  exists n, files.stored_name sep (files.extended_names sep objects) o = Ok n.
Proof.
  intros Hin; unfold files.stored_name.
  destruct (Nat.ltb_spec files.rld_archive_fname_size
              (length (files.basename sep (files.oname_ (fst o)))))
    as [Hlong|Hshort]; [|eexists; reflexivity].
  assert (Hlf : In files.LF (files.extended_names sep objects)).
  { unfold files.extended_names; apply in_flat_map; exists o.
    split; [exact Hin|].
    apply Nat.ltb_lt in Hlong; rewrite Hlong.
    apply in_or_app; right; now left. }
  pose proof (find_first_of_some
                (files.extended_names sep objects)
                (files.basename sep (files.oname_ (fst o)) ++ [files.LF])
                files.LF Hlf
                (mem_last (files.basename sep (files.oname_ (fst o))) files.LF))
    as Hsome.
  destruct (find_first_of _ _); [eexists; reflexivity | contradiction].
Qed.

Lemma members_outcome (sep : ascii) (table : list ascii)
  (objects : list files.source) :
  (forall o, In o objects -> exists n, files.stored_name sep table o = Ok n) ->
  (Forall fits objects ->
   exists ms,
     files.members sep table objects = Ok ms
     /\ length ms
        = fold_right (fun o acc => 60 + Z.to_nat (files.size_ (fst o)) + acc)%nat
                     0%nat objects)
  /\ (Exists (fun o => ~ fits o) objects ->
      files.members sep table objects = Throw InputTooShort).
Proof.
  induction objects as [|o rest IH]; intros Hnames.
  - split; [intros _; exists []; split; reflexivity|].
    intros H; inversion H.
  - destruct (Hnames o (or_introl eq_refl)) as [n Hn].
    destruct IH as [IHok IHshort];
      [intros o' Ho'; apply Hnames; now right|].
    cbn [files.members]; unfold files.member; rewrite Hn; cbn [bind].
    unfold fits in *.
    destruct (Z.ltb_spec (size_of (snd o)) (files.size_ (fst o))) as [Hs|Hs].
    + split; [intros H; inversion H; subst; lia | reflexivity].
    + cbn [bind]; split.
      * intros H; inversion H as [|? ? Ho Hrest]; subst.
        destruct (IHok Hrest) as (ms & -> & Hlen); cbn [bind].
        eexists; split; [reflexivity|].
        rewrite !length_app, length_write_header, length_firstn, Hlen.
        cbn [fold_right]; unfold size_of in Hs; lia.
      * intros H; inversion H as [? ? Ho|? ? Hrest]; subst; [lia|].
        rewrite (IHshort Hrest); reflexivity.
Qed.

(** X17. [archive::create]: when every object holds the bytes of its recorded
    size, it writes the identifier, the table of long names with its
    header when there is any long name, and for every object a header of
    sixty bytes and the bytes of the object, without padding. When an
    object is shorter than its recorded size it throws [InputTooShort];
    it throws nothing else, the test for a long name that is not in the
    table never being met. *)
Theorem create_outcome (sep : ascii) (objects : list files.source) :
  (Forall fits objects ->
   exists archive,
     files.create sep objects = Ok archive
     /\ firstn 8 archive = files.rld_archive_ident
     /\ length archive
        = members.created_length (files.extended_names sep objects) objects)
  /\ (Exists (fun o => ~ fits o) objects ->
      files.create sep objects = Throw InputTooShort).
Proof.
  destruct (members_outcome sep (files.extended_names sep objects) objects)
    as [Hok Hshort]; [intros o Ho; apply stored_name_defined; exact Ho|].
  unfold files.create; split.
  - intros Hfits; destruct (Hok Hfits) as (ms & -> & Hlen); cbn [bind].
    eexists; split; [reflexivity|]. split; [reflexivity|].
    unfold members.created_length.
    rewrite !length_app, Hlen.
    destruct (files.extended_names sep objects) as [|c t]; cbn [is_empty].
    + reflexivity.
    + rewrite length_app, length_write_header.
      change (length files.rld_archive_ident) with 8%nat.
      cbn [length]; lia.
  - intros H; rewrite (Hshort H); reflexivity.
Qed.

Lemma create_outcome_witness :
  exists archive,
    files.create "/" [(files.mk_file [] (str "dir/a.o") 0 4, str "ELF1")]
    = Ok archive
    /\ length archive = 72%nat.
Proof.
  destruct (create_outcome "/"
              [(files.mk_file [] (str "dir/a.o") 0 4, str "ELF1")])
    as [H _].
  destruct H as (archive & Hc & _ & Hlen).
  - repeat constructor; unfold fits; cbn; lia.
  - exists archive; split; [exact Hc | rewrite Hlen; reflexivity].
Defined.

(** ** Reading the members of an archive *)

Lemma read_header_short (pre tail : list ascii) :
  (length tail < 60)%nat ->
  files.read_header (pre ++ tail) (Z.of_nat (length pre)) = Ok None.
Proof.
  intros Hshort; unfold files.read_header.
  destruct (Z.ltb_spec (Z.of_nat (length pre)) 0); [lia|].
  rewrite Nat2Z.id, skipn_length_app.
  unfold files.rld_archive_fhdr_size.
  rewrite firstn_all2 by lia.
  destruct (Nat.ltb_spec (length tail) 60); [reflexivity | lia].
Qed.

Lemma read_header_bad_magic (pre tail : list ascii) :
  (60 <= length tail)%nat ->
  nth 58 tail NUL <> byte_of 96 \/ nth 59 tail NUL <> byte_of 10 ->
  files.read_header (pre ++ tail) (Z.of_nat (length pre)) = Throw InvalidHeader.
Proof.
  intros Hlong Hmagic; unfold files.read_header.
  destruct (Z.ltb_spec (Z.of_nat (length pre)) 0); [lia|].
  rewrite Nat2Z.id, skipn_length_app.
  unfold files.rld_archive_fhdr_size, files.rld_archive_magic.
  rewrite length_firstn, Nat.min_l by lia.
  destruct (Nat.ltb_spec 60 60); [lia|].
  rewrite !nth_firstn.
  destruct (Nat.ltb_spec 58 60); [|lia].
  destruct (Nat.ltb_spec 59 60); [|lia].
  destruct (Ascii.eqb_spec (nth 58 tail NUL) (byte_of 96)) as [E1|E1];
    destruct (Ascii.eqb_spec (nth 59 tail NUL) (byte_of 10)) as [E2|E2];
    cbn [negb orb]; try reflexivity.
  destruct Hmagic; contradiction.
Qed.

Lemma load_loop_first (fuel : nat) (ar data : list ascii) (table offset : Z)
  (objs : files.objects) :
  files.load_loop (S fuel) ar data table offset objs
  = match files.read_header data offset with
    | Throw e => Some (Throw e)
    | Undefined => Some Undefined
    | Ok None => Some (Ok objs)
    | Ok (Some header) =>
        files.load_loop (S fuel) ar data table offset objs
    end.
Proof.
  cbn [files.load_loop].
  destruct (files.read_header data offset) as [[header|]| |]; reflexivity.
Qed.

(** One round of the loop on a header whose name does not begin with
    ['/']. *)
Lemma load_loop_step (fuel : nat) (ar data header : list ascii)
  (table offset : Z) (objs : files.objects) :
  files.read_header data offset = Ok (Some header) ->
  Ascii.eqb (nth 0 header NUL) "/" = false ->
  files.load_loop (S fuel) ar data table offset objs
  = match files.add_object ar objs header (offset + 60)
                           (files.member_size header) with
    | Ok objs' =>
        files.load_loop fuel ar data table
          (to_signed64 (offset + files.member_size header + 60)) objs'
    | Throw e => Some (Throw e)
    | Undefined => Some Undefined
    end.
Proof.
  intros Hread Hslash; cbn [files.load_loop]; rewrite Hread, Hslash.
  reflexivity.
Qed.

Lemma scan_name_stops (name rest : list ascii) (c : ascii) :
  c = NUL \/ c = "/"%char ->
  ~ In NUL name -> ~ In "/"%char name ->
  files.scan_name (name ++ c :: rest) = Some name.
Proof.
  intros Hc Hnul Hslash; induction name as [|x name IH]; cbn [app files.scan_name].
  - destruct Hc as [-> | ->]; reflexivity.
  - destruct (Ascii.eqb_spec x NUL) as [->|_]; [exfalso; apply Hnul; now left|].
    destruct (Ascii.eqb_spec x "/"%char) as [->|_];
      [exfalso; apply Hslash; now left|].
    cbn [orb]; rewrite IH; [reflexivity | |];
      intros Hin; [apply Hnul | apply Hslash]; now right.
Qed.

Lemma add_object_member (ar name rest : list ascii) (c : ascii)
  (objs : files.objects) (offset size : Z) :
  c = NUL \/ c = "/"%char ->
  ~ In NUL name -> ~ In "/"%char name ->
  files.add_object ar objs (name ++ c :: rest) offset size
  = Ok (files.assign
          (files.full (files.mk_file ar name offset size))
          (files.mk_object (files.image_of (files.mk_file ar name offset size))
                           (Some ar))
          objs).
Proof.
  intros Hc Hnul Hslash; unfold files.add_object.
  rewrite (scan_name_stops name rest c Hc Hnul Hslash).
  unfold files.object_of_member; cbn [files.image_of files.name_].
  rewrite is_valid_always; reflexivity.
Qed.

(** An assignment changes what the map holds for its key and for no
    other. *)
Lemma lookup_assign (key k : list ascii) (o : files.object)
  (objs : files.objects) :
  members.lookup key (files.assign k o objs)
  = if list_eq_dec ascii_dec k key then Some o else members.lookup key objs.
Proof.
  induction objs as [|[k0 v] rest IH]; cbn [files.assign members.lookup].
  - reflexivity.
  - destruct (list_eq_dec ascii_dec k0 k) as [E|E]; cbn [members.lookup].
    + subst k0; destruct (list_eq_dec ascii_dec k key); reflexivity.
    + rewrite IH.
      destruct (list_eq_dec ascii_dec k0 key) as [E1|E1]; [|reflexivity].
      destruct (list_eq_dec ascii_dec k key) as [E2|E2];
        [congruence | reflexivity].
Qed.

Lemma lookup_none (key : list ascii) (es : files.objects) :
  ~ In key (map fst es) -> members.lookup key es = None.
Proof.
  induction es as [|[k o] es IH]; cbn [members.lookup map fst In];
    intros H; [reflexivity|].
  destruct (list_eq_dec ascii_dec k key) as [E|E]; [exfalso; auto|].
  apply IH; auto.
Qed.

Lemma updated_nil (objs : files.objects) : members.updated [] objs objs.
Proof. intros key; reflexivity. Qed.

(** Entries of distinct keys may go into the map one at a time. *)
Lemma updated_cons (k : list ascii) (o : files.object)
  (es objs objs' : files.objects) :
  ~ In k (map fst es) ->
  members.updated es (files.assign k o objs) objs' ->
  members.updated ((k, o) :: es) objs objs'.
Proof.
  intros Hk H key; rewrite (H key), lookup_assign; cbn [members.lookup].
  destruct (list_eq_dec ascii_dec k key) as [E|E]; [|reflexivity].
  subst key; rewrite (lookup_none k es Hk); reflexivity.
Qed.

(** The size that [load_objects] takes from a size field. *)
Lemma member_size_field (h : list ascii) (n : Z) :
  0 <= n < 2 ^ 32 ->
  firstn 10 (skipn 48 h) = pad 10 (to_string n) ->
  files.member_size h = n + n mod 2.
Proof.
  intros Hn Hfield.
  unfold files.member_size, files.rld_archive_size, files.rld_archive_size_size.
  rewrite <- (firstn_skipn 10 (skipn 48 h)), Hfield.
  destruct (to_string_length n 10) as [Hk1 Hk10];
    [lia | change (10 ^ Z.of_nat 10) with 10000000000; lia | lia |].
  unfold pad; rewrite firstn_all2 by exact Hk10.
  rewrite <- app_assoc, scan_decimal_digits; [|lia|exact Hk10|].
  - apply round_to_even; exact Hn.
  - destruct (10 - length (to_string n))%nat eqn:Hd.
    + left; lia.
    + right; eexists; reflexivity.
Qed.

(** The digits of a number are digits: none of them is the ['@'] of a
    key. *)
Lemma digits_aux_no_at (fuel : nat) :
  forall (n : Z) (acc : list ascii),
    0 <= n -> ~ In "@"%char acc -> ~ In "@"%char (digits_aux fuel 10 n acc).
Proof.
  induction fuel as [|fuel IH]; intros n acc Hn Hacc; cbn [digits_aux];
    [exact Hacc|].
  assert (Hr : 0 <= n mod 10 < 10) by (apply Z.mod_pos_bound; lia).
  assert (Hd : ~ In "@"%char (byte_of (48 + n mod 10) :: acc)).
  { intros [E|E]; [|contradiction].
    apply (f_equal code) in E.
    destruct (digit_char (n mod 10) Hr) as [_ Hc]; rewrite Hc in E.
    change (code "@"%char) with 64 in E; lia. }
  destruct (n / 10 =? 0); [exact Hd|].
  apply IH; [apply Z.div_pos; lia | exact Hd].
Qed.

Lemma to_string_no_at (n : Z) : 0 <= n -> ~ In "@"%char (to_string n).
Proof. intros Hn; apply digits_aux_no_at; [exact Hn | intros []]. Qed.

(** Two strings cut at their last ['@']. *)
Lemma split_at_last (x : ascii) (a a' d d' : list ascii) :
  ~ In x d -> ~ In x d' -> a ++ x :: d = a' ++ x :: d' -> a = a' /\ d = d'.
Proof.
  intros Hd Hd'; revert a'.
  induction a as [|c a IH]; intros [|c' a'] H; cbn [app] in H.
  - injection H as H; split; [reflexivity | exact H].
  - injection H as Hc H; subst c'.
    exfalso; apply Hd; rewrite H; apply in_or_app; right; now left.
  - injection H as Hc H; subst c.
    exfalso; apply Hd'; rewrite <- H; apply in_or_app; right; now left.
  - injection H as Hc H; subst c'.
    destruct (IH a' H) as [-> ->]; split; reflexivity.
Qed.

Lemma length_bytes_of_cons (m : members.member) (rest : list members.member) :
  members.plain m ->
  Z.of_nat (length (members.bytes_of (m :: rest)))
  = 60 + (members.m_size m + members.m_size m mod 2)
    + Z.of_nat (length (members.bytes_of rest)).
Proof.
  intros (Hlen & _ & _ & _ & _ & _ & _ & _ & _ & Hdata).
  cbn [members.bytes_of flat_map]; fold (members.bytes_of rest).
  rewrite !length_app, Hlen, !Nat2Z.inj_add, Hdata; lia.
Qed.

Lemma plain_size_nonneg (m : members.member) :
  members.plain m -> 0 <= members.m_size m + members.m_size m mod 2.
Proof.
  intros (_ & _ & _ & _ & _ & _ & _ & Hsize & _).
  pose proof (Z.mod_pos_bound (members.m_size m) 2 ltac:(lia)); lia.
Qed.

(** The keys of the members carry offsets inside the archive, each beyond
    the first header. *)
Lemma expected_keys (ar : list ascii) (ms : list members.member) :
  Forall members.plain ms ->
  forall (offset : Z) (key : list ascii),
    In key (map fst (members.expected ar ms offset)) ->
    exists name o,
      key = ar ++ ":"%char :: name ++ "@"%char :: to_string o
      /\ offset + 60 <= o
         <= offset + Z.of_nat (length (members.bytes_of ms)).
Proof.
  induction 1 as [|m rest Hm Hrest IH]; intros offset key Hin;
    cbn [members.expected map fst In] in Hin; [contradiction|].
  rewrite (length_bytes_of_cons m rest Hm).
  pose proof (plain_size_nonneg m Hm) as Hs.
  destruct Hin as [<-|Hin].
  - exists (members.m_name m), (offset + 60); split; [reflexivity | lia].
  - destruct (IH _ _ Hin) as (name & o & Hkey & Ho).
    exists name, o; split; [exact Hkey | lia].
Qed.

(** No two members have one key. *)
Lemma expected_distinct (ar : list ascii) (ms : list members.member) :
  Forall members.plain ms ->
  forall offset : Z,
    0 <= offset ->
    offset + Z.of_nat (length (members.bytes_of ms)) < 2 ^ 64 ->
    NoDup (map fst (members.expected ar ms offset)).
Proof.
  induction 1 as [|m rest Hm Hrest IH]; intros offset Hoff Hfit;
    cbn [members.expected map fst]; constructor.
  - rewrite (length_bytes_of_cons m rest Hm) in Hfit.
    pose proof (plain_size_nonneg m Hm) as Hs.
    intros Hin.
    destruct (expected_keys ar rest Hrest _ _ Hin) as (name & o & Hkey & Ho).
    apply app_inv_head in Hkey; injection Hkey as Hkey.
    apply split_at_last in Hkey;
      [| apply to_string_no_at; lia | apply to_string_no_at; lia].
    destruct Hkey as [_ Hkey].
    apply to_string_injective in Hkey; lia.
  - rewrite (length_bytes_of_cons m rest Hm) in Hfit.
    pose proof (plain_size_nonneg m Hm) as Hs.
    apply IH; lia.
Qed.

Lemma length_members (ms : list members.member) :
  Forall members.plain ms -> (length ms <= length (members.bytes_of ms))%nat.
Proof.
  induction 1 as [|m rest Hm _ IH]; [cbn; lia|].
  destruct Hm as (Hlen & _).
  cbn [members.bytes_of flat_map length]; fold (members.bytes_of rest).
  rewrite !length_app, Hlen; lia.
Qed.

Lemma updated_enter (es : files.objects) :
  NoDup (map fst es) ->
  forall objs, members.updated es objs (members.enter es objs).
Proof.
  induction es as [|[k o] es IH]; intros Hnd objs; cbn [members.enter].
  - apply updated_nil.
  - cbn [map fst] in Hnd; inversion Hnd as [|? ? Hnotin Hnd']; subst.
    apply updated_cons; [exact Hnotin | apply IH; exact Hnd'].
Qed.

(** The rounds of the loop over well-formed members: they leave the loop
    at the end of the last member with the entries of the members
    assigned to the map. *)
Lemma load_loop_members (ar tail : list ascii) (ms : list members.member) :
  ar <> [] -> Forall members.plain ms ->
  forall (k : nat) (pre : list ascii) (table : Z) (objs : files.objects),
    Z.of_nat (length pre) + Z.of_nat (length (members.bytes_of ms)) < 2 ^ 63 ->
    files.load_loop (length ms + k) ar (pre ++ members.bytes_of ms ++ tail)
                    table (Z.of_nat (length pre)) objs
    = files.load_loop k ar (pre ++ members.bytes_of ms ++ tail) table
        (Z.of_nat (length (pre ++ members.bytes_of ms)))
        (members.enter (members.expected ar ms (Z.of_nat (length pre))) objs).
Proof.
  intros Har; induction 1 as [|m rest Hm Hrest IH];
    intros k pre table objs Hfit.
  - cbn [members.bytes_of flat_map length Nat.add app members.expected
         members.enter].
    rewrite app_nil_r; reflexivity.
  - pose proof (length_bytes_of_cons m rest Hm) as Hbytes.
    pose proof (plain_size_nonneg m Hm) as Hs.
    destruct Hm as (Hlen & H58 & H59 & Hne & Hnul & Hslash & Hstop & Hsize
                    & Hfield & Hdata).
    cbn [members.expected members.enter length Nat.add].
    set (h := members.header m) in *.
    set (d := members.m_data m) in *.
    set (sz := members.m_size m + members.m_size m mod 2) in *.
    assert (Hdatas : members.bytes_of (m :: rest)
                     = h ++ d ++ members.bytes_of rest).
    { cbn [members.bytes_of flat_map]; rewrite <- app_assoc; reflexivity. }
    assert (Hpre : Z.of_nat (length (pre ++ h ++ d))
                   = Z.of_nat (length pre) + 60 + sz).
    { rewrite !length_app, Hlen, !Nat2Z.inj_add, Hdata; lia. }
    assert (Hwhole : pre ++ members.bytes_of (m :: rest) ++ tail
                     = (pre ++ h ++ d) ++ members.bytes_of rest ++ tail).
    { rewrite Hdatas, <- !app_assoc; reflexivity. }
    rewrite (load_loop_step _ _ _ h).
    + rewrite (member_size_field h _ Hsize Hfield); fold sz.
      unfold h at 1, members.header.
      rewrite (add_object_member _ _ _ _ _ _ _ Hstop Hnul Hslash).
      rewrite full_member, to_string_signed_nonneg by (assumption || lia).
      rewrite to_signed64_small by lia.
      replace (Z.of_nat (length pre) + sz + 60)
        with (Z.of_nat (length (pre ++ h ++ d))) by lia.
      rewrite Hwhole, IH by lia.
      rewrite Hpre, Hdatas, <- !app_assoc; reflexivity.
    + rewrite Hdatas, <- !app_assoc.
      apply read_header_at; assumption.
    + unfold h, members.header.
      destruct (members.m_name m) as [|c name]; [contradiction|].
      cbn [app nth]; apply Ascii.eqb_neq; intros ->.
      apply Hslash; now left.
Qed.

(** The whole of [load_objects] up to the header after the last member. *)
Lemma load_objects_members (ar tail : list ascii) (ms : list members.member)
  (objs : files.objects) :
  ar <> [] -> Forall members.plain ms ->
  8 + Z.of_nat (length (members.bytes_of ms)) < 2 ^ 63 ->
  exists k,
    files.load_objects ar (files.rld_archive_ident ++ members.bytes_of ms ++ tail)
                       objs
    = files.load_loop (S k) ar
        ((files.rld_archive_ident ++ members.bytes_of ms) ++ tail) 0
        (Z.of_nat (length (files.rld_archive_ident ++ members.bytes_of ms)))
        (members.enter (members.expected ar ms 8) objs).
Proof.
  intros Har Hms Hfit.
  pose proof (length_members ms Hms) as Hcount.
  assert (Hfuel : exists k,
             S (length (files.rld_archive_ident ++ members.bytes_of ms ++ tail))
             = (length ms + S k)%nat).
  { exists (length (files.rld_archive_ident ++ members.bytes_of ms ++ tail)
            - length ms)%nat.
    rewrite !length_app in *; lia. }
  destruct Hfuel as [k Hk].
  exists k.
  unfold files.load_objects, files.rld_archive_fhdr_base.
  rewrite Hk.
  change 8 with (Z.of_nat (length files.rld_archive_ident)).
  rewrite (load_loop_members ar tail ms Har Hms (S k) files.rld_archive_ident
             0 objs Hfit).
  rewrite <- !app_assoc; reflexivity.
Qed.

(** [load_objects] on the members alone. *)
Lemma load_objects_whole (ar : list ascii) (ms : list members.member)
  (objs : files.objects) :
  ar <> [] -> Forall members.plain ms ->
  8 + Z.of_nat (length (members.bytes_of ms)) < 2 ^ 63 ->
  files.load_objects ar (files.rld_archive_ident ++ members.bytes_of ms) objs
  = Some (Ok (members.enter (members.expected ar ms 8) objs)).
Proof.
  intros Har Hms Hfit.
  destruct (load_objects_members ar [] ms objs Har Hms Hfit) as (k & Hrun).
  rewrite !app_nil_r in Hrun.
  rewrite Hrun, load_loop_first, read_header_at_end; reflexivity.
Qed.

(** X16. [archive::load_objects] on an archive of well-formed members with
    plain names: it ends, and the map then holds for every member one
    object of its own, under the key [archive:name@offset] with the name
    of the name field and the offset of the bytes after the header; the
    object has the size of the size field rounded up to an even number.
    The keys of the members differ from one another, and what the map
    held under other keys is as it was. *)
Theorem load_objects_plain_members (ar : list ascii)
  (ms : list members.member) (objs : files.objects) :
  ar <> [] ->
  Forall members.plain ms ->
  8 + Z.of_nat (length (members.bytes_of ms)) < 2 ^ 63 ->
  exists objs',
    files.load_objects ar (files.rld_archive_ident ++ members.bytes_of ms) objs
    = Some (Ok objs')
    /\ NoDup (map fst (members.expected ar ms 8))
    /\ length (members.expected ar ms 8) = length ms
    /\ (forall key,
           members.lookup key objs'
           = match members.lookup key (members.expected ar ms 8) with
             | Some o => Some o
             | None => members.lookup key objs
             end).
Proof.
  intros Har Hms Hfit.
  assert (Hnd : NoDup (map fst (members.expected ar ms 8)))
    by (apply expected_distinct; [exact Hms | lia | lia]).
  exists (members.enter (members.expected ar ms 8) objs).
  split; [|split; [|split]].
  - apply load_objects_whole; assumption.
  - exact Hnd.
  - clear; generalize 8; induction ms as [|m rest IH]; intros offset;
      cbn [members.expected length]; [reflexivity|].
    f_equal; apply IH.
  - apply updated_enter; exact Hnd.
Qed.

Ltac plain_member :=
  unfold members.plain;
  repeat match goal with
         | |- _ /\ _ => split
         | |- _ \/ _ => right; reflexivity
         | |- ~ In _ _ =>
             let H := fresh in
             intros H; repeat destruct H as [H|H]; try discriminate; exact H
         | |- _ <> _ => discriminate
         | |- (_ <= _)%Z => vm_compute; discriminate
         | |- (_ < _)%Z => vm_compute; reflexivity
         | |- _ = _ => vm_compute; reflexivity
         end.

Lemma load_objects_plain_members_witness :
  exists objs',
    files.load_objects (str "libx.a")
      (files.rld_archive_ident
       ++ members.bytes_of
            [members.mk_member (str "a.o") "/"
               (str "            0           0     0     644     4         `"
                  ++ [files.LF])
               (str "ELF1") 4;
             members.mk_member (str "b.o") "/"
               (str "            0           0     0     644     3         `"
                  ++ [files.LF])
               (str "ELF" ++ [files.LF]) 3])
      []
    = Some (Ok objs')
    /\ members.lookup (str "libx.a:a.o@68") objs'
       = Some (files.mk_object
                 (files.image_of (files.mk_file (str "libx.a") (str "a.o") 68 4))
                 (Some (str "libx.a")))
    /\ members.lookup (str "libx.a:b.o@132") objs'
       = Some (files.mk_object
                 (files.image_of (files.mk_file (str "libx.a") (str "b.o") 132 4))
                 (Some (str "libx.a"))).
Proof.
  destruct (load_objects_plain_members (str "libx.a")
              [members.mk_member (str "a.o") "/"
                 (str "            0           0     0     644     4         `"
                    ++ [files.LF])
                 (str "ELF1") 4;
               members.mk_member (str "b.o") "/"
                 (str "            0           0     0     644     3         `"
                    ++ [files.LF])
                 (str "ELF" ++ [files.LF]) 3]
              []) as (objs' & Hrun & _ & _ & Hlook).
  - discriminate.
  - repeat (apply Forall_cons; [plain_member|]); apply Forall_nil.
  - vm_compute; reflexivity.
  - exists objs'; split; [exact Hrun|].
    rewrite !Hlook; split; vm_compute; reflexivity.
Defined.

(** X18. [archive::load_objects] after the last of any number of well-formed
    members: bytes that do not make up a header of sixty bytes end the
    loop without an error and without an object, the outcome is that of
    the archive without these bytes; sixty bytes or more without the
    magic at the end of the first sixty make it throw [InvalidHeader]. *)
Theorem load_objects_ends (ar tail : list ascii) (ms : list members.member)
  (objs : files.objects) :
  ar <> [] ->
  Forall members.plain ms ->
  8 + Z.of_nat (length (members.bytes_of ms)) < 2 ^ 63 ->
  ((length tail < 60)%nat ->
   files.load_objects ar
     (files.rld_archive_ident ++ members.bytes_of ms ++ tail) objs
   = files.load_objects ar
       (files.rld_archive_ident ++ members.bytes_of ms) objs
   /\ exists objs',
        files.load_objects ar
          (files.rld_archive_ident ++ members.bytes_of ms ++ tail) objs
        = Some (Ok objs')
        /\ members.updated (members.expected ar ms 8) objs objs')
  /\ ((60 <= length tail)%nat ->
      nth 58 tail NUL <> byte_of 96 \/ nth 59 tail NUL <> byte_of 10 ->
      files.load_objects ar
        (files.rld_archive_ident ++ members.bytes_of ms ++ tail) objs
      = Some (Throw InvalidHeader)).
Proof.
  intros Har Hms Hfit.
  destruct (load_objects_members ar tail ms objs Har Hms Hfit) as (k & Hrun).
  split.
  - intros Hshort.
    assert (Hend : files.load_objects ar
                     (files.rld_archive_ident ++ members.bytes_of ms ++ tail)
                     objs
                   = Some (Ok (members.enter (members.expected ar ms 8) objs))).
    { rewrite Hrun, load_loop_first, read_header_short by exact Hshort.
      reflexivity. }
    split.
    + rewrite Hend; symmetry; apply load_objects_whole; assumption.
    + eexists; split; [exact Hend|].
      apply updated_enter, expected_distinct; [exact Hms | lia | lia].
  - intros Hlong Hmagic.
    rewrite Hrun, load_loop_first, read_header_bad_magic by assumption.
    reflexivity.
Qed.

Lemma load_objects_ends_witness :
  files.load_objects (str "libx.a")
    (files.rld_archive_ident
     ++ members.bytes_of
          [members.mk_member (str "a.o") "/"
             (str "            0           0     0     644     4         `"
                ++ [files.LF])
             (str "ELF1") 4]
     ++ repeat " "%char 60)
    []
  = Some (Throw InvalidHeader).
Proof.
  destruct (load_objects_ends (str "libx.a") (repeat " "%char 60)
              [members.mk_member (str "a.o") "/"
                 (str "            0           0     0     644     4         `"
                    ++ [files.LF])
                 (str "ELF1") 4]
              []) as [_ H].
  - discriminate.
  - repeat (apply Forall_cons; [plain_member|]); apply Forall_nil.
  - vm_compute; reflexivity.
  - apply H; [cbn; lia | left; discriminate].
Defined.

(** X19. [archive::add_object]: handed a name that is ended by a ['/'] or a
    null character, it enters an object of the archive under exactly
    that name, with the offset and the size it was given, and changes
    what the map holds for the key of the object and for no other key.
    For an archive and a name that are not empty the key is
    [archive:name@offset], the offset printed as the signed number that
    an [off_t] is. *)
Theorem add_object_enters_name (ar name rest : list ascii) (c : ascii)
  (objs : files.objects) (offset size : Z) :
  c = NUL \/ c = "/"%char ->
  ~ In NUL name -> ~ In "/"%char name ->
  let n := files.mk_file ar name offset size in
  let o := files.mk_object (files.image_of n) (Some ar) in
  files.add_object ar objs (name ++ c :: rest) offset size
  = Ok (files.assign (files.full n) o objs)
  /\ (forall key,
         members.lookup key (files.assign (files.full n) o objs)
         = if list_eq_dec ascii_dec (files.full n) key then Some o
           else members.lookup key objs)
  /\ (ar <> [] -> name <> [] ->
      files.full n
      = ar ++ ":"%char :: name
        ++ "@"%char :: (if offset <? 0 then "-"%char :: to_string (- offset)
                        else to_string offset)).
Proof.
  intros Hc Hnul Hslash; cbv zeta.
  split; [apply add_object_member; assumption|].
  split; [intros key; apply lookup_assign|].
  intros Har Hname; apply full_member; assumption.
Qed.

Lemma add_object_enters_name_witness :
  files.add_object (str "libx.a") [] (str "a.o/            0") 68 4
  = Ok [(str "libx.a:a.o@68",
         files.mk_object
           (files.image_of (files.mk_file (str "libx.a") (str "a.o") 68 4))
           (Some (str "libx.a")))].
Proof.
  assert (H1 : ~ In NUL (str "a.o"))
    by (intros H; repeat destruct H as [H|H]; try discriminate; exact H).
  assert (H2 : ~ In "/"%char (str "a.o"))
    by (intros H; repeat destruct H as [H|H]; try discriminate; exact H).
  exact (proj1 (add_object_enters_name (str "libx.a") (str "a.o")
                  (str "            0") "/"%char [] 68 4
                  (or_intror eq_refl) H1 H2)).
Defined.

(** ** Symbols without a group *)

(** X20. The loop of [image::layout] over the symbols of an object looks up
    the section of an accepted symbol only: it returns when every
    accepted symbol lies in one of the six groups, and otherwise throws
    [SectionIndexNotFound] for the first accepted symbol that does not;
    the section of a symbol that is not accepted is never looked at. *)
Theorem collect_outcome (o : rap.object) (esyms : list rap.symbol)
  (img : rap.image) :
  match rap.collect o esyms img with
  | Ok _ =>
      Forall (fun sym => exists s,
                rap.object_find o (wrap32 (rap.sym_index sym)) = Ok s)
             (filter rap.accepted esyms)
  | Throw e =>
      e = SectionIndexNotFound
      /\ Exists (fun sym =>
                   rap.object_find o (wrap32 (rap.sym_index sym))
                   = Throw SectionIndexNotFound)
                (filter rap.accepted esyms)
  | Undefined => False
  end.
Proof.
  revert img; induction esyms as [|sym rest IH]; intros img;
    cbn [rap.collect filter]; [constructor|].
  destruct (rap.accepted sym); [|apply IH].
  destruct (rap.object_find o (wrap32 (rap.sym_index sym))) as [s|e|] eqn:Ef;
    cbn [bind].
  - match goal with |- context [rap.collect o rest ?i] => specialize (IH i);
      destruct (rap.collect o rest i) end.
    + constructor; [exists s; exact Ef | exact IH].
    + destruct IH as [He Hex]; split; [exact He | right; exact Hex].
    + exact IH.
  - assert (e = SectionIndexNotFound) as ->.
    { unfold rap.object_find in Ef.
      repeat match type of Ef with
             | context [if ?b then _ else _] => destruct b
             end; congruence. }
    split; [reflexivity | left; exact Ef].
  - unfold rap.object_find in Ef.
    repeat match type of Ef with
           | context [if ?b then _ else _] => destruct b
           end; discriminate.
Qed.

Lemma layout_externs_accepted_witness :
  exists img,
    rap.layout [rap.e1_object; rap.e4_object] rap.image_default = Ok img
    /\ map rap.ext_data (rap.externs img) = [18].
Proof.
  destruct (rap.layout [rap.e1_object; rap.e4_object] rap.image_default)
    as [img| |] eqn:E; try (vm_compute in E; discriminate E).
  exists img; split; [reflexivity|].
  rewrite (layout_externs_accepted _ _ E); reflexivity.
Defined.
